(** * GSP: generalized sequential pattern mining

    A shallow embedding of the mining core of the repository
    ([tree.py]: containment engine and support counter; [GSP.py]: join,
    prune and the level-wise driver) together with the properties stated
    about it.

    Conventions of the embedding.
    - A Python [int] is a [Z]; list positions are [nat].
    - An item is a [string] compared as Python compares [str] (code point
      by code point); a [frozenset]/[set] of items is a [gset string].
    - A pattern (a tuple of frozensets) is a [list (gset string)].
    - A [dict] is an insertion-ordered association list ([PyDict]).
    - A [float] is an IEEE 754 binary64 value ([Float64], on the Standard
      Library's [spec_float]).
    - A Python exception is the result [None] of the error monad [option].
    - Console output is not modelled. *)

From Stdlib Require Import ZArith String List Lia SpecFloat.
From stdpp Require Import base option gmap sets list strings sorting.

Open Scope Z_scope.

(** ** Python dictionaries: insertion-ordered association lists *)

Module PyDict.
Section dict.
Context {K V : Type} `{EqDecision K}.

(** [d.get(k)] / [d[k]] (the caller turns [None] into [KeyError]). *)
Fixpoint get (k : K) (d : list (K * V)) : option V :=
  match d with
  | [] => None
  | (k', v) :: d' => if decide (k' = k) then Some v else get k d'
  end.

(** [d[k] = v]: an existing key keeps its place, a new one goes last. *)
Fixpoint set (k : K) (v : V) (d : list (K * V)) : list (K * V) :=
  match d with
  | [] => [(k, v)]
  | (k', v') :: d' =>
      if decide (k' = k) then (k', v) :: d' else (k', v') :: set k v d'
  end.

(** [list(d.keys())] *)
Definition keys (d : list (K * V)) : list K := d.*1.
End dict.
End PyDict.

(** ** Python floats: IEEE 754 binary64 *)

Module Float64.
Definition prec : Z := 53.
Definition emax : Z := 1024.

(** [float(n)] for an [int] [n]: rounded to nearest even.  (Python raises
    [OverflowError] from [2 ^ 1024] on, where this gives an infinity; the
    integers converted here are window counts.) *)
Definition of_int (n : Z) : spec_float := binary_normalize prec emax n 0 false.

(** The literals [100.0] and [0.0]. *)
Definition f100 : spec_float := S754_finite false 7036874417766400 (-46).
Definition f0 : spec_float := S754_zero false.

Definition mul : spec_float → spec_float → spec_float := SFmul prec emax.
Definition div : spec_float → spec_float → spec_float := SFdiv prec emax.

(** [x <= 0] *)
Definition le0 (x : spec_float) : bool := SFleb x f0.

(** [int(x)]: truncation toward zero; [ValueError]/[OverflowError] on
    NaN and the infinities. *)
Definition to_int (x : spec_float) : option Z :=
  match x with
  | S754_zero _ => Some 0
  | S754_finite s m e =>
      let a := if 0 <=? e then Z.pos m * 2 ^ e else Z.pos m / 2 ^ (- e) in
      Some (if s then - a else a)
  | S754_infinity _ | S754_nan => None
  end.

(** [x > n] for a float [x] and an [int] [n]: Python compares the two
    exact values. *)
Definition gt_int (x : spec_float) (n : Z) : bool :=
  match x with
  | S754_zero _ => bool_decide (n < 0)
  | S754_finite s m e =>
      let z := if s then Z.neg m else Z.pos m in
      if 0 <=? e then bool_decide (n < z * 2 ^ e)
      else bool_decide (n * 2 ^ (- e) < z)
  | S754_infinity s => negb s
  | S754_nan => false
  end.

(** The exact value of a finite float is [num / 2 ^ sh]. *)
Definition exact (x : spec_float) : option (Z * Z) :=
  match x with
  | S754_zero _ => Some (0, 0)
  | S754_finite s m e =>
      let z := if s then Z.neg m else Z.pos m in
      Some (if 0 <=? e then (z * 2 ^ e, 0) else (z, - e))
  | S754_infinity _ | S754_nan => None
  end.
End Float64.

(** ** [tree.py] *)

Module Tree.

(** [class TrieNode]: [children] is a dict from itemset to node,
    [patterns] a list. *)
#[warnings="-register-all"]
Inductive TrieNode : Type :=
  Node (children : list (gset string * TrieNode))
       (patterns : list (list (gset string))).

Definition children (n : TrieNode) := let 'Node c _ := n in c.
Definition patterns (n : TrieNode) := let 'Node _ p := n in p.

Definition TrieNode_init : TrieNode := Node [] [].

Record PatternTrie : Type := mkTrie {
  root : TrieNode;
  first_index : list (gset string * list (list (gset string)))
}.

Definition PatternTrie_init : PatternTrie := mkTrie TrieNode_init [].

(** [self.first_index.setdefault(k, []).append(pat)] *)
Definition setdefault_append (k : gset string) (pat : list (gset string))
    (d : list (gset string * list (list (gset string))))
    : list (gset string * list (list (gset string))) :=
  match PyDict.get k d with
  | Some ps => PyDict.set k (ps ++ [pat]) d
  | None => PyDict.set k [pat] d
  end.

(** The walk of [insert] below the first-itemset index: descend along
    the itemsets of the pattern, creating missing children, and append
    the pattern at the node reached. *)
Fixpoint descend (pat : list (gset string)) (rest : list (gset string))
    (node : TrieNode) : TrieNode :=
  match rest with
  | [] => Node (children node) (patterns node ++ [pat])
  | iset :: rest' =>
      let child := default TrieNode_init (PyDict.get iset (children node)) in
      Node (PyDict.set iset (descend pat rest' child) (children node))
           (patterns node)
  end.

(** [PatternTrie.insert] *)
Definition insert (self : PatternTrie) (pat : list (gset string))
    : PatternTrie :=
  match pat with
  | [] => self
  | first :: _ =>
      mkTrie (descend pat pat (root self))
             (setdefault_append first pat (first_index self))
  end.

(** [PatternTrie.build] *)
Definition build (pats : list (list (gset string))) : PatternTrie :=
  foldl insert PatternTrie_init pats.

(** [[i for i, (_, X) in enumerate(seq) if iset.issubset(X)]], with the
    enumeration starting at [i]. *)
Fixpoint matches_from (i : nat) (iset : gset string)
    (seq : list (Z * gset string)) : list nat :=
  match seq with
  | [] => []
  | (_, X) :: seq' =>
      if decide (iset ⊆ X) then i :: matches_from (S i) iset seq'
      else matches_from (S i) iset seq'
  end.

Definition matches (iset : gset string) (seq : list (Z * gset string))
    : list nat := matches_from 0 iset seq.

(** The loop filling [positions]; [None] is its early [return False]. *)
Fixpoint build_positions (seq : list (Z * gset string))
    (pat : list (gset string)) : option (list (list nat)) :=
  match pat with
  | [] => Some []
  | iset :: pat' =>
      match matches iset seq with
      | [] => None
      | m => (m ::.) <$> build_positions seq pat'
      end
  end.

(** The gap and window tests of [dfs] on a time [t]; [true] means the
    index is skipped ([continue]). *)
Definition gap_violated (min_gap max_gap t prev_t : Z) : bool :=
  let dt := t - prev_t in
  bool_decide (dt < min_gap) || bool_decide (dt > max_gap).

Definition window_violated (win_size : option Z) (t first_t : Z) : bool :=
  match win_size with
  | Some w => bool_decide (t - first_t > w)
  | None => false
  end.

(** The loop [for idx in positions[k]] of [dfs]; [deeper idx t] is the
    recursive call [dfs(k + 1, idx, first_t, t)].  [seq[idx]] out of range
    is [IndexError] ([None]). *)
Fixpoint dfs_scan (deeper : nat → Z → option bool)
    (seq : list (Z * gset string)) (min_gap max_gap : Z)
    (win_size : option Z) (prev_idx : nat) (first_t prev_t : Z)
    (cands : list nat) : option bool :=
  match cands with
  | [] => Some false
  | idx :: cands' =>
      if decide (idx ≤ prev_idx)%nat
      then dfs_scan deeper seq min_gap max_gap win_size prev_idx first_t prev_t cands'
      else
        ev ← seq !! idx;
        let t := ev.1 in
        if gap_violated min_gap max_gap t prev_t
        then dfs_scan deeper seq min_gap max_gap win_size prev_idx first_t prev_t cands'
        else if window_violated win_size t first_t
        then dfs_scan deeper seq min_gap max_gap win_size prev_idx first_t prev_t cands'
        else
          r ← deeper idx t;
          if r : bool then Some true
          else dfs_scan deeper seq min_gap max_gap win_size prev_idx first_t prev_t cands'
  end.

(** The inner function [dfs(k, prev_idx, first_t, prev_t)].  The argument
    [levels] is [positions[k:]]: it is empty exactly when [k == len(pat)],
    its head is [positions[k]], and the call at [k + 1] receives its
    tail. *)
Fixpoint dfs (seq : list (Z * gset string)) (min_gap max_gap : Z)
    (win_size : option Z) (levels : list (list nat))
    (prev_idx : nat) (first_t prev_t : Z) : option bool :=
  match levels with
  | [] => Some true
  | cands :: levels' =>
      dfs_scan (λ idx t, dfs seq min_gap max_gap win_size levels' idx first_t t)
        seq min_gap max_gap win_size prev_idx first_t prev_t cands
  end.

(** The final loop over [positions[0]]. *)
Fixpoint start_loop (seq : list (Z * gset string)) (min_gap max_gap : Z)
    (win_size : option Z) (levels' : list (list nat))
    (starts : list nat) : option bool :=
  match starts with
  | [] => Some false
  | start_idx :: starts' =>
      ev ← seq !! start_idx;
      let t0 := ev.1 in
      r ← dfs seq min_gap max_gap win_size levels' start_idx t0 t0;
      if r : bool then Some true
      else start_loop seq min_gap max_gap win_size levels' starts'
  end.

Definition contains_with_int_constraints (seq : list (Z * gset string))
    (pat : list (gset string)) (min_gap max_gap : Z)
    (win_size : option Z) : option bool :=
  match pat with
  | [] => Some true
  | _ :: _ =>
      match build_positions seq pat with
      | None => Some false
      | Some positions =>
          starts ← head positions;
          start_loop seq min_gap max_gap win_size (tail positions) starts
      end
  end.

(** [any(first_iset.issubset(X) for _, X in seq)] *)
Definition any_superset (first_iset : gset string)
    (seq : list (Z * gset string)) : bool :=
  existsb (λ ev, bool_decide (first_iset ⊆ ev.2)) seq.

(** [{p: 0 for p in patterns}] *)
Definition zero_map (pats : list (list (gset string)))
    : list (list (gset string) * Z) :=
  foldl (λ d p, PyDict.set p 0 d) [] pats.

(** The innermost loop, over the patterns registered under one key. *)
Fixpoint count_pats (seq : list (Z * gset string)) (min_gap max_gap : Z)
    (win_size : option Z) (pats : list (list (gset string)))
    (sup : list (list (gset string) * Z))
    : option (list (list (gset string) * Z)) :=
  match pats with
  | [] => Some sup
  | p :: pats' =>
      b ← contains_with_int_constraints seq p min_gap max_gap win_size;
      if b : bool then
        c ← PyDict.get p sup;
        count_pats seq min_gap max_gap win_size pats'
          (PyDict.set p (c + 1) sup)
      else count_pats seq min_gap max_gap win_size pats' sup
  end.

(** The loop over [trie.first_index.items()] for one window. *)
Fixpoint count_keys (seq : list (Z * gset string)) (min_gap max_gap : Z)
    (win_size : option Z)
    (index : list (gset string * list (list (gset string))))
    (sup : list (list (gset string) * Z))
    : option (list (list (gset string) * Z)) :=
  match index with
  | [] => Some sup
  | (first_iset, pats) :: index' =>
      if negb (any_superset first_iset seq)
      then count_keys seq min_gap max_gap win_size index' sup
      else
        sup' ← count_pats seq min_gap max_gap win_size pats sup;
        count_keys seq min_gap max_gap win_size index' sup'
  end.

(** The loop over the windows of the database. *)
Fixpoint count_windows (DB : list (list (Z * gset string)))
    (min_gap max_gap : Z) (win_size : option Z)
    (index : list (gset string * list (list (gset string))))
    (sup : list (list (gset string) * Z))
    : option (list (list (gset string) * Z)) :=
  match DB with
  | [] => Some sup
  | seq :: DB' =>
      sup' ← count_keys seq min_gap max_gap win_size index sup;
      count_windows DB' min_gap max_gap win_size index sup'
  end.

Definition count_support_db_int (DB : list (list (Z * gset string)))
    (pats : list (list (gset string))) (min_gap max_gap : Z)
    (win_size : option Z) : option (list (list (gset string) * Z)) :=
  let trie := build pats in
  count_windows DB min_gap max_gap win_size (first_index trie)
    (zero_map pats).

End Tree.

(** ** [GSP.py] *)

Module GSP.

(** Python's [<] on frozensets is proper inclusion. *)
Definition frozenset_lt (x y : gset string) : bool := bool_decide (x ⊂ y).

(** Python's [<] on tuples: the first position where the two differ (by
    [==]) decides, by [<] of the elements there; when one is a prefix of
    the other the shorter one is smaller. *)
Fixpoint pattern_lt (a b : list (gset string)) : bool :=
  match a, b with
  | [], [] => false
  | [], _ :: _ => true
  | _ :: _, [] => false
  | x :: a', y :: b' =>
      if decide (x = y) then pattern_lt a' b' else frozenset_lt x y
  end.

(** The builtin [sorted], as a stable insertion sort driven by [<] alone:
    each element, taken left to right, goes before the first element of
    the sorted prefix that it is smaller than.  On a list of two elements
    this is what every such sort does: swap exactly when the second is
    smaller than the first.  On three elements or more the order that the
    builtin returns is fixed by [<] only where [<] is a total order, which
    inclusion of frozensets is not; there it depends on the algorithm of
    the interpreter, and this insertion sort need not return the same
    order.  What holds of every sort, and is what the theorems on the join
    rely on, is that the result is a permutation of the input. *)
Fixpoint sorted_insert (x : list (gset string))
    (l : list (list (gset string))) : list (list (gset string)) :=
  match l with
  | [] => [x]
  | y :: l' => if pattern_lt x y then x :: y :: l' else y :: sorted_insert x l'
  end.

Definition sorted (l : list (list (gset string))) : list (list (gset string)) :=
  foldl (λ acc x, sorted_insert x acc) [] l.

(** [max(iset)]: [ValueError] on the empty set. *)
Definition max_item (iset : gset string) : option string :=
  match elements iset with
  | [] => None
  | x :: l => Some (foldl (λ m y, if String.ltb m y then y else m) x l)
  end.

(** The S-step of one ordered pair: what it appends to [cands].
    [a[1:]] is [tail a], [b[:-1]] is [removelast b], [b[-1]] is [last b]
    ([IndexError] on the empty tuple). *)
Definition s_step (a b : list (gset string))
    : option (list (list (gset string))) :=
  if decide (tail a = removelast b) then
    last_b ← last b; Some [a ++ [last_b]]
  else Some [].

(** The I-step of one ordered pair. *)
Definition i_step (a b : list (gset string))
    : option (list (list (gset string))) :=
  if decide (removelast a = removelast b) then
    last_a ← last a;
    last_b ← last b;
    if decide (size last_b = 1%nat) then
      x ← head (elements last_b);
      if decide (x ∈ last_a) then Some [] else
      m ← max_item last_a;
      if String.ltb m x then Some [removelast a ++ [last_a ∪ {[x]}]]
      else Some []
    else Some []
  else Some [].

(** The inner loop [for b in F_prev_sorted]. *)
Fixpoint join_inner (a : list (gset string)) (bs : list (list (gset string)))
    (cands : list (list (gset string))) : option (list (list (gset string))) :=
  match bs with
  | [] => Some cands
  | b :: bs' =>
      if decide (a = b) then join_inner a bs' cands else
      s ← s_step a b;
      i ← i_step a b;
      join_inner a bs' (cands ++ s ++ i)
  end.

(** The outer loop [for a in F_prev_sorted]. *)
Fixpoint join_outer (as_ : list (list (gset string)))
    (F_prev_sorted : list (list (gset string)))
    (cands : list (list (gset string))) : option (list (list (gset string))) :=
  match as_ with
  | [] => Some cands
  | a :: as' =>
      cands' ← join_inner a F_prev_sorted cands;
      join_outer as' F_prev_sorted cands'
  end.

(** [list(dict.fromkeys(cands))] *)
Definition fromkeys (cands : list (list (gset string)))
    : list (list (gset string) * ()) :=
  foldl (λ d c, PyDict.set c () d) [] cands.

(** The body of [join_step] after the call of [sorted]: the two loops
    over [F_prev_sorted] and the removal of the duplicates. *)
Definition join_sorted (F_prev_sorted : list (list (gset string)))
    : option (list (list (gset string))) :=
  cands ← join_outer F_prev_sorted F_prev_sorted [];
  Some (PyDict.keys (fromkeys cands)).

Definition join_step (F_prev : list (list (gset string)))
    : option (list (list (gset string))) :=
  let F_prev_sorted := sorted F_prev in
  join_sorted F_prev_sorted.

(** Loop (A) of [prune_step] over [enumerate(c)], from position [i] on
    ([rest] is [c[i:]]); the result is the flag [ok]. *)
Fixpoint prune_A (c : list (gset string)) (F_prev_set : gset (list (gset string)))
    (i : nat) (rest : list (gset string)) : bool :=
  match rest with
  | [] => true
  | iset :: rest' =>
      if decide (size iset = 1%nat) then
        let sub := take i c ++ drop (S i) c in
        if decide (sub ∈ F_prev_set) then prune_A c F_prev_set (S i) rest'
        else false
      else prune_A c F_prev_set (S i) rest'
  end.

(** The loop [for x in iset] of part (B). *)
Fixpoint prune_B_items (c : list (gset string))
    (F_prev_set : gset (list (gset string))) (i : nat) (iset : gset string)
    (xs : list string) : bool :=
  match xs with
  | [] => true
  | x :: xs' =>
      let smaller_iset := iset ∖ {[x]} in
      let sub := take i c ++ [smaller_iset] ++ drop (S i) c in
      if decide (sub ∈ F_prev_set)
      then prune_B_items c F_prev_set i iset xs'
      else false
  end.

(** Loop (B) of [prune_step]. *)
Fixpoint prune_B (c : list (gset string)) (F_prev_set : gset (list (gset string)))
    (i : nat) (rest : list (gset string)) : bool :=
  match rest with
  | [] => true
  | iset :: rest' =>
      if decide (size iset ≤ 1)%nat then prune_B c F_prev_set (S i) rest'
      else if prune_B_items c F_prev_set i iset (elements iset)
      then prune_B c F_prev_set (S i) rest'
      else false
  end.

(** The loop [for c in Ck], threading the list [pruned]. *)
Fixpoint prune_loop (Ck : list (list (gset string)))
    (F_prev_set : gset (list (gset string)))
    (pruned : list (list (gset string))) : list (list (gset string)) :=
  match Ck with
  | [] => pruned
  | c :: Ck' =>
      if negb (prune_A c F_prev_set 0 c) then prune_loop Ck' F_prev_set pruned
      else if prune_B c F_prev_set 0 c
      then prune_loop Ck' F_prev_set (pruned ++ [c])
      else prune_loop Ck' F_prev_set pruned
  end.

Definition prune_step (Ck : list (list (gset string)))
    (F_prev_set : gset (list (gset string))) : list (list (gset string)) :=
  prune_loop Ck F_prev_set [].

(** The threshold computed at the start of [run]: from the percentage
    [min_sup_pct] (a float) and [db_size]. *)
Definition min_sup_count (min_sup_pct : spec_float) (db_size : Z) : option Z :=
  let raw := Float64.mul (Float64.div min_sup_pct Float64.f100)
                         (Float64.of_int db_size) in
  if Float64.le0 min_sup_pct then Some 0
  else
    c ← Float64.to_int raw;
    Some (if Float64.gt_int raw c then c + 1 else c).

(** One entry of a level of the result: [{"count": ..., "support_pct": ...}]. *)
Record info : Type := mkInfo { count : spec_float; support_pct : spec_float }.

(** [cnt / db_size] on two integers below [2 ^ 53] is the quotient of
    their conversions. *)
Definition mk_info (cnt db_size : Z) : info :=
  mkInfo (Float64.of_int cnt)
         (Float64.mul (Float64.div (Float64.of_int cnt) (Float64.of_int db_size))
                      Float64.f100).

(** The F1 scan: [seen] is the union of the itemsets of a window, and
    every item of it is counted once. *)
Definition seen_items (seq : list (Z * gset string)) : gset string :=
  foldl (λ seen ev, seen ∪ ev.2) ∅ seq.

Definition count_seen (item_support : list (string * Z)) (seen : list string)
    : list (string * Z) :=
  foldl (λ d item, PyDict.set item (default 0 (PyDict.get item d) + 1) d)
        item_support seen.

Definition scan_items (DB : list (list (Z * gset string))) : list (string * Z) :=
  foldl (λ d seq, count_seen d (elements (seen_items seq))) [] DB.

Definition F1_of (item_support : list (string * Z)) (min_sup_count : Z)
    : list (list (gset string)) :=
  omap (λ '(item, sup), if decide (sup >= min_sup_count)
                        then Some [({[item]} : gset string)] else None)
       item_support.

(** [results[1]]: for each [p] of [F1] the support of
    [next(iter(p[0]))]. *)
Fixpoint level1 (item_support : list (string * Z)) (db_size : Z)
    (F1 : list (list (gset string)))
    (acc : list (list (gset string) * info))
    : option (list (list (gset string) * info)) :=
  match F1 with
  | [] => Some acc
  | p :: F1' =>
      p0 ← head p;
      item ← head (elements p0);
      cnt ← PyDict.get item item_support;
      level1 item_support db_size F1' (PyDict.set p (mk_info cnt db_size) acc)
  end.

(** [[p for p, sup in sup_map.items() if sup >= min_sup_count]] *)
Definition frequent (sup_map : list (list (gset string) * Z)) (min_sup_count : Z)
    : list (list (gset string)) :=
  omap (λ '(p, sup), if decide (sup >= min_sup_count) then Some p else None)
       sup_map.

(** [results[k]] *)
Fixpoint level_k (sup_map : list (list (gset string) * Z)) (db_size : Z)
    (Fk : list (list (gset string)))
    (acc : list (list (gset string) * info))
    : option (list (list (gset string) * info)) :=
  match Fk with
  | [] => Some acc
  | p :: Fk' =>
      cnt ← PyDict.get p sup_map;
      level_k sup_map db_size Fk' (PyDict.set p (mk_info cnt db_size) acc)
  end.

(** The outcome of the [while F_prev] loop run with a bound on the number
    of iterations. *)
Inductive outcome (A : Type) : Type :=
  | Returned (a : A)      (* the loop was left *)
  | Raised                (* a Python exception *)
  | OutOfFuel.            (* the bound was reached *)
Arguments Returned {A} a.
Arguments Raised {A}.
Arguments OutOfFuel {A}.

(** The loop [while F_prev] of [run]; each iteration uses one unit of
    [fuel]. *)
Fixpoint level_loop (fuel : nat) (DB : list (list (Z * gset string)))
    (db_size min_sup_count min_gap max_gap : Z) (win_size : option Z)
    (F_prev : list (list (gset string))) (k : Z)
    (results : list (Z * list (list (gset string) * info)))
    : outcome (list (Z * list (list (gset string) * info))) :=
  match F_prev with
  | [] => Returned results
  | _ :: _ =>
    match fuel with
    | O => OutOfFuel
    | S fuel' =>
      match join_step F_prev with
      | None => Raised
      | Some Ck =>
        let Ck := prune_step Ck (list_to_set F_prev) in
        match Ck with
        | [] => Returned results
        | _ :: _ =>
          match Tree.count_support_db_int DB Ck min_gap max_gap win_size with
          | None => Raised
          | Some sup_map =>
            let Fk := frequent sup_map min_sup_count in
            match Fk with
            | [] => Returned results
            | _ :: _ =>
              match level_k sup_map db_size Fk [] with
              | None => Raised
              | Some lvl =>
                  level_loop fuel' DB db_size min_sup_count min_gap max_gap
                    win_size Fk (k + 1) (PyDict.set k lvl results)
              end
            end
          end
        end
      end
    end
  end.

(** [GSP.run], on the database [self.DB] as it is once prepared. *)
Definition run (fuel : nat) (DB : list (list (Z * gset string)))
    (min_sup_pct : spec_float) (min_gap max_gap : Z) (win_size : option Z)
    : outcome (list (Z * list (list (gset string) * info))) :=
  let db_size := Z.of_nat (length DB) in
  if decide (db_size = 0) then Returned [] else
  match min_sup_count min_sup_pct db_size with
  | None => Raised
  | Some msc =>
      let item_support := scan_items DB in
      let F1 := F1_of item_support msc in
      match level1 item_support db_size F1 [] with
      | None => Raised
      | Some lvl1 =>
          level_loop fuel DB db_size msc min_gap max_gap win_size F1 2
            [(1, lvl1)]
      end
  end.

(** ** [GSP.py]: the preparation of the database *)

(** [discretize_return]: the literal [0.001] and its opposite, and the
    three-way test.  Comparisons with a NaN are false. *)
Definition f0001 : spec_float := S754_finite false 4611686018427388 (-62).

Definition discretize_return (x : spec_float) : string :=
  if SFleb (SFopp f0001) x && SFleb x f0001 then "0"
  else if SFltb f0001 x then "1"
  else "-1".

(** The window loop of [prepare_db].  The rows of [t_itemsets], whose two
    columns are [times_int] and [itemsets], are the list [rows] of pairs
    [(times_int[j], itemsets[j])].

    The loop [while j < len(times_int) and times_int[j] < end_t], run on
    the rows from [j] on: the events it appends to [seq]. *)
Fixpoint window_from (end_t : Z) (rows : list (Z * gset string))
    : list (Z * gset string) :=
  match rows with
  | [] => []
  | ev :: rows' => if decide (ev.1 < end_t) then ev :: window_from end_t rows' else []
  end.

(** The loop [while i < len(times_int) and times_int[i] < target], run on
    the rows from [i] on: the value of [i] when it ends. *)
Fixpoint advance (target : Z) (rows : list (Z * gset string)) (i : nat) : nat :=
  match rows with
  | [] => i
  | ev :: rows' => if decide (ev.1 < target) then advance target rows' (S i) else i
  end.

(** The loop [while i < len(times_int)]; each iteration uses one unit of
    [fuel]. *)
Fixpoint window_loop (fuel : nat) (rows : list (Z * gset string))
    (seq_len seq_step : Z) (i : nat) (DB : list (list (Z * gset string)))
    : outcome (list (list (Z * gset string))) :=
  match rows !! i with
  | None => Returned DB
  | Some ev =>
    match fuel with
    | O => OutOfFuel
    | S fuel' =>
        let start_t := ev.1 in
        let end_t := start_t + seq_len in
        let seq := window_from end_t (drop i rows) in
        let DB' := match seq with [] => DB | _ :: _ => DB ++ [seq] end in
        let target := start_t + seq_step in
        window_loop fuel' rows seq_len seq_step
          (advance target (drop i rows) i) DB'
    end
  end.

(** The part of [prepare_db] after the aggregation: from the rows to the
    database of windows. *)
Definition prepare_windows (fuel : nat) (rows : list (Z * gset string))
    (seq_len seq_step : Z) : outcome (list (list (Z * gset string))) :=
  match rows with
  | [] => Returned []
  | _ :: _ => window_loop fuel rows seq_len seq_step 0 []
  end.

End GSP.

(** ** [main.py]: the input loop *)
Module Main.

Section ask_number.
(** [str.strip], [cast(raw)] ([None] when it raises [ValueError]) and the
    comparison [<] of the type [T]; [a > b] is [b < a]. *)
Context {T : Type} (strip : string → string) (cast : string → option T)
        (lt : T → T → bool).

(** [ask_number].  The lines that [input] will return are [inputs]; each
    iteration of [while True] reads one.  The result is the value returned
    and the lines left, or [None] when [input] finds no line (it raises
    [EOFError]). *)
Fixpoint ask_number (inputs : list string) (default : T)
    (min_value max_value : option T) (allow_empty : bool)
    (predicate : option (T → bool)) : option (T * list string) :=
  match inputs with
  | [] => None
  | line :: inputs' =>
      let again :=
        ask_number inputs' default min_value max_value allow_empty predicate in
      let raw := strip line in
      if decide (raw = "") then
        if allow_empty then Some (default, inputs') else again
      else
        match cast raw with
        | None => again
        | Some value =>
            if match min_value with Some m => lt value m | None => false end
            then again
            else if match max_value with Some m => lt m value | None => false end
            then again
            else if match predicate with Some f => negb (f value) | None => false end
            then again
            else Some (value, inputs')
        end
  end.
End ask_number.

End Main.

(** * Specification vocabulary *)

Import Tree GSP.

Section occurrences.
Context (seq : list (Z * gset string)) (min_gap max_gap : Z)
        (win_size : option Z).

(** The time index of the event at position [i] of the window. *)
Definition time_at (i : nat) : option Z := fst <$> seq !! i.

(** The itemset [I] is included in the event at position [i]. *)
Definition hits (iset : gset string) (i : nat) : Prop :=
  ∃ ev, seq !! i = Some ev ∧ iset ⊆ ev.2.

(** [idxs] is an occurrence of [pat] in the window: one position per
    itemset, the positions strictly increasing, each itemset included in
    the event at its position, every consecutive gap within
    [[min_gap, max_gap]], and the whole span within [win_size] when one is
    configured. *)
Definition occurrence (pat : list (gset string)) (idxs : list nat) : Prop :=
  length idxs = length pat
  ∧ (∀ k i iset, idxs !! k = Some i → pat !! k = Some iset → hits iset i)
  ∧ (∀ k i j, idxs !! k = Some i → idxs !! S k = Some j → (i < j)%nat)
  ∧ (∀ k i j ti tj, idxs !! k = Some i → idxs !! S k = Some j →
       time_at i = Some ti → time_at j = Some tj →
       min_gap ≤ tj - ti ≤ max_gap)
  ∧ (∀ w i j ti tj, win_size = Some w →
       head idxs = Some i → last idxs = Some j →
       time_at i = Some ti → time_at j = Some tj → tj - ti ≤ w).

(** What one run of [dfs] looks for: positions for the itemsets of [pat]
    after [prev_idx], each passing the tests of the loop body against the
    previous time and the first time. *)
Fixpoint chain (pat : list (gset string)) (prev_idx : nat)
    (first_t prev_t : Z) (idxs : list nat) : Prop :=
  match pat, idxs with
  | [], [] => True
  | iset :: pat', idx :: idxs' =>
      (prev_idx < idx)%nat ∧
      ∃ ev, seq !! idx = Some ev ∧ iset ⊆ ev.2 ∧
            min_gap ≤ ev.1 - prev_t ≤ max_gap ∧
            (∀ w, win_size = Some w → ev.1 - first_t ≤ w) ∧
            chain pat' idx first_t ev.1 idxs'
  | _, _ => False
  end.
End occurrences.

(** The window [seq] contains [p]: the engine answers [True]. *)
Definition contained (min_gap max_gap : Z) (win_size : option Z)
    (p : list (gset string)) (seq : list (Z * gset string)) : bool :=
  bool_decide (contains_with_int_constraints seq p min_gap max_gap win_size
               = Some true).

(** The number of windows of the database that contain [p]. *)
Definition windows_containing (DB : list (list (Z * gset string)))
    (min_gap max_gap : Z) (win_size : option Z) (p : list (gset string)) : Z :=
  Z.of_nat (length (List.filter (contained min_gap max_gap win_size p) DB)).

(** How many times [p] occurs in a list of patterns. *)
Definition occurrences (p : list (gset string))
    (pats : list (list (gset string))) : Z :=
  Z.of_nat (length (List.filter (λ q, bool_decide (q = p)) pats)).

(** The patterns registered in a first-itemset index, key after key. *)
Definition registered (index : list (gset string * list (list (gset string))))
    : list (list (gset string)) :=
  concat index.*2.

(** Rule A of the pruner: for every itemset of [c] that has exactly one
    item, deleting that whole itemset leaves a pattern of [F]. *)
Definition rule_A (c : list (gset string)) (F : gset (list (gset string))) : Prop :=
  ∀ i iset, c !! i = Some iset → size iset = 1%nat → delete i c ∈ F.

(** Rule B of the pruner: for every itemset of [c] that has more than one
    item and every item [x] of it, deleting just [x] from that itemset
    leaves a pattern of [F]. *)
Definition rule_B (c : list (gset string)) (F : gset (list (gset string))) : Prop :=
  ∀ i iset x, c !! i = Some iset → (1 < size iset)%nat → x ∈ iset →
    <[i := iset ∖ {[x]}]> c ∈ F.

(** A pattern of the data model: a non-empty sequence of non-empty
    itemsets. *)
Definition well_formed (p : list (gset string)) : Prop :=
  p ≠ [] ∧ ∀ iset, iset ∈ p → iset ≠ ∅.

(** The item order: [x] is strictly below [y]. *)
Definition item_lt (x y : string) : Prop := String.ltb x y = true.

(** The S-step: [a] without its first itemset equals [b] without its last
    one, and [c] is [a] followed by the last itemset of [b]. *)
Definition s_rule (a b c : list (gset string)) : Prop :=
  tail a = removelast b ∧ ∃ last_b, last b = Some last_b ∧ c = a ++ [last_b].

(** The I-step: [a] and [b] agree on all itemsets but the last, the last
    itemset of [b] is a single item [x] that is not in the last itemset of
    [a] and is strictly above every item of it, and [c] is [a] with [x]
    merged into its last itemset. *)
Definition i_rule (a b c : list (gset string)) : Prop :=
  removelast a = removelast b ∧
  ∃ last_a x, last a = Some last_a ∧ last b = Some {[x]} ∧
    (x ∉ last_a) ∧ (∀ y, y ∈ last_a → item_lt y x) ∧
    c = removelast a ++ [last_a ∪ {[x]}].

(** Removal of duplicates that keeps first occurrences in their order:
    the head stays, and its later copies go. *)
Fixpoint first_seen (l : list (list (gset string))) : list (list (gset string)) :=
  match l with
  | [] => []
  | x :: l' => x :: List.filter (λ y, negb (bool_decide (y = x))) (first_seen l')
  end.

(** The scenario of the specification: one window, [min_gap = 0],
    [max_gap = 5], no window size. *)
Definition scenario_window : list (Z * gset string) :=
  [(0, {["A_1"]}); (1, {["A_1"; "B_0"]}); (2, {["B_0"]})].

(** Every pattern stored under a key has that key as its first itemset. *)
Definition keyed (index : list (gset string * list (list (gset string)))) : Prop :=
  ∀ k ps p, (k, ps) ∈ index → p ∈ ps → head p = Some k.

Definition scenario_patterns : list (list (gset string)) :=
  [[{["A_1"]}; {["B_0"]}]; [{["B_0"]}; {["A_1"]}]; [{["A_1"]}]].

(** What one ordered pair contributes to [cands]. *)
Definition emitted (a b : list (gset string)) : list (list (gset string)) :=
  if decide (a = b) then []
  else default [] (s_step a b) ++ default [] (i_step a b).

Definition items_A_B : list (list (gset string)) := [[{["A"]}]; [{["B"]}]].

(** The order of the specification (section 4.1).  The canonical
    representative of an itemset is the list of its items in ascending
    order; two such lists compare lexicographically by the item order;
    two patterns compare as sequences, the first itemset where they
    differ deciding by that comparison. *)
Definition canonical (iset : gset string) : list string :=
  merge_sort String.le (elements iset).

Fixpoint spec_items_lt (l1 l2 : list string) : bool :=
  match l1, l2 with
  | [], [] => false
  | [], _ :: _ => true
  | _ :: _, [] => false
  | x :: l1', y :: l2' =>
      if decide (x = y) then spec_items_lt l1' l2' else String.ltb x y
  end.

Fixpoint spec_pattern_lt (a b : list (gset string)) : bool :=
  match a, b with
  | [], [] => false
  | [], _ :: _ => true
  | _ :: _, [] => false
  | x :: a', y :: b' =>
      if decide (x = y) then spec_pattern_lt a' b'
      else spec_items_lt (canonical x) (canonical y)
  end.

(** The ceiling of [p / 100 * n] for an integer percentage [p], in exact
    arithmetic. *)
Definition exact_threshold (p n : Z) : Z := - ((- (p * n)) / 100).

(** The items of a pattern, itemset after itemset. *)
Definition flat (p : list (gset string)) : list string := p ≫= elements.

(** No item stands twice in the pattern. *)
Definition distinct (p : list (gset string)) : Prop := NoDup (flat p).

(** The number of items of a pattern, over all its itemsets. *)
Definition total_items (p : list (gset string)) : nat := length (flat p).

(** The items of a collection of patterns. *)
Definition items_of (F : list (list (gset string))) : gset string :=
  ⋃ (mjoin F).

(** What the driver maintains on the frequent set handed to level
    [n + 1]: its patterns are well formed, hold no item twice, have at
    least [n] items, and draw their items from [U]. *)
Definition level_inv (U : gset string) (n : nat)
    (F : list (list (gset string))) : Prop :=
  ∀ p, p ∈ F →
    well_formed p ∧ distinct p ∧ (n ≤ total_items p)%nat ∧
    ∀ iset, iset ∈ p → iset ⊆ U.

(** The window bound [ws'] allows whatever the bound [ws] allows. *)
Definition window_le (ws ws' : option Z) : Prop :=
  match ws' with
  | None => True
  | Some w' => ∃ w, ws = Some w ∧ w ≤ w'
  end.

(** The node reached from [node] along the itemsets of [path], when
    every child on the way exists. *)
Fixpoint walk (path : list (gset string)) (node : TrieNode) : option TrieNode :=
  match path with
  | [] => Some node
  | iset :: path' => child ← PyDict.get iset (children node); walk path' child
  end.

(** The patterns stored at the end of [path] (none when the path leaves
    the trie). *)
Definition stored_at (path : list (gset string)) (node : TrieNode)
    : list (list (gset string)) :=
  default [] (patterns <$> walk path node).

(** The item occurs in some event of the window. *)
Definition occurs_in (item : string) (seq : list (Z * gset string)) : bool :=
  existsb (λ ev, bool_decide (item ∈ ev.2)) seq.

(** The number of windows of the database in which the item occurs. *)
Definition windows_with_item (DB : list (list (Z * gset string)))
    (item : string) : Z :=
  Z.of_nat (length (List.filter (occurs_in item) DB)).

Section levels.
Context (DB : list (list (Z * gset string))) (db_size min_sup_count : Z)
        (min_gap max_gap : Z) (win_size : option Z).

(** What an entry of level [n] of the result must be: the pattern has
    [n] items and is well formed, its number of containing windows
    reaches the threshold, and the recorded information is built from that
    number. *)
Definition entry_ok (n : nat) (entry : list (gset string) * info) : Prop :=
  entry.2 = mk_info (windows_containing DB min_gap max_gap win_size entry.1)
                    db_size
  ∧ min_sup_count ≤ windows_containing DB min_gap max_gap win_size entry.1
  ∧ total_items entry.1 = n
  ∧ well_formed entry.1.

(** The pattern [c] is frequent at the level after [F]: a candidate
    joined from [F] that passes the pruner against [F] and whose number
    of containing windows reaches the threshold. *)
Definition next_frequent (F : list (list (gset string)))
    (c : list (gset string)) : Prop :=
  ∃ Ck, join_step F = Some Ck ∧ c ∈ prune_step Ck (list_to_set F) ∧
        min_sup_count ≤ windows_containing DB min_gap max_gap win_size c.

(** The levels recorded after level [n], whose patterns are [F]: each is
    numbered one more than the one before, is not empty, and holds exactly
    the patterns frequent after the level before; after the last one
    nothing is frequent. *)
Fixpoint levels_ok (F : list (list (gset string))) (n : nat)
    (new : list (Z * list (list (gset string) * info))) : Prop :=
  match new with
  | [] => ∀ c, ¬ next_frequent F c
  | (k, lvl) :: rest =>
      k = Z.of_nat (S n) ∧ lvl ≠ [] ∧ NoDup (PyDict.keys lvl) ∧
      Forall (entry_ok (S n)) lvl ∧
      (∀ c, c ∈ PyDict.keys lvl ↔ next_frequent F c) ∧
      levels_ok (PyDict.keys lvl) (S n) rest
  end.
End levels.

(** The result of [run] on the scenario window with a support of 50
    percent, for the examples. *)
Definition scenario_result : list (Z * list (list (gset string) * info)) :=
  Eval vm_compute in
    match run 3 [scenario_window] (Float64.of_int 50) 0 5 None with
    | Returned r => r
    | _ => []
    end.

(** The times of the rows increase strictly. *)
Definition increasing_times (rows : list (Z * gset string)) : Prop :=
  StronglySorted (λ a b, a.1 < b.1) rows.

(** The opposite code of [discretize_return]. *)
Definition opposite_code (c : string) : string :=
  if decide (c = "1") then "-1" else if decide (c = "-1") then "1" else c.


(** What every window of the prepared database is: the events collected
    from some row on, at least one. *)
Definition window_ok (rows : list (Z * gset string)) (seq_len : Z)
    (w : list (Z * gset string)) : Prop :=
  ∃ i ev, rows !! i = Some ev ∧ w ≠ [] ∧
          w = window_from (ev.1 + seq_len) (drop i rows).

(** A table of four rows, for the examples. *)
Definition scenario_rows : list (Z * gset string) :=
  [(0, {["A_1"]}); (1, {["A_1"; "B_0"]}); (2, {["B_0"]}); (5, {["A_1"]})].

(** Level one of that result. *)
Definition scenario_level_one : list (list (gset string) * info) :=
  default [] (snd <$> scenario_result !! 0%nat).

(** * The dictionary model *)

Section pydict.
Context {K V : Type} `{EqDecision K}.
Implicit Types (d : list (K * V)) (k : K) (v : V).

Lemma get_set_eq d k v : PyDict.get k (PyDict.set k v d) = Some v.
Proof.
  induction d as [|[k' v'] d IH]; simpl.
  - by rewrite decide_True.
  - destruct (decide (k' = k)) as [->|Hne]; simpl.
    + by rewrite decide_True.
    + by rewrite decide_False.
Qed.

Lemma get_set_ne d k k' v :
  k ≠ k' → PyDict.get k' (PyDict.set k v d) = PyDict.get k' d.
Proof.
  intros Hne. induction d as [|[k0 v0] d IH]; simpl.
  - by rewrite decide_False.
  - destruct (decide (k0 = k)) as [->|Hne0]; simpl.
    + by rewrite !decide_False.
    + by rewrite IH.
Qed.

Lemma get_Some_keys d k : is_Some (PyDict.get k d) ↔ k ∈ PyDict.keys d.
Proof.
  unfold PyDict.keys. induction d as [|[k0 v0] d IH]; simpl.
  - split; [by intros [? ?]|by intros ?%elem_of_nil].
  - rewrite elem_of_cons. destruct (decide (k0 = k)) as [->|Hne].
    + split; eauto.
    + rewrite IH. split; [by right|]. intros [?|?]; [congruence|done].
Qed.

Lemma get_None_keys d k : PyDict.get k d = None ↔ k ∉ PyDict.keys d.
Proof. rewrite <- get_Some_keys, eq_None_not_Some. done. Qed.

Lemma keys_set_present d k v :
  k ∈ PyDict.keys d → PyDict.keys (PyDict.set k v d) = PyDict.keys d.
Proof.
  unfold PyDict.keys. induction d as [|[k0 v0] d IH]; simpl.
  - by intros ?%elem_of_nil.
  - intros Hin. destruct (decide (k0 = k)) as [->|Hne]; simpl; [done|].
    f_equal. apply IH. apply elem_of_cons in Hin as [?|?]; [congruence|done].
Qed.

Lemma keys_set_absent d k v :
  k ∉ PyDict.keys d → PyDict.keys (PyDict.set k v d) = PyDict.keys d ++ [k].
Proof.
  unfold PyDict.keys. induction d as [|[k0 v0] d IH]; simpl; [done|].
  intros Hin. apply not_elem_of_cons in Hin as [? ?].
  rewrite decide_False by done. simpl. f_equal. by apply IH.
Qed.

Lemma elem_of_keys_set d k k' v :
  k' ∈ PyDict.keys (PyDict.set k v d) ↔ k' = k ∨ k' ∈ PyDict.keys d.
Proof.
  destruct (decide (k ∈ PyDict.keys d)) as [Hin|Hin].
  - rewrite keys_set_present by done. split; [by right|].
    intros [->|?]; done.
  - rewrite keys_set_absent by done. rewrite elem_of_app, list_elem_of_singleton.
    tauto.
Qed.

Lemma NoDup_keys_set d k v :
  NoDup (PyDict.keys d) → NoDup (PyDict.keys (PyDict.set k v d)).
Proof.
  intros Hnd. destruct (decide (k ∈ PyDict.keys d)) as [Hin|Hin].
  - by rewrite keys_set_present.
  - rewrite keys_set_absent by done. apply NoDup_app. split_and!; [done| |].
    + intros x Hx ->%list_elem_of_singleton. done.
    + apply NoDup_singleton.
Qed.
End pydict.

(** * The containment engine *)

Section containment.
Context (seq : list (Z * gset string)) (min_gap max_gap : Z)
        (win_size : option Z).

Lemma elem_of_matches_from n iset (s : list (Z * gset string)) i :
  i ∈ matches_from n iset s ↔
  ∃ j ev, i = (n + j)%nat ∧ s !! j = Some ev ∧ iset ⊆ ev.2.
Proof.
  revert n. induction s as [|[t X] s IH]; intros n; simpl.
  - split; [by intros ?%elem_of_nil|]. by intros (j & ev & _ & ? & _).
  - assert (i ∈ matches_from (S n) iset s ↔
            ∃ j ev, i = (n + S j)%nat ∧ s !! j = Some ev ∧ iset ⊆ ev.2) as IH'.
    { rewrite IH. split; intros (j & ev & -> & ? & ?); exists j, ev;
        (split; [lia|done]). }
    destruct (decide (iset ⊆ X)) as [Hsub|Hsub].
    + rewrite elem_of_cons, IH'. split.
      * intros [->|(j & ev & -> & ? & ?)].
        -- exists 0%nat, (t, X). split; [lia|done].
        -- exists (S j), ev. done.
      * intros ([|j] & ev & -> & Hj & ?).
        -- left. lia.
        -- right. exists j, ev. done.
    + rewrite IH'. split.
      * intros (j & ev & -> & ? & ?). exists (S j), ev. done.
      * intros ([|j] & ev & -> & Hj & ?).
        -- simpl in Hj. injection Hj as <-. done.
        -- exists j, ev. done.
Qed.

Lemma elem_of_matches iset i : i ∈ matches iset seq ↔ hits seq iset i.
Proof.
  unfold matches, hits. rewrite elem_of_matches_from. split.
  - intros (j & ev & -> & ? & ?). exists ev. done.
  - intros (ev & ? & ?). exists i, ev. done.
Qed.

Lemma build_positions_Some pat ps :
  build_positions seq pat = Some ps →
  Forall2 (λ iset m, m = matches iset seq) pat ps.
Proof.
  revert ps. induction pat as [|iset pat IH]; intros ps; simpl.
  - intros [= <-]. constructor.
  - destruct (matches iset seq) as [|i m] eqn:Hm; [done|].
    destruct (build_positions seq pat) as [ps'|]; [|done].
    intros [= <-]. constructor; [done|]. by apply IH.
Qed.

Lemma build_positions_None pat :
  build_positions seq pat = None → ∃ iset, iset ∈ pat ∧ matches iset seq = [].
Proof.
  induction pat as [|iset pat IH]; simpl; [done|].
  destruct (matches iset seq) as [|i m] eqn:Hm.
  - intros _. exists iset. split; [left|done].
  - destruct (build_positions seq pat) as [ps'|]; [done|].
    intros _. destruct IH as (iset' & ? & ?); [done|].
    exists iset'. split; [by right|done].
Qed.

Lemma gap_violated_false t prev_t :
  gap_violated min_gap max_gap t prev_t = false ↔
  min_gap ≤ t - prev_t ≤ max_gap.
Proof.
  unfold gap_violated. rewrite orb_false_iff, !bool_decide_eq_false. lia.
Qed.

Lemma window_violated_false t first_t :
  window_violated win_size t first_t = false ↔
  ∀ w, win_size = Some w → t - first_t ≤ w.
Proof.
  unfold window_violated. destruct win_size as [w|].
  - rewrite bool_decide_eq_false. split.
    + intros ? w' [= <-]. lia.
    + intros Hw. specialize (Hw w eq_refl). lia.
  - split; [by intros _ w [=]|done].
Qed.

(** The loop of [dfs] finds exactly the admissible positions on which the
    recursive call succeeds. *)
Lemma dfs_scan_spec (deeper : nat → Z → option bool) (R : nat → Z → Prop)
    prev_idx first_t prev_t cands :
  (∀ idx t, ∃ b, deeper idx t = Some b ∧ (b = true ↔ R idx t)) →
  (∀ idx, idx ∈ cands → is_Some (seq !! idx)) →
  ∃ b, dfs_scan deeper seq min_gap max_gap win_size prev_idx first_t prev_t
         cands = Some b ∧
       (b = true ↔
        ∃ idx ev, idx ∈ cands ∧ (prev_idx < idx)%nat ∧ seq !! idx = Some ev ∧
                  min_gap ≤ ev.1 - prev_t ≤ max_gap ∧
                  (∀ w, win_size = Some w → ev.1 - first_t ≤ w) ∧
                  R idx ev.1).
Proof.
  intros Hdeeper. induction cands as [|idx cands IH]; intros Hrange.
  - exists false. split; [done|]. split; [done|].
    by intros (? & ? & ?%elem_of_nil & _).
  - destruct IH as (b & Hb & Hspec).
    { intros i Hi. apply Hrange. by right. }
    simpl. destruct (decide (idx ≤ prev_idx)%nat) as [Hle|Hlt].
    { exists b. split; [done|]. rewrite Hspec. split.
      - intros (i & ev & Hi & ?). exists i, ev. split; [by right|done].
      - intros (i & ev & [->|Hi]%elem_of_cons & ? & ?); [lia|].
        exists i, ev. done. }
    destruct (Hrange idx) as [ev Hev]; [left|]. rewrite Hev. simpl.
    destruct (gap_violated min_gap max_gap ev.1 prev_t) eqn:Hgap.
    { exists b. split; [done|]. rewrite Hspec. split.
      - intros (i & ev' & Hi & ?). exists i, ev'. split; [by right|done].
      - intros (i & ev' & [->|Hi]%elem_of_cons & ? & Hev' & Hg & ?).
        + rewrite Hev in Hev'. injection Hev' as <-.
          apply gap_violated_false in Hg. congruence.
        + exists i, ev'. done. }
    destruct (window_violated win_size ev.1 first_t) eqn:Hwin.
    { exists b. split; [done|]. rewrite Hspec. split.
      - intros (i & ev' & Hi & ?). exists i, ev'. split; [by right|done].
      - intros (i & ev' & [->|Hi]%elem_of_cons & ? & Hev' & ? & Hw & ?).
        + rewrite Hev in Hev'. injection Hev' as <-.
          apply window_violated_false in Hw. congruence.
        + exists i, ev'. done. }
    destruct (Hdeeper idx ev.1) as (r & Hr & HR). rewrite Hr. simpl.
    apply gap_violated_false in Hgap.
    destruct r.
    { exists true. split; [done|]. split; [|done]. intros _.
      exists idx, ev. split; [left|]. split; [lia|]. split; [done|].
      split; [done|]. split; [by apply window_violated_false|by apply HR]. }
    exists b. split; [done|]. rewrite Hspec. split.
    + intros (i & ev' & Hi & ?). exists i, ev'. split; [by right|done].
    + intros (i & ev' & [->|Hi]%elem_of_cons & ? & Hev' & ? & Hw & HRi).
      * rewrite Hev in Hev'. injection Hev' as <-. apply HR in HRi. done.
      * exists i, ev'. done.
Qed.

(** [dfs] decides the existence of a chain. *)
Lemma dfs_spec pat levels prev_idx first_t prev_t :
  Forall2 (λ iset m, m = matches iset seq) pat levels →
  ∃ b, dfs seq min_gap max_gap win_size levels prev_idx first_t prev_t = Some b ∧
       (b = true ↔
        ∃ idxs, chain seq min_gap max_gap win_size pat prev_idx first_t prev_t idxs).
Proof.
  intros Hlv. revert prev_idx prev_t.
  induction Hlv as [|iset m pat levels -> _ IH]; intros prev_idx prev_t.
  - exists true. split; [done|]. split; [|done]. intros _. by exists [].
  - simpl.
    destruct (dfs_scan_spec
      (λ idx t, dfs seq min_gap max_gap win_size levels idx first_t t)
      (λ idx t, ∃ idxs, chain seq min_gap max_gap win_size pat idx first_t t idxs)
      prev_idx first_t prev_t (matches iset seq)) as (b & Hb & Hspec).
    { intros idx t. apply IH. }
    { intros idx (ev & ? & _)%elem_of_matches. eauto. }
    exists b. split; [done|]. rewrite Hspec. split.
    + intros (idx & ev & Hin & ? & ? & ? & ? & idxs & ?).
      apply elem_of_matches in Hin as (ev' & ? & ?).
      assert (ev' = ev) as -> by congruence.
      exists (idx :: idxs). simpl. split; [done|]. exists ev. done.
    + intros ([|idx idxs] & Hch); [done|]. simpl in Hch.
      destruct Hch as (? & ev & ? & ? & ? & ? & ?).
      exists idx, ev. split; [apply elem_of_matches; by exists ev|].
      do 4 (split; [done|]). by exists idxs.
Qed.

(** The engine always answers, and it answers [True] exactly on the empty
    pattern and when the loop over [positions[0]] finds a start from
    which a chain exists. *)
Lemma contains_spec pat :
  ∃ b, contains_with_int_constraints seq pat min_gap max_gap win_size = Some b ∧
       (b = true ↔
        match pat with
        | [] => True
        | iset :: pat' =>
            ∃ i0 ev idxs, seq !! i0 = Some ev ∧ iset ⊆ ev.2 ∧
              chain seq min_gap max_gap win_size pat' i0 ev.1 ev.1 idxs
        end).
Proof.
  destruct pat as [|iset pat]; [by exists true|].
  unfold contains_with_int_constraints.
  destruct (build_positions seq (iset :: pat)) as [ps|] eqn:Hps.
  - apply build_positions_Some in Hps.
    inversion Hps as [|? m ? levels -> Hlv]; subst. simpl.
    assert (∀ starts, (∀ i, i ∈ starts → i ∈ matches iset seq) →
      ∃ b, start_loop seq min_gap max_gap win_size levels starts = Some b ∧
        (b = true ↔ ∃ i0 ev idxs, i0 ∈ starts ∧ seq !! i0 = Some ev ∧
           chain seq min_gap max_gap win_size pat i0 ev.1 ev.1 idxs)) as Hloop.
    { induction starts as [|i0 starts IH]; intros Hsub.
      - exists false. split; [done|]. split; [done|].
        by intros (? & ? & ? & ?%elem_of_nil & _).
      - destruct IH as (b & Hb & Hspec).
        { intros i Hi. apply Hsub. by right. }
        assert (hits seq iset i0) as (ev & Hev & _).
        { apply elem_of_matches, Hsub. left. }
        simpl. rewrite Hev. simpl.
        destruct (dfs_spec pat levels i0 ev.1 ev.1 Hlv) as (r & -> & Hr).
        simpl. destruct r.
        + exists true. split; [done|]. split; [|done]. intros _.
          destruct Hr as [(idxs & ?) _]; [done|].
          exists i0, ev, idxs. split; [left|done].
        + exists b. split; [done|]. rewrite Hspec. split.
          * intros (i & ev' & idxs & ? & ?). exists i, ev', idxs.
            split; [by right|done].
          * intros (i & ev' & idxs & [->|?]%elem_of_cons & Hev' & Hch).
            -- assert (ev' = ev) as -> by congruence.
               destruct Hr as [_ Hr]. discriminate Hr. by exists idxs.
            -- exists i, ev', idxs. done. }
    destruct (Hloop (matches iset seq)) as (b & Hb & Hspec); [done|].
    exists b. split; [done|]. rewrite Hspec. split.
    + intros (i0 & ev & idxs & (ev' & ? & ?)%elem_of_matches & ? & ?).
      assert (ev' = ev) as -> by congruence. exists i0, ev, idxs. done.
    + intros (i0 & ev & idxs & ? & ? & ?). exists i0, ev, idxs.
      split; [|done]. apply elem_of_matches. by exists ev.
  - exists false. split; [done|]. split; [done|].
    intros (i0 & ev & idxs & Hev & Hsub & Hch). exfalso.
    apply build_positions_None in Hps as (iset' & Hin & Hnone).
    assert (∀ i, ¬ hits seq iset' i) as Hno.
    { intros i Hi%elem_of_matches. rewrite Hnone in Hi. by apply elem_of_nil in Hi. }
    apply elem_of_cons in Hin as [->|Hin].
    { apply (Hno i0). by exists ev. }
    assert (∀ first_t prev_t i idxs',
      ¬ chain seq min_gap max_gap win_size pat i first_t prev_t idxs') as Hnc;
      [|by apply (Hnc _ _ _ _ Hch)].
    clear Hev Hsub Hch. induction pat as [|iset0 pat IH];
      intros first_t prev_t i idxs' Hch.
    { by apply elem_of_nil in Hin. }
    destruct idxs' as [|idx idxs']; [done|]. simpl in Hch.
    destruct Hch as (_ & ev' & ? & ? & _ & _ & Hch).
    apply elem_of_cons in Hin as [->|Hin].
    + apply (Hno idx). by exists ev'.
    + by apply (IH Hin first_t ev'.1 idx idxs').
Qed.
End containment.

(** ** Chains and occurrences *)

Section chains.
Context (seq : list (Z * gset string)) (min_gap max_gap : Z)
        (win_size : option Z).

Lemma time_at_Some i ev : seq !! i = Some ev → time_at seq i = Some ev.1.
Proof. unfold time_at. by intros ->. Qed.

(** A chain started after [prev], with [prev] put in front, has the
    properties of an occurrence; its last time stays within the window
    measured from [first_t]. *)
Lemma chain_occurrence pat prev ev first_t idxs iset :
  seq !! prev = Some ev → iset ⊆ ev.2 →
  chain seq min_gap max_gap win_size pat prev first_t ev.1 idxs →
  length (prev :: idxs) = length (iset :: pat)
  ∧ (∀ k i iset', (prev :: idxs) !! k = Some i → (iset :: pat) !! k = Some iset' →
       hits seq iset' i)
  ∧ (∀ k i j, (prev :: idxs) !! k = Some i → (prev :: idxs) !! S k = Some j →
       (i < j)%nat)
  ∧ (∀ k i j ti tj, (prev :: idxs) !! k = Some i → (prev :: idxs) !! S k = Some j →
       time_at seq i = Some ti → time_at seq j = Some tj →
       min_gap ≤ tj - ti ≤ max_gap)
  ∧ (∀ w j tj, win_size = Some w → last (prev :: idxs) = Some j →
       time_at seq j = Some tj → ev.1 - first_t ≤ w → tj - first_t ≤ w).
Proof.
  revert prev ev idxs iset.
  induction pat as [|iset2 pat IH]; intros prev ev idxs iset Hev Hsub Hch.
  - destruct idxs as [|? ?]; [|done]. split; [done|]. split.
    { intros [|k] i iset' [= <-] [= <-]. by exists ev. }
    split; [by intros [|k] i j|]. split; [by intros [|k] i j|].
    intros w j tj _ [= <-] Htj ?. rewrite (time_at_Some _ _ Hev) in Htj.
    by injection Htj as <-.
  - destruct idxs as [|idx idxs]; [done|]. simpl in Hch.
    destruct Hch as (Hlt & ev2 & Hev2 & Hsub2 & Hgap & Hwin & Hch).
    destruct (IH idx ev2 idxs iset2 Hev2 Hsub2 Hch)
      as (Hlen & Hhits & Hinc & Hgaps & Hlast).
    split; [simpl in *; congruence|]. split.
    { intros [|k] i iset'; [|by apply Hhits]. intros [= <-] [= <-]. by exists ev. }
    split.
    { intros [|k] i j; [|by apply Hinc]. by intros [= <-] [= <-]. }
    split.
    { intros [|k] i j ti tj; [|by apply Hgaps]. intros [= <-] [= <-] Hti Htj.
      rewrite (time_at_Some _ _ Hev) in Hti. rewrite (time_at_Some _ _ Hev2) in Htj.
      injection Hti as <-. by injection Htj as <-. }
    intros w j tj Hw Hj Htj _. apply (Hlast w j tj Hw); [done|done|].
    by apply Hwin.
Qed.

(** With a non-negative minimal gap the times along an occurrence do not
    decrease, so its last time is the largest. *)
Lemma last_time_ge prev ev idxs :
  0 ≤ min_gap → seq !! prev = Some ev →
  (∀ k i, idxs !! k = Some i → is_Some (seq !! i)) →
  (∀ k i j ti tj, (prev :: idxs) !! k = Some i → (prev :: idxs) !! S k = Some j →
     time_at seq i = Some ti → time_at seq j = Some tj →
     min_gap ≤ tj - ti ≤ max_gap) →
  ∃ j tj, last (prev :: idxs) = Some j ∧ time_at seq j = Some tj ∧ ev.1 ≤ tj.
Proof.
  intros Hmin. revert prev ev.
  induction idxs as [|idx idxs IH]; intros prev ev Hev Hrange Hgaps.
  - exists prev, ev.1. split; [done|]. split; [by apply time_at_Some|lia].
  - destruct (Hrange 0%nat idx eq_refl) as [ev2 Hev2].
    destruct (IH idx ev2 Hev2) as (j & tj & Hj & Htj & Hle).
    { intros k i Hk. by apply (Hrange (S k)). }
    { intros k i j. apply (Hgaps (S k)). }
    exists j, tj. split; [done|]. split; [done|].
    pose proof (Hgaps 0%nat prev idx ev.1 ev2.1 eq_refl eq_refl
                  (time_at_Some _ _ Hev) (time_at_Some _ _ Hev2)).
    lia.
Qed.

(** Conversely an occurrence, split into its first position and the rest,
    is a chain: the window test on an intermediate time follows from the
    one on the last time. *)
Lemma occurrence_chain pat prev ev first_t idxs iset :
  0 ≤ min_gap → seq !! prev = Some ev →
  length (prev :: idxs) = length (iset :: pat) →
  (∀ k i iset', (prev :: idxs) !! k = Some i → (iset :: pat) !! k = Some iset' →
     hits seq iset' i) →
  (∀ k i j, (prev :: idxs) !! k = Some i → (prev :: idxs) !! S k = Some j →
     (i < j)%nat) →
  (∀ k i j ti tj, (prev :: idxs) !! k = Some i → (prev :: idxs) !! S k = Some j →
     time_at seq i = Some ti → time_at seq j = Some tj →
     min_gap ≤ tj - ti ≤ max_gap) →
  (∀ w j tj, win_size = Some w → last (prev :: idxs) = Some j →
     time_at seq j = Some tj → tj - first_t ≤ w) →
  chain seq min_gap max_gap win_size pat prev first_t ev.1 idxs.
Proof.
  intros Hmin. revert prev ev idxs iset.
  induction pat as [|iset2 pat IH];
    intros prev ev idxs iset Hev Hlen Hhits Hinc Hgaps Hlast.
  - by destruct idxs.
  - destruct idxs as [|idx idxs]; [done|]. simpl.
    split; [by apply (Hinc 0%nat)|].
    destruct (Hhits 1%nat idx iset2 eq_refl eq_refl) as (ev2 & Hev2 & Hsub2).
    exists ev2. split; [done|]. split; [done|]. split.
    { apply (Hgaps 0%nat prev idx); try done; by apply time_at_Some. }
    split.
    { intros w Hw.
      destruct (last_time_ge idx ev2 idxs Hmin Hev2) as (j & tj & Hj & Htj & Hle).
      - intros k i Hk.
        destruct (lookup_lt_is_Some_2 pat k) as [iset' Hiset'].
        { apply lookup_lt_Some in Hk. simpl in Hlen. lia. }
        destruct (Hhits (S (S k)) i iset') as (ev' & ? & _); eauto.
      - intros k i j. apply (Hgaps (S k)).
      - pose proof (Hlast w j tj Hw Hj Htj). lia. }
    apply (IH idx ev2 idxs iset2); try done.
    + simpl in *. lia.
    + intros k i iset'. apply (Hhits (S k)).
    + intros k i j. apply (Hinc (S k)).
    + intros k i j. apply (Hgaps (S k)).
Qed.
End chains.

(** C1.  With a non-negative minimal gap and a non-negative window size
    (when one is configured), the containment engine answers, and its
    answer is [True] exactly when the window has an occurrence of the
    pattern: strictly increasing positions, one per itemset, each itemset
    included in the event at its position, every consecutive gap between
    [min_gap] and [max_gap] inclusive, and the span from the first to the
    last position at most [win_size].  The empty pattern is contained in
    every window.  (Neither the strict increase of the times of the window
    nor [min_gap <= max_gap] is needed.) *)
Theorem contains_iff_occurrence (seq : list (Z * gset string))
    (pat : list (gset string)) (min_gap max_gap : Z) (win_size : option Z) :
  0 ≤ min_gap →
  (∀ w, win_size = Some w → 0 ≤ w) →
  (∃ b, contains_with_int_constraints seq pat min_gap max_gap win_size = Some b ∧
        (b = true ↔ ∃ idxs, occurrence seq min_gap max_gap win_size pat idxs))
  ∧ contains_with_int_constraints seq [] min_gap max_gap win_size = Some true.
Proof.
  intros Hmin Hwin. split; [|done].
  destruct (contains_spec seq min_gap max_gap win_size pat) as (b & Hb & Hspec).
  exists b. split; [done|]. rewrite Hspec. clear b Hb Hspec.
  destruct pat as [|iset pat].
  - split; [|done]. intros _. exists []. split; [done|].
    split; [by intros k i iset|]. split; [by intros k i j|].
    split; [by intros k i j|]. by intros w i j.
  - split.
    + intros (i0 & ev & idxs & Hev & Hsub & Hch).
      destruct (chain_occurrence seq min_gap max_gap win_size pat i0 ev ev.1
                  idxs iset Hev Hsub Hch) as (Hlen & Hhits & Hinc & Hgaps & Hlast).
      exists (i0 :: idxs). split; [done|]. split; [done|]. split; [done|].
      split; [done|]. intros w i j ti tj Hw [= <-] Hj Hti Htj.
      rewrite (time_at_Some _ _ _ Hev) in Hti. injection Hti as <-.
      apply (Hlast w j tj Hw Hj Htj). specialize (Hwin w Hw). lia.
    + intros (idxs0 & Hlen & Hhits & Hinc & Hgaps & Hspan).
      destruct idxs0 as [|i0 idxs]; [done|].
      destruct (Hhits 0%nat i0 iset eq_refl eq_refl) as (ev & Hev & Hsub).
      exists i0, ev, idxs. split; [done|]. split; [done|].
      apply (occurrence_chain seq min_gap max_gap win_size pat i0 ev ev.1 idxs iset);
        try done.
      intros w j tj Hw Hj Htj.
      apply (Hspan w i0 j ev.1 tj Hw eq_refl Hj); [|done].
      by apply time_at_Some.
Qed.

Lemma contains_iff_occurrence_witness :
  (∃ b, contains_with_int_constraints scenario_window [{["A_1"]}; {["B_0"]}]
          0 5 (Some 2) = Some b ∧
        (b = true ↔ ∃ idxs, occurrence scenario_window 0 5 (Some 2)
                              [{["A_1"]}; {["B_0"]}] idxs))
  ∧ contains_with_int_constraints scenario_window [] 0 5 (Some 2) = Some true.
Proof.
  apply contains_iff_occurrence; [lia|]. intros w [= <-]. lia.
Defined.

Example scenario_contains :
  contains_with_int_constraints scenario_window [{["A_1"]}] 0 5 None = Some true
  ∧ contains_with_int_constraints scenario_window [{["A_1"]}; {["B_0"]}] 0 5 None
    = Some true
  ∧ contains_with_int_constraints scenario_window [{["B_0"]}; {["A_1"]}] 0 5 None
    = Some false.
Proof. by vm_compute. Qed.

(** The boundaries of the gap and of the window are inclusive. *)
Example gap_boundaries :
  let w : list (Z * gset string) := [(0, {["A"]}); (3, {["B"]})] in
  let p : list (gset string) := [{["A"]}; {["B"]}] in
  contains_with_int_constraints w p 3 5 None = Some true
  ∧ contains_with_int_constraints w p 1 3 None = Some true
  ∧ contains_with_int_constraints w p 4 5 None = Some false
  ∧ contains_with_int_constraints w p 1 2 None = Some false
  ∧ contains_with_int_constraints w p 0 5 (Some 3) = Some true
  ∧ contains_with_int_constraints w p 0 5 (Some 2) = Some false.
Proof. by vm_compute. Qed.

(** * The support counter *)

Lemma occurrences_nil p : occurrences p [] = 0.
Proof. done. Qed.

Lemma occurrences_cons p q pats :
  occurrences p (q :: pats) = (if decide (q = p) then 1 else 0) + occurrences p pats.
Proof.
  unfold occurrences. simpl. destruct (decide (q = p)) as [->|Hne].
  - rewrite bool_decide_eq_true_2 by done. simpl. lia.
  - rewrite bool_decide_eq_false_2 by done. lia.
Qed.

Lemma occurrences_app p l1 l2 :
  occurrences p (l1 ++ l2) = occurrences p l1 + occurrences p l2.
Proof.
  induction l1 as [|q l1 IH]; simpl; [by rewrite occurrences_nil|].
  rewrite !occurrences_cons, IH. lia.
Qed.

Lemma occurrences_nonneg p pats : 0 ≤ occurrences p pats.
Proof. unfold occurrences. lia. Qed.

Lemma occurrences_not_elem p pats : p ∉ pats → occurrences p pats = 0.
Proof.
  induction pats as [|q pats IH]; [done|].
  intros [? ?]%not_elem_of_cons. rewrite occurrences_cons, IH by done.
  by rewrite decide_False.
Qed.

Lemma occurrences_NoDup p pats : NoDup pats → p ∈ pats → occurrences p pats = 1.
Proof.
  induction 1 as [|q pats Hq Hnd IH]; [by intros ?%elem_of_nil|].
  rewrite occurrences_cons. intros [->|Hin]%elem_of_cons.
  - rewrite decide_True by done. by rewrite occurrences_not_elem.
  - rewrite decide_False by (intros ->; done). by rewrite IH.
Qed.

Section support.
Context (min_gap max_gap : Z) (win_size : option Z).

Local Notation "'hit'" := (contained min_gap max_gap win_size).
Local Notation "'contains' seq p" :=
  (contains_with_int_constraints seq p min_gap max_gap win_size)
  (at level 10, seq at level 9, p at level 9).

Lemma contains_total seq p : ∃ b, contains seq p = Some b.
Proof.
  destruct (contains_spec seq min_gap max_gap win_size p) as (b & ? & _). eauto.
Qed.

Lemma contained_true seq p : hit p seq = true ↔ contains seq p = Some true.
Proof. apply bool_decide_eq_true. Qed.

(** A window that contains a pattern has an event above its first
    itemset: skipping on [any_superset] loses no match. *)
Lemma contained_first seq first p :
  hit (first :: p) seq = true → any_superset first seq = true.
Proof.
  rewrite contained_true. intros Hc.
  destruct (contains_spec seq min_gap max_gap win_size (first :: p))
    as (b & Hb & Hspec).
  assert (b = true) as -> by congruence.
  destruct Hspec as [(i0 & ev & _ & Hev & Hsub & _) _]; [done|].
  unfold any_superset. apply existsb_exists. exists ev. split.
  - apply list_elem_of_In. by eapply list_elem_of_lookup_2.
  - by apply bool_decide_eq_true.
Qed.

(** The patterns under one key: each contained one adds one to its own
    entry. *)
Lemma count_pats_spec seq ps sup :
  (∀ p, p ∈ ps → p ∈ PyDict.keys sup) →
  ∃ sup', count_pats seq min_gap max_gap win_size ps sup = Some sup' ∧
    PyDict.keys sup' = PyDict.keys sup ∧
    ∀ q c, PyDict.get q sup = Some c →
      PyDict.get q sup' =
      Some (c + (if hit q seq then occurrences q ps else 0)).
Proof.
  revert sup. induction ps as [|p ps IH]; intros sup Hkeys.
  - exists sup. split; [done|]. split; [done|]. intros q c ->.
    rewrite occurrences_nil. f_equal. destruct (hit q seq); lia.
  - assert (p ∈ PyDict.keys sup) as Hp by (apply Hkeys; left).
    simpl. destruct (contains_total seq p) as [b Hb]. rewrite Hb. simpl.
    destruct b.
    + destruct (proj2 (get_Some_keys sup p) Hp) as [cp Hcp]. rewrite Hcp. simpl.
      destruct (IH (PyDict.set p (cp + 1) sup)) as (sup' & Hrun & Hk & Hget).
      { intros p' Hp'. apply elem_of_keys_set. right. apply Hkeys. by right. }
      exists sup'. split; [done|]. split; [by rewrite Hk, keys_set_present|].
      intros q c Hq. rewrite occurrences_cons.
      destruct (decide (p = q)) as [->|Hne].
      * rewrite (Hget q (cp + 1)) by apply get_set_eq.
        assert (hit q seq = true) as -> by by apply contained_true.
        apply (f_equal Some).
        assert (c = cp) by congruence. subst.
        lia.
      * by rewrite (Hget q c) by by rewrite get_set_ne.
    + destruct (IH sup) as (sup' & Hrun & Hk & Hget).
      { intros p' Hp'. apply Hkeys. by right. }
      exists sup'. split; [done|]. split; [done|].
      intros q c Hq. rewrite (Hget q c Hq), occurrences_cons. apply (f_equal Some).
      destruct (decide (p = q)) as [->|Hne]; [|destruct (hit q seq); lia].
      assert (hit q seq = false) as ->; [|lia].
      apply not_true_is_false. rewrite contained_true. congruence.
Qed.

(** One window: every registered pattern it contains adds one to its
    entry per registration. *)
Lemma count_keys_spec seq index sup :
  keyed index →
  (∀ p, p ∈ registered index → p ∈ PyDict.keys sup) →
  ∃ sup', count_keys seq min_gap max_gap win_size index sup = Some sup' ∧
    PyDict.keys sup' = PyDict.keys sup ∧
    ∀ q c, PyDict.get q sup = Some c →
      PyDict.get q sup' =
      Some (c + (if hit q seq then occurrences q (registered index) else 0)).
Proof.
  revert sup. induction index as [|[k ps] index IH]; intros sup Hkeyed Hkeys.
  - exists sup. split; [done|]. split; [done|]. intros q c ->.
    unfold registered. simpl. rewrite occurrences_nil. apply (f_equal Some).
    destruct (hit q seq); lia.
  - assert (keyed index) as Hkeyed'.
    { intros k' ps' p' ? ?. apply (Hkeyed k' ps' p'); [by right|done]. }
    assert (registered ((k, ps) :: index) = ps ++ registered index) as Hreg by done.
    rewrite Hreg in *. simpl.
    destruct (any_superset k seq) eqn:Hany; simpl.
    + destruct (count_pats_spec seq ps sup) as (sup1 & -> & Hk1 & Hget1).
      { intros p Hp. apply Hkeys, elem_of_app. by left. }
      simpl. destruct (IH sup1 Hkeyed') as (sup' & Hrun & Hk & Hget).
      { intros p Hp. rewrite Hk1. apply Hkeys, elem_of_app. by right. }
      exists sup'. split; [done|]. split; [congruence|].
      intros q c Hq. rewrite (Hget q _ (Hget1 q c Hq)), occurrences_app. apply (f_equal Some).
      destruct (hit q seq); lia.
    + destruct (IH sup Hkeyed') as (sup' & Hrun & Hk & Hget).
      { intros p Hp. apply Hkeys, elem_of_app. by right. }
      exists sup'. split; [done|]. split; [done|].
      intros q c Hq. rewrite (Hget q c Hq), occurrences_app. apply (f_equal Some).
      destruct (hit q seq) eqn:Hc; [|done].
      rewrite (occurrences_not_elem q ps); [lia|]. intros Hin.
      pose proof (Hkeyed k ps q (list_elem_of_here _ _) Hin) as Hhead.
      destruct q as [|first q]; [done|]. injection Hhead as ->.
      apply contained_first in Hc. congruence.
Qed.

(** The whole database. *)
Lemma count_windows_spec DB index sup :
  keyed index →
  (∀ p, p ∈ registered index → p ∈ PyDict.keys sup) →
  ∃ sup', count_windows DB min_gap max_gap win_size index sup = Some sup' ∧
    PyDict.keys sup' = PyDict.keys sup ∧
    ∀ q c, PyDict.get q sup = Some c →
      PyDict.get q sup' =
      Some (c + occurrences q (registered index)
                * windows_containing DB min_gap max_gap win_size q).
Proof.
  intros Hkeyed. revert sup. induction DB as [|seq DB IH]; intros sup Hkeys.
  - exists sup. split; [done|]. split; [done|]. intros q c ->. apply (f_equal Some).
    unfold windows_containing. simpl. lia.
  - simpl. destruct (count_keys_spec seq index sup Hkeyed Hkeys)
      as (sup1 & -> & Hk1 & Hget1). simpl.
    destruct (IH sup1) as (sup' & Hrun & Hk & Hget).
    { intros p Hp. rewrite Hk1. by apply Hkeys. }
    exists sup'. split; [done|]. split; [congruence|].
    intros q c Hq. rewrite (Hget q _ (Hget1 q c Hq)). apply (f_equal Some).
    unfold windows_containing. simpl.
    destruct (hit q seq); simpl; lia.
Qed.
End support.

(** ** The first-itemset index and the initial map *)

Lemma build_snoc pats p : build (pats ++ [p]) = insert (build pats) p.
Proof. unfold build. by rewrite foldl_snoc. Qed.

Lemma setdefault_append_get k p d k' :
  PyDict.get k' (setdefault_append k p d) =
  if decide (k = k') then Some (default [] (PyDict.get k d) ++ [p])
  else PyDict.get k' d.
Proof.
  unfold setdefault_append. destruct (decide (k = k')) as [<-|Hne].
  - destruct (PyDict.get k d); simpl; by rewrite get_set_eq.
  - destruct (PyDict.get k d); simpl; by rewrite get_set_ne.
Qed.

(** The entry of a key lists, in input order, the input patterns whose
    first itemset is that key. *)
Lemma first_index_get pats k :
  default [] (PyDict.get k (first_index (build pats))) =
  List.filter (λ q, bool_decide (head q = Some k)) pats.
Proof.
  induction pats as [|p pats IH] using rev_ind; [done|].
  rewrite build_snoc, List.filter_app. simpl.
  destruct p as [|first p]; simpl.
  - by rewrite app_nil_r.
  - rewrite setdefault_append_get. destruct (decide (first = k)) as [->|Hne].
    + rewrite bool_decide_eq_true_2 by done. simpl. by rewrite IH.
    + rewrite bool_decide_eq_false_2 by congruence. by rewrite app_nil_r.
Qed.

Lemma occurrences_under_first first p pats :
  occurrences (first :: p)
    (List.filter (λ q, bool_decide (head q = Some first)) pats)
  = occurrences (first :: p) pats.
Proof.
  induction pats as [|q pats IH]; [done|]. simpl.
  destruct (bool_decide (head q = Some first)) eqn:Hq.
  - by rewrite !occurrences_cons, IH.
  - rewrite occurrences_cons, IH, decide_False; [done|].
    intros ->. by rewrite bool_decide_eq_true_2 in Hq.
Qed.

Lemma setdefault_append_cons k p k0 ps0 d :
  setdefault_append k p ((k0, ps0) :: d) =
  if decide (k0 = k) then (k0, ps0 ++ [p]) :: d
  else (k0, ps0) :: setdefault_append k p d.
Proof.
  unfold setdefault_append. simpl. destruct (decide (k0 = k)) as [->|Hne]; simpl.
  - by rewrite ?decide_True.
  - destruct (PyDict.get k d); simpl; by rewrite ?decide_False.
Qed.

Lemma registered_setdefault_append k p d :
  registered (setdefault_append k p d) ≡ₚ p :: registered d.
Proof.
  unfold registered. induction d as [|[k0 ps0] d IH]; [done|].
  rewrite setdefault_append_cons. destruct (decide (k0 = k)) as [->|Hne]; simpl.
  - rewrite <- app_assoc. simpl. by rewrite <- Permutation_middle.
  - rewrite IH. by rewrite <- Permutation_middle.
Qed.

Lemma keyed_setdefault_append k p d :
  keyed d → head p = Some k → keyed (setdefault_append k p d).
Proof.
  intros Hkeyed Hp. induction d as [|[k0 ps0] d IH].
  - intros k' ps' p' Hin Hp'. unfold setdefault_append in Hin. simpl in Hin.
    apply list_elem_of_singleton in Hin. injection Hin as -> ->.
    by apply list_elem_of_singleton in Hp' as ->.
  - assert (keyed d) as Hd.
    { intros k' ps' p' ? ?. apply (Hkeyed k' ps' p'); [by right|done]. }
    rewrite setdefault_append_cons. destruct (decide (k0 = k)) as [->|Hne].
    + intros k' ps' p' [[= -> ->]|Hin]%elem_of_cons Hp'.
      * apply elem_of_app in Hp' as [Hp'| ->%list_elem_of_singleton]; [|done].
        apply (Hkeyed k ps0 p'); [left|done].
      * apply (Hkeyed k' ps' p'); [by right|done].
    + intros k' ps' p' [[= -> ->]|Hin]%elem_of_cons Hp'.
      * apply (Hkeyed k0 ps0 p'); [left|done].
      * by apply (IH Hd k' ps' p').
Qed.

Lemma registered_elem p index :
  p ∈ registered index → ∃ k ps, (k, ps) ∈ index ∧ p ∈ ps.
Proof.
  unfold registered. rewrite list_elem_of_In, in_concat.
  intros (ps & Hps & Hp).
  apply list_elem_of_In, list_elem_of_fmap in Hps as ([k ps'] & -> & Hin).
  exists k, ps'. split; [done|]. by apply list_elem_of_In.
Qed.

Lemma occurrences_Permutation p l1 l2 :
  l1 ≡ₚ l2 → occurrences p l1 = occurrences p l2.
Proof.
  induction 1 as [|q l1 l2 _ IH|q1 q2 l|l1 l2 l3 _ IH1 _ IH2];
    rewrite ?occurrences_cons; lia.
Qed.

(** The index of [build]: keyed by first itemsets, and holding every
    non-empty input pattern as many times as the input does. *)
Lemma build_index pats :
  keyed (first_index (build pats))
  ∧ (∀ p, p ∈ registered (first_index (build pats)) → p ∈ pats)
  ∧ (∀ p, p ≠ [] →
       occurrences p (registered (first_index (build pats))) = occurrences p pats).
Proof.
  induction pats as [|q pats (Hkeyed & Hin & Hocc)] using rev_ind.
  - split; [by intros k ps p ?%elem_of_nil|]. split; [|done].
    by intros p ?%elem_of_nil.
  - rewrite build_snoc. destruct q as [|first q]; simpl.
    + split; [done|]. split.
      * intros p Hp. apply elem_of_app. left. by apply Hin.
      * intros p Hne. rewrite occurrences_app, occurrences_cons, decide_False by done.
        rewrite Hocc by done. rewrite occurrences_nil. lia.
    + pose proof (registered_setdefault_append first (first :: q)
                    (first_index (build pats))) as Hperm.
      split; [by apply keyed_setdefault_append|]. split.
      * intros p Hp. rewrite Hperm in Hp. apply elem_of_app.
        apply elem_of_cons in Hp as [->|Hp]; [right; left|left; by apply Hin].
      * intros p Hne. rewrite (occurrences_Permutation _ _ _ Hperm).
        rewrite occurrences_app, !occurrences_cons, occurrences_nil.
        rewrite Hocc by done. lia.
Qed.

Lemma zero_map_snoc pats p : zero_map (pats ++ [p]) = PyDict.set p 0 (zero_map pats).
Proof. unfold zero_map. by rewrite foldl_snoc. Qed.

(** The initial map: one entry per distinct input pattern, all zero. *)
Lemma zero_map_spec pats :
  NoDup (PyDict.keys (zero_map pats))
  ∧ (∀ p, p ∈ PyDict.keys (zero_map pats) ↔ p ∈ pats)
  ∧ (∀ p, p ∈ pats → PyDict.get p (zero_map pats) = Some 0).
Proof.
  induction pats as [|q pats (Hnd & Hkeys & Hget)] using rev_ind.
  - split; [constructor|]. split; [done|]. by intros p ?%elem_of_nil.
  - rewrite zero_map_snoc. split; [by apply NoDup_keys_set|]. split.
    + intros p. rewrite elem_of_keys_set, elem_of_app, list_elem_of_singleton, Hkeys.
      tauto.
    + intros p Hp. destruct (decide (q = p)) as [->|Hne].
      * apply get_set_eq.
      * rewrite get_set_ne by done. apply Hget.
        apply elem_of_app in Hp as [?| ->%list_elem_of_singleton]; done.
Qed.

(** The support counter on an arbitrary batch: it always returns, its map
    has one entry per distinct input pattern, and the count of a non-empty
    pattern is the number of windows containing it, multiplied by the
    number of times the pattern stands in the batch; an empty pattern
    keeps the count zero. *)
Lemma count_support_spec DB pats min_gap max_gap win_size :
  ∃ sup, count_support_db_int DB pats min_gap max_gap win_size = Some sup ∧
    NoDup (PyDict.keys sup) ∧
    (∀ p, p ∈ PyDict.keys sup ↔ p ∈ pats) ∧
    (∀ p, p ∈ pats →
       PyDict.get p sup =
       Some (if decide (p = []) then 0
             else occurrences p pats
                  * windows_containing DB min_gap max_gap win_size p)).
Proof.
  destruct (build_index pats) as (Hkeyed & Hin & Hocc).
  destruct (zero_map_spec pats) as (Hnd & Hkeys & Hget).
  destruct (count_windows_spec min_gap max_gap win_size DB
              (first_index (build pats)) (zero_map pats) Hkeyed)
    as (sup & Hrun & Hk & Hsup).
  { intros p Hp. by apply Hkeys, Hin. }
  exists sup. split; [done|]. rewrite Hk. split; [done|]. split; [done|].
  intros p Hp. rewrite (Hsup p 0 (Hget p Hp)). apply (f_equal Some).
  destruct (decide (p = [])) as [->|Hne].
  - rewrite occurrences_not_elem; [lia|]. intros Hreg.
    apply registered_elem in Hreg as (k & ps & Hk' & Hps).
    by pose proof (Hkeyed k ps [] Hk' Hps).
  - rewrite Hocc by done. lia.
Qed.

(** C2.  On a batch of distinct non-empty patterns the support counter
    returns a map with exactly one entry per input pattern, and the count
    of every input pattern is the number of windows of the database on
    which the containment engine answers [True] for it: skipping the
    windows that have no event above the first itemset changes no
    count. *)
Theorem count_support_counts_windows (DB : list (list (Z * gset string)))
    (pats : list (list (gset string))) (min_gap max_gap : Z)
    (win_size : option Z) :
  NoDup pats → [] ∉ pats →
  ∃ sup, count_support_db_int DB pats min_gap max_gap win_size = Some sup ∧
    NoDup (PyDict.keys sup) ∧
    (∀ p, p ∈ PyDict.keys sup ↔ p ∈ pats) ∧
    (∀ p, p ∈ pats →
       PyDict.get p sup =
       Some (windows_containing DB min_gap max_gap win_size p)).
Proof.
  intros Hnd Hne.
  destruct (count_support_spec DB pats min_gap max_gap win_size)
    as (sup & Hrun & Hk & Hkeys & Hget).
  exists sup. split; [done|]. split; [done|]. split; [done|].
  intros p Hp. rewrite (Hget p Hp), decide_False by (intros ->; done).
  rewrite occurrences_NoDup by done. apply (f_equal Some). lia.
Qed.

Lemma count_support_counts_windows_witness :
  ∃ sup, count_support_db_int [scenario_window] scenario_patterns 0 5 None
         = Some sup ∧
    NoDup (PyDict.keys sup) ∧
    (∀ p, p ∈ PyDict.keys sup ↔ p ∈ scenario_patterns) ∧
    (∀ p, p ∈ scenario_patterns →
       PyDict.get p sup = Some (windows_containing [scenario_window] 0 5 None p)).
Proof.
  apply count_support_counts_windows.
  - apply (bool_decide_unpack (NoDup scenario_patterns)). by vm_compute.
  - apply (bool_decide_unpack ([] ∉ scenario_patterns)). by vm_compute.
Defined.

Example scenario_support :
  (λ sup, sup.*2) <$> count_support_db_int [scenario_window] scenario_patterns 0 5 None
  = Some [1; 0; 1].
Proof. by vm_compute. Qed.

(** C10.  A pattern with first itemset [first] that stands [n >= 2] times
    in the batch is registered [n] times under the key [first] of the
    first-itemset index, and its returned count is [n] times the number of
    windows containing it. *)
Theorem count_support_duplicates (DB : list (list (Z * gset string)))
    (pats : list (list (gset string))) (first : gset string)
    (rest : list (gset string)) (min_gap max_gap : Z) (win_size : option Z) :
  2 ≤ occurrences (first :: rest) pats →
  (∃ ps, PyDict.get first (first_index (build pats)) = Some ps ∧
         occurrences (first :: rest) ps = occurrences (first :: rest) pats)
  ∧ ∃ sup, count_support_db_int DB pats min_gap max_gap win_size = Some sup ∧
      PyDict.get (first :: rest) sup =
      Some (occurrences (first :: rest) pats
            * windows_containing DB min_gap max_gap win_size (first :: rest)).
Proof.
  intros Hn.
  assert (first :: rest ∈ pats) as Hin.
  { destruct (decide (first :: rest ∈ pats)) as [?|Hnot]; [done|].
    rewrite occurrences_not_elem in Hn by done. lia. }
  split.
  - pose proof (first_index_get pats first) as Hget.
    pose proof (occurrences_under_first first rest pats) as Hocc.
    rewrite <- Hget in Hocc.
    destruct (PyDict.get first (first_index (build pats))) as [ps|].
    + by exists ps.
    + simpl in Hocc. rewrite occurrences_nil in Hocc. lia.
  - destruct (count_support_spec DB pats min_gap max_gap win_size)
      as (sup & Hrun & _ & _ & Hget).
    exists sup. split; [done|]. by rewrite (Hget _ Hin).
Qed.

Lemma count_support_duplicates_witness :
  let p : list (gset string) := [{["A_1"]}; {["B_0"]}] in
  let pats := [p; [{["B_0"]}]; p; p] in
  (∃ ps, PyDict.get {["A_1"]} (first_index (build pats)) = Some ps ∧
         occurrences p ps = occurrences p pats)
  ∧ ∃ sup, count_support_db_int [scenario_window; scenario_window] pats 0 5 None
           = Some sup ∧
      PyDict.get p sup =
      Some (occurrences p pats
            * windows_containing [scenario_window; scenario_window] 0 5 None p).
Proof.
  apply count_support_duplicates. by vm_compute.
Defined.

Example duplicates_counted :
  let p : list (gset string) := [{["A_1"]}; {["B_0"]}] in
  (λ sup, sup.*2) <$> count_support_db_int [scenario_window; scenario_window]
             [p; [{["B_0"]}]; p; p] 0 5 None
  = Some [6; 2].
Proof. by vm_compute. Qed.

(** * The candidate pruner *)

Section prune.
Context (F : gset (list (gset string))).

Lemma prune_A_spec c i rest :
  prune_A c F i rest = true ↔
  ∀ j iset, rest !! j = Some iset → size iset = 1%nat →
    take (i + j) c ++ drop (S (i + j)) c ∈ F.
Proof.
  revert i. induction rest as [|iset rest IH]; intros i; simpl.
  - split; [|done]. by intros _ j iset.
  - assert ((∀ j iset', rest !! j = Some iset' → size iset' = 1%nat →
              take (S i + j) c ++ drop (S (S i + j)) c ∈ F) ↔
            (∀ j iset', rest !! j = Some iset' → size iset' = 1%nat →
              take (i + S j) c ++ drop (S (i + S j)) c ∈ F)) as Hshift.
    { split; intros H j iset' ? ?; specialize (H j iset');
        replace (i + S j)%nat with (S i + j)%nat in * by lia; auto. }
    destruct (decide (size iset = 1%nat)) as [Hone|Hone].
    + destruct (decide (take i c ++ drop (S i) c ∈ F)) as [Hin|Hin].
      * rewrite IH, Hshift. split.
        -- intros H [|j] iset' Hj Hs; [|by apply (H j iset')].
           by rewrite Nat.add_0_r.
        -- intros H j iset' Hj Hs. by apply (H (S j) iset').
      * split; [done|]. intros H. exfalso. apply Hin.
        specialize (H 0%nat iset eq_refl Hone). by rewrite Nat.add_0_r in H.
    + rewrite IH, Hshift. split.
      * intros H [|j] iset' Hj Hs; [|by apply (H j iset')].
        injection Hj as <-. done.
      * intros H j iset' Hj Hs. by apply (H (S j) iset').
Qed.

Lemma prune_B_items_spec c i iset xs :
  prune_B_items c F i iset xs = true ↔
  ∀ x, x ∈ xs → take i c ++ [iset ∖ {[x]}] ++ drop (S i) c ∈ F.
Proof.
  induction xs as [|x xs IH]; simpl.
  - split; [|done]. by intros _ x ?%elem_of_nil.
  - destruct (decide (take i c ++ iset ∖ {[x]} :: drop (S i) c ∈ F)) as [Hin|Hin].
    + rewrite IH. split.
      * intros H y [->|Hy]%elem_of_cons; [done|by apply H].
      * intros H y Hy. apply H. by right.
    + split; [done|]. intros H. exfalso. apply Hin, H. left.
Qed.

Lemma prune_B_spec c i rest :
  prune_B c F i rest = true ↔
  ∀ j iset x, rest !! j = Some iset → (1 < size iset)%nat → x ∈ iset →
    take (i + j) c ++ [iset ∖ {[x]}] ++ drop (S (i + j)) c ∈ F.
Proof.
  revert i. induction rest as [|iset rest IH]; intros i; simpl.
  - split; [|done]. by intros _ j iset.
  - assert ((∀ j iset' x, rest !! j = Some iset' → (1 < size iset')%nat → x ∈ iset' →
              take (S i + j) c ++ [iset' ∖ {[x]}] ++ drop (S (S i + j)) c ∈ F) ↔
            (∀ j iset' x, rest !! j = Some iset' → (1 < size iset')%nat → x ∈ iset' →
              take (i + S j) c ++ [iset' ∖ {[x]}] ++ drop (S (i + S j)) c ∈ F))
      as Hshift.
    { split; intros H j iset' x ? ? ?; specialize (H j iset' x);
        replace (i + S j)%nat with (S i + j)%nat in * by lia; auto. }
    destruct (decide (size iset ≤ 1)%nat) as [Hle|Hgt].
    + rewrite IH, Hshift. split.
      * intros H [|j] iset' x Hj Hs Hx; [|by apply (H j iset' x)].
        injection Hj as <-. lia.
      * intros H j iset' x Hj Hs Hx. by apply (H (S j) iset' x).
    + destruct (prune_B_items c F i iset (elements iset)) eqn:Hitems.
      * rewrite prune_B_items_spec in Hitems. rewrite IH, Hshift. split.
        -- intros H [|j] iset' x Hj Hs Hx; [|by apply (H j iset' x)].
           injection Hj as <-. rewrite Nat.add_0_r. apply Hitems.
           by apply elem_of_elements.
        -- intros H j iset' x Hj Hs Hx. by apply (H (S j) iset' x).
      * split; [done|]. intros H. rewrite <- Hitems. apply prune_B_items_spec.
        intros x Hx%elem_of_elements.
        specialize (H 0%nat iset x eq_refl ltac:(lia) Hx).
        by rewrite Nat.add_0_r in H.
Qed.

(** The two loops on a candidate, as the rules of the specification. *)
Lemma prune_A_rule c : prune_A c F 0 c = true ↔ rule_A c F.
Proof.
  rewrite prune_A_spec. unfold rule_A.
  split; intros H i iset Hi Hs; specialize (H i iset Hi Hs); simpl in *;
    by rewrite delete_take_drop in *.
Qed.

Lemma prune_B_rule c : prune_B c F 0 c = true ↔ rule_B c F.
Proof.
  rewrite prune_B_spec. unfold rule_B.
  split; intros H i iset x Hi Hs Hx; specialize (H i iset x Hi Hs Hx); simpl in *;
    rewrite insert_take_drop in * by (by eapply lookup_lt_Some); done.
Qed.

Lemma prune_loop_filter Ck pruned :
  prune_loop Ck F pruned =
  pruned ++ List.filter (λ c, prune_A c F 0 c && prune_B c F 0 c) Ck.
Proof.
  revert pruned. induction Ck as [|c Ck IH]; intros pruned; simpl.
  - by rewrite app_nil_r.
  - destruct (prune_A c F 0 c); simpl; [|by apply IH].
    destruct (prune_B c F 0 c); simpl; [|by apply IH].
    by rewrite IH, <- app_assoc.
Qed.
End prune.

(** C5.  The pruner keeps exactly the candidates that pass rule A and
    rule B against the previous frequent set, in the order and with the
    multiplicity they have in the input: its result is the input filtered
    by a test that holds exactly when both rules do. *)
Theorem prune_step_filters (Ck : list (list (gset string)))
    (F_prev : gset (list (gset string))) :
  ∃ keep : list (gset string) → bool,
    (∀ c, keep c = true ↔ rule_A c F_prev ∧ rule_B c F_prev) ∧
    prune_step Ck F_prev = List.filter keep Ck.
Proof.
  exists (λ c, prune_A c F_prev 0 c && prune_B c F_prev 0 c). split.
  - intros c. by rewrite andb_true_iff, prune_A_rule, prune_B_rule.
  - unfold prune_step. by rewrite prune_loop_filter.
Qed.

(** The scenario of the specification: from the two frequent items [A]
    and [B] the three candidates of the join all survive. *)
Example scenario_prune :
  let pA : list (gset string) := [{["A"]}] in
  let pB : list (gset string) := [{["B"]}] in
  let Ck : list (list (gset string)) :=
    [[{["A"]}; {["B"]}]; [{["A"; "B"]}]; [{["B"]}; {["A"]}]] in
  prune_step Ck {[pA; pB]} = Ck
  ∧ prune_step Ck {[pA]} = [].
Proof. by vm_compute. Qed.

(** * The candidate generator *)

(** ** The item order *)

Lemma ltb_negb_leb x y : String.ltb x y = negb (String.leb y x).
Proof.
  unfold String.ltb, String.leb. rewrite (String.compare_antisym y x).
  by destruct (String.compare x y).
Qed.

Lemma item_lt_le x y : item_lt x y → String.le x y.
Proof.
  unfold item_lt, String.le. rewrite ltb_negb_leb. intros Hlt%negb_true_iff.
  destruct (String.leb_total x y) as [->| Hyx]; [done|]. congruence.
Qed.

Lemma not_item_lt x y : String.ltb x y = false → String.le y x.
Proof.
  unfold String.le. rewrite ltb_negb_leb. intros ->%negb_false_iff. done.
Qed.

Lemma item_le_lt_trans x y z : String.le x y → item_lt y z → item_lt x z.
Proof.
  unfold item_lt. rewrite !ltb_negb_leb, !negb_true_iff.
  intros Hxy Hyz. apply not_true_is_false. intros Hzx.
  assert (String.le z y) as Hzy.
  { transitivity x; [by apply Is_true_true|done]. }
  apply Is_true_true in Hzy. unfold String.le in Hzy. congruence.
Qed.

Lemma item_lt_irrefl x : ¬ item_lt x x.
Proof.
  unfold item_lt. rewrite ltb_negb_leb, negb_true_iff.
  assert (String.le x x) as H%Is_true_true by done. congruence.
Qed.

(** [max] returns an item of the set that no item of the set exceeds. *)
Lemma max_fold_spec (x : string) (l : list string) :
  let m := foldl (λ m y, if String.ltb m y then y else m) x l in
  m ∈ x :: l ∧ ∀ y, y ∈ x :: l → String.le y m.
Proof.
  revert x. induction l as [|z l IH]; intros x; simpl.
  - split; [left|]. by intros y ->%list_elem_of_singleton.
  - destruct (String.ltb x z) eqn:Hxz.
    + destruct (IH z) as [Hin Hmax]. split; [by right|].
      intros y [->|Hy]%elem_of_cons; [|by apply Hmax].
      transitivity z; [by apply item_lt_le|]. apply Hmax. left.
    + destruct (IH x) as [Hin Hmax]. split.
      * apply elem_of_cons in Hin as [->|?]; [left|right; by right].
      * intros y [->|[->|Hy]%elem_of_cons]%elem_of_cons.
        -- apply Hmax. left.
        -- transitivity x; [by apply not_item_lt|]. apply Hmax. left.
        -- apply Hmax. by right.
Qed.

Lemma max_item_spec (iset : gset string) :
  iset ≠ ∅ →
  ∃ m, max_item iset = Some m ∧ m ∈ iset ∧ ∀ y, y ∈ iset → String.le y m.
Proof.
  intros Hne. unfold max_item.
  destruct (elements iset) as [|x l] eqn:Hel.
  { by apply elements_empty_iff, leibniz_equiv in Hel. }
  destruct (max_fold_spec x l) as [Hin Hmax].
  eexists. split; [done|]. split.
  - apply elem_of_elements. by rewrite Hel.
  - intros y Hy. apply Hmax. rewrite <- Hel. by apply elem_of_elements.
Qed.

(** The test [x > max_item(last_a)] is the comparison of [x] with every
    item. *)
Lemma above_max_iff (iset : gset string) m x :
  max_item iset = Some m → iset ≠ ∅ →
  String.ltb m x = true ↔ ∀ y, y ∈ iset → item_lt y x.
Proof.
  intros Hm Hne. destruct (max_item_spec iset Hne) as (m' & Hm' & Hin & Hmax).
  assert (m' = m) as -> by congruence. split.
  - intros Hlt y Hy. apply (item_le_lt_trans y m x); [by apply Hmax|done].
  - intros Hall. by apply Hall.
Qed.

(** ** The two steps on one pair *)

Lemma s_step_spec a b :
  b ≠ [] →
  ∃ l, s_step a b = Some l ∧ ∀ c, c ∈ l ↔ s_rule a b c.
Proof.
  intros Hb. apply last_is_Some in Hb as [last_b Hlast].
  unfold s_step, s_rule. rewrite Hlast. simpl.
  destruct (decide (tail a = removelast b)) as [Heq|Hne].
  - eexists. split; [done|]. intros c. rewrite list_elem_of_singleton. split.
    + intros ->. split; [done|]. by exists last_b.
    + intros (_ & lb & <-%(inj Some) & ->). done.
  - exists []. split; [done|]. intros c. split; [by intros ?%elem_of_nil|].
    by intros [? _].
Qed.

Lemma i_step_spec a b :
  well_formed a → b ≠ [] →
  ∃ l, i_step a b = Some l ∧ ∀ c, c ∈ l ↔ i_rule a b c.
Proof.
  intros [Ha Hisets] Hb.
  apply last_is_Some in Ha as [last_a Hlast_a].
  apply last_is_Some in Hb as [last_b Hlast_b].
  assert (last_a ≠ ∅) as Hne by (by apply Hisets, last_Some_elem_of).
  unfold i_step, i_rule. rewrite Hlast_a, Hlast_b. simpl.
  destruct (decide (removelast a = removelast b)) as [Heq|Hneq]; cycle 1.
  { exists []. split; [done|]. intros c. split; [by intros ?%elem_of_nil|].
    by intros [? _]. }
  destruct (decide (size last_b = 1%nat)) as [Hone|Hone]; cycle 1.
  { exists []. split; [done|]. intros c. split; [by intros ?%elem_of_nil|].
    intros (_ & la & x & _ & ->%(inj Some) & _). by rewrite size_singleton in Hone. }
  apply size_1_elem_of in Hone as [x ->%leibniz_equiv].
  rewrite elements_singleton. simpl.
  destruct (decide (x ∈ last_a)) as [Hin|Hnin].
  { exists []. split; [done|]. intros c. split; [by intros ?%elem_of_nil|].
    intros (_ & la & x' & <-%(inj Some) & Hx%(inj Some) & Hx' & _).
    apply singleton_inj in Hx as ->. done. }
  destruct (max_item_spec last_a Hne) as (m & Hm & _). rewrite Hm. simpl.
  pose proof (above_max_iff last_a m x Hm Hne) as Habove.
  destruct (String.ltb m x) eqn:Hlt.
  - eexists. split; [done|]. intros c. rewrite list_elem_of_singleton. split.
    + intros ->. split; [done|]. exists last_a, x. split; [done|].
      split; [done|]. split; [done|]. split; [by apply Habove|done].
    + intros (_ & la & x' & <-%(inj Some) & Hx%(inj Some) & _ & _ & ->).
      by apply singleton_inj in Hx as ->.
  - exists []. split; [done|]. intros c. split; [by intros ?%elem_of_nil|].
    intros (_ & la & x' & <-%(inj Some) & Hx%(inj Some) & _ & Hall & _).
    apply singleton_inj in Hx as ->. apply Habove in Hall. congruence.
Qed.

(** ** The loops over the pairs *)

Lemma emitted_spec a b c :
  well_formed a → well_formed b →
  c ∈ emitted a b ↔ a ≠ b ∧ (s_rule a b c ∨ i_rule a b c).
Proof.
  intros Ha Hb. unfold emitted.
  destruct (s_step_spec a b (proj1 Hb)) as (ls & -> & Hs).
  destruct (i_step_spec a b Ha (proj1 Hb)) as (li & -> & Hi).
  destruct (decide (a = b)) as [->|Hne].
  - split; [by intros ?%elem_of_nil|]. by intros [? _].
  - simpl. rewrite elem_of_app, Hs, Hi. tauto.
Qed.

Lemma s_step_length a b l : s_step a b = Some l → (length l ≤ 1)%nat.
Proof.
  unfold s_step. destruct (decide (tail a = removelast b)).
  - destruct (last b); simpl; [|done]. intros <-%(inj Some). done.
  - intros <-%(inj Some). simpl. lia.
Qed.

Lemma i_step_length a b l : i_step a b = Some l → (length l ≤ 1)%nat.
Proof.
  unfold i_step. destruct (decide (removelast a = removelast b)); cycle 1.
  { intros <-%(inj Some). simpl. lia. }
  destruct (last a) as [last_a|]; simpl; [|done].
  destruct (last b) as [last_b|]; simpl; [|done].
  destruct (decide (size last_b = 1%nat)); cycle 1.
  { intros <-%(inj Some). simpl. lia. }
  destruct (head (elements last_b)) as [x|]; simpl; [|done].
  destruct (decide (x ∈ last_a)).
  { intros <-%(inj Some). simpl. lia. }
  destruct (max_item last_a) as [m|]; simpl; [|done].
  destruct (String.ltb m x); intros <-%(inj Some); simpl; lia.
Qed.

(** What one ordered pair emits: the candidate of the S-step, if any, and
    then the candidate of the I-step, if any. *)
Lemma emitted_pair a b :
  well_formed a → well_formed b →
  ∃ s i, emitted a b = s ++ i ∧ (length s ≤ 1)%nat ∧ (length i ≤ 1)%nat ∧
         (∀ c, c ∈ s ↔ a ≠ b ∧ s_rule a b c) ∧
         (∀ c, c ∈ i ↔ a ≠ b ∧ i_rule a b c).
Proof.
  intros Ha Hb. unfold emitted.
  destruct (decide (a = b)) as [->|Hne].
  { exists [], []. split; [done|]. split; [simpl; lia|]. split; [simpl; lia|].
    split; intros c; (split; [by intros ?%elem_of_nil|by intros [? _]]). }
  destruct (s_step_spec a b (proj1 Hb)) as (ls & Hls & Hs).
  destruct (i_step_spec a b Ha (proj1 Hb)) as (li & Hli & Hi).
  exists ls, li. rewrite Hls, Hli. split; [done|].
  split; [by apply (s_step_length a b)|].
  split; [by apply (i_step_length a b)|].
  split; intros c; [rewrite Hs|rewrite Hi]; tauto.
Qed.

Lemma join_inner_spec a bs cands :
  well_formed a → (∀ b, b ∈ bs → well_formed b) →
  join_inner a bs cands = Some (cands ++ (bs ≫= emitted a)).
Proof.
  intros Ha. revert cands. induction bs as [|b bs IH]; intros cands Hbs; simpl.
  - by rewrite app_nil_r.
  - assert (well_formed b) as Hb by (apply Hbs; left).
    assert (∀ b', b' ∈ bs → well_formed b') as Hbs' by (intros; apply Hbs; by right).
    unfold emitted at 1. destruct (decide (a = b)) as [->|Hne].
    + by rewrite IH.
    + destruct (s_step_spec a b (proj1 Hb)) as (ls & -> & _).
      destruct (i_step_spec a b Ha (proj1 Hb)) as (li & -> & _). simpl.
      rewrite IH by done. by rewrite <- !app_assoc.
Qed.

Lemma join_outer_spec as_ F cands :
  (∀ a, a ∈ as_ → well_formed a) → (∀ b, b ∈ F → well_formed b) →
  join_outer as_ F cands = Some (cands ++ (as_ ≫= λ a, F ≫= emitted a)).
Proof.
  intros Has HF. revert cands Has.
  induction as_ as [|a as_ IH]; intros cands Has; simpl.
  - by rewrite app_nil_r.
  - rewrite join_inner_spec; [|apply Has; left|done]. simpl.
    rewrite IH by (intros; apply Has; by right). by rewrite <- app_assoc.
Qed.

(** ** The sort and the removal of duplicates *)

Lemma sorted_insert_perm x l : sorted_insert x l ≡ₚ x :: l.
Proof.
  induction l as [|y l IH]; simpl; [done|].
  destruct (pattern_lt x y); [done|]. rewrite IH. apply Permutation_swap.
Qed.

Lemma sorted_perm l : sorted l ≡ₚ l.
Proof.
  unfold sorted. induction l as [|x l IH] using rev_ind; [done|].
  rewrite foldl_snoc, sorted_insert_perm, IH. apply Permutation_cons_append.
Qed.

Lemma elem_of_sorted l p : p ∈ sorted l ↔ p ∈ l.
Proof. by rewrite sorted_perm. Qed.

Lemma elem_of_first_seen l c : c ∈ first_seen l ↔ c ∈ l.
Proof.
  induction l as [|x l IH]; simpl; [done|].
  rewrite !elem_of_cons, list_elem_of_In, filter_In, <- list_elem_of_In, IH.
  rewrite negb_true_iff, bool_decide_eq_false.
  destruct (decide (c = x)); tauto.
Qed.

Lemma NoDup_list_filter {A} (f : A → bool) (l : list A) :
  NoDup l → NoDup (List.filter f l).
Proof.
  induction 1 as [|x l Hx Hnd IH]; simpl; [constructor|].
  destruct (f x); [|done]. constructor; [|done].
  rewrite list_elem_of_In, filter_In, <- list_elem_of_In. tauto.
Qed.

Lemma NoDup_first_seen l : NoDup (first_seen l).
Proof.
  induction l as [|x l IH]; simpl; [constructor|].
  constructor; [|by apply NoDup_list_filter].
  rewrite list_elem_of_In, filter_In, negb_true_iff, bool_decide_eq_false.
  tauto.
Qed.

Lemma first_seen_snoc l c :
  first_seen (l ++ [c]) =
  if decide (c ∈ l) then first_seen l else first_seen l ++ [c].
Proof.
  induction l as [|x l IH]; simpl; [done|]. rewrite IH.
  destruct (decide (c = x)) as [->|Hne].
  - rewrite (decide_True (P := x ∈ x :: l)) by left.
    destruct (decide (x ∈ l)); [done|].
    rewrite List.filter_app. simpl. rewrite bool_decide_eq_true_2 by done.
    simpl. by rewrite app_nil_r.
  - destruct (decide (c ∈ l)) as [Hin|Hnin].
    + by rewrite decide_True by by right.
    + rewrite decide_False by (intros [?|?]%elem_of_cons; done).
      rewrite List.filter_app. simpl. by rewrite bool_decide_eq_false_2 by done.
Qed.

(** [list(dict.fromkeys(cands))] keeps the first occurrences. *)
Lemma fromkeys_first_seen cands :
  PyDict.keys (fromkeys cands) = first_seen cands.
Proof.
  unfold fromkeys. induction cands as [|c cands IH] using rev_ind; [done|].
  rewrite foldl_snoc, first_seen_snoc.
  destruct (decide (c ∈ cands)) as [Hin|Hnin].
  - rewrite keys_set_present; [done|]. rewrite IH. by apply elem_of_first_seen.
  - rewrite keys_set_absent; [by rewrite IH|].
    rewrite IH. by rewrite elem_of_first_seen.
Qed.

(** The join on well-formed patterns, in full. *)
(** The loops and the removal of the duplicates, run on any order of the
    patterns. *)
Lemma join_sorted_spec (Fs : list (list (gset string))) :
  (∀ p, p ∈ Fs → well_formed p) →
  join_sorted Fs = Some (first_seen (a ← Fs; b ← Fs; emitted a b)).
Proof.
  intros Hwf. unfold join_sorted. rewrite join_outer_spec by done. simpl.
  by rewrite fromkeys_first_seen.
Qed.

Lemma elem_of_pairs (F Fs : list (list (gset string))) c :
  (∀ p, p ∈ F → well_formed p) → Fs ≡ₚ F →
  c ∈ (a ← Fs; b ← Fs; emitted a b) ↔
  ∃ a b, a ∈ F ∧ b ∈ F ∧ a ≠ b ∧ (s_rule a b c ∨ i_rule a b c).
Proof.
  intros Hwf Hperm. rewrite list_elem_of_bind. split.
  - intros (a & (b & Hc & Hb)%list_elem_of_bind & Ha).
    rewrite Hperm in Ha, Hb.
    apply emitted_spec in Hc as [? ?]; [|by apply Hwf..].
    by exists a, b.
  - intros (a & b & Ha & Hb & Hne & Hrule).
    exists a. split; [|by rewrite Hperm].
    apply list_elem_of_bind. exists b. split; [|by rewrite Hperm].
    apply emitted_spec; [by apply Hwf..|done].
Qed.

Lemma join_step_spec (F_prev : list (list (gset string))) :
  (∀ p, p ∈ F_prev → well_formed p) →
  ∃ emit : list (gset string) → list (gset string) → list (list (gset string)),
    (∀ a b c, a ∈ F_prev → b ∈ F_prev →
       c ∈ emit a b ↔ a ≠ b ∧ (s_rule a b c ∨ i_rule a b c)) ∧
    ∃ out, join_step F_prev = Some out ∧
      out = first_seen (a ← sorted F_prev; b ← sorted F_prev; emit a b) ∧
      NoDup out ∧
      ∀ c, c ∈ out ↔
           ∃ a b, a ∈ F_prev ∧ b ∈ F_prev ∧ a ≠ b ∧
                  (s_rule a b c ∨ i_rule a b c).
Proof.
  intros Hwf. exists emitted. split.
  { intros a b c Ha Hb. apply emitted_spec; by apply Hwf. }
  assert (∀ p, p ∈ sorted F_prev → well_formed p) as Hwf'.
  { intros p Hp. apply Hwf. by apply elem_of_sorted. }
  unfold join_step, join_sorted. rewrite join_outer_spec by done. simpl.
  eexists. split; [done|]. rewrite fromkeys_first_seen.
  split; [done|]. split; [apply NoDup_first_seen|].
  intros c. rewrite elem_of_first_seen, list_elem_of_bind. split.
  - intros (a & (b & Hc & Hb)%list_elem_of_bind & Ha).
    rewrite elem_of_sorted in Ha, Hb.
    apply emitted_spec in Hc as [? ?]; [|by apply Hwf..].
    by exists a, b.
  - intros (a & b & Ha & Hb & Hne & Hrule).
    exists a. split; [|by apply elem_of_sorted].
    apply list_elem_of_bind. exists b. split; [|by apply elem_of_sorted].
    apply emitted_spec; [by apply Hwf..|done].
Qed.

(** C4.  On well-formed patterns (non-empty sequences of non-empty
    itemsets) the join returns, and its result is obtained as follows.
    Every ordered pair [(a, b)] of [F_prev] emits the candidate of the
    S-step, if the rule applies, and then the candidate of the I-step, if
    the rule applies (both when both apply), and nothing when [a = b].
    The loops collect the emissions pair after pair in the order of the
    sorted list, whatever order the sort has given it, and the duplicates
    are then removed, first occurrences staying in place.  So the result
    of [join_step] is the first-occurrence deduplication of the emissions
    of the pairs taken in the order of a permutation of [F_prev], has no
    duplicate, and holds exactly the candidates of the two rules. *)
Theorem join_step_emits_rules (F_prev : list (list (gset string))) :
  (∀ p, p ∈ F_prev → well_formed p) →
  (∀ a b, a ∈ F_prev → b ∈ F_prev →
     ∃ s i, emitted a b = s ++ i ∧ (length s ≤ 1)%nat ∧ (length i ≤ 1)%nat ∧
            (∀ c, c ∈ s ↔ a ≠ b ∧ s_rule a b c) ∧
            (∀ c, c ∈ i ↔ a ≠ b ∧ i_rule a b c))
  ∧ (∀ F_prev_sorted, F_prev_sorted ≡ₚ F_prev →
       join_sorted F_prev_sorted
       = Some (first_seen (a ← F_prev_sorted; b ← F_prev_sorted; emitted a b)))
  ∧ ∃ F_prev_sorted out,
      F_prev_sorted ≡ₚ F_prev ∧
      join_step F_prev = join_sorted F_prev_sorted ∧
      join_step F_prev = Some out ∧
      out = first_seen (a ← F_prev_sorted; b ← F_prev_sorted; emitted a b) ∧
      NoDup out ∧
      ∀ c, c ∈ out ↔
           ∃ a b, a ∈ F_prev ∧ b ∈ F_prev ∧ a ≠ b ∧
                  (s_rule a b c ∨ i_rule a b c).
Proof.
  intros Hwf.
  assert (∀ Fs, Fs ≡ₚ F_prev → ∀ p, p ∈ Fs → well_formed p) as Hwf'.
  { intros Fs Hperm p Hp. apply Hwf. by rewrite <- Hperm. }
  split; [intros a b Ha Hb; apply emitted_pair; by apply Hwf|].
  split; [intros Fs Hperm; apply join_sorted_spec; by apply Hwf'|].
  exists (sorted F_prev). eexists.
  split; [apply sorted_perm|]. split; [done|].
  split; [apply join_sorted_spec, Hwf', sorted_perm|].
  split; [done|]. split; [apply NoDup_first_seen|].
  intros c. rewrite elem_of_first_seen.
  apply elem_of_pairs; [done|apply sorted_perm].
Qed.

Lemma items_A_B_well_formed p : p ∈ items_A_B → well_formed p.
Proof.
  intros Hp. split.
  - intros ->. by apply (bool_decide_unpack ([] ∉ items_A_B)).
  - intros iset Hiset ->.
    assert (Forall (λ q : list (gset string), ∅ ∉ q) items_A_B) as Hall.
    { apply (bool_decide_unpack _). by vm_compute. }
    rewrite Forall_forall in Hall. by apply (Hall p).
Qed.

Lemma join_step_emits_rules_witness :
  (∀ a b, a ∈ items_A_B → b ∈ items_A_B →
     ∃ s i, emitted a b = s ++ i ∧ (length s ≤ 1)%nat ∧ (length i ≤ 1)%nat ∧
            (∀ c, c ∈ s ↔ a ≠ b ∧ s_rule a b c) ∧
            (∀ c, c ∈ i ↔ a ≠ b ∧ i_rule a b c))
  ∧ (∀ F_prev_sorted, F_prev_sorted ≡ₚ items_A_B →
       join_sorted F_prev_sorted
       = Some (first_seen (a ← F_prev_sorted; b ← F_prev_sorted; emitted a b)))
  ∧ ∃ F_prev_sorted out,
      F_prev_sorted ≡ₚ items_A_B ∧
      join_step items_A_B = join_sorted F_prev_sorted ∧
      join_step items_A_B = Some out ∧
      out = first_seen (a ← F_prev_sorted; b ← F_prev_sorted; emitted a b) ∧
      NoDup out ∧
      ∀ c, c ∈ out ↔
           ∃ a b, a ∈ items_A_B ∧ b ∈ items_A_B ∧ a ≠ b ∧
                  (s_rule a b c ∨ i_rule a b c).
Proof.
  apply join_step_emits_rules. exact items_A_B_well_formed.
Defined.

(** The scenario of the specification: the two frequent items [A] and [B]
    give the S-step candidates [<{A},{B}>] and [<{B},{A}>] and, as
    ["B" > "A"], the I-step candidate [<{A,B}>]. *)
Example scenario_join :
  join_step items_A_B
  = Some [[{["A"]}; {["B"]}]; [{["A"; "B"]}]; [{["B"]}; {["A"]}]].
Proof. by vm_compute. Qed.

(** On patterns outside the data model the join can raise: [max] of an
    empty itemset, or the last itemset of an empty tuple. *)
Example join_raises :
  join_step [[∅]; [{["A"]}]] = None ∧ join_step [[]; [{["A"]}]] = None.
Proof. by vm_compute. Qed.

(** The loops follow the order in which they are given the patterns: on
    the four patterns [<{A,C}>], [<{A,B}>], [<{C},{A}>], [<{C},{B}>],
    none of which is below another, taken in this order, the two S-step
    candidates come before the I-step candidate of the third pattern. *)
Example join_sorted_in_order :
  join_sorted [[{["A"; "C"]}]; [{["A"; "B"]}];
               [{["C"]}; {["A"]}]; [{["C"]}; {["B"]}]]
  = Some [[{["A"; "C"]}; {["A"; "B"]}]; [{["A"; "B"]}; {["A"; "C"]}];
          [{["C"]}; {["A"; "B"]}]].
Proof. by vm_compute. Qed.

(** * The order used by the sort of the join *)

(** C8.  The comparison that [sorted] applies to patterns is Python's
    tuple comparison over frozensets, and frozensets compare by proper
    inclusion.  On the two patterns [<{A}>] and [<{B}>] neither is smaller
    than the other, although the order of the specification puts [<{A}>]
    first; the sort then leaves both input orders unchanged, and the
    result of the join depends on the order of its input. *)
Theorem sort_order_depends_on_input :
  let pA : list (gset string) := [{["A"]}] in
  let pB : list (gset string) := [{["B"]}] in
  pA ≠ pB
  ∧ pattern_lt pA pB = false ∧ pattern_lt pB pA = false
  ∧ spec_pattern_lt pA pB = true ∧ spec_pattern_lt pB pA = false
  ∧ sorted [pA; pB] = [pA; pB] ∧ sorted [pB; pA] = [pB; pA]
  ∧ join_step [pA; pB] = Some [[{["A"]}; {["B"]}]; [{["A"; "B"]}]; [{["B"]}; {["A"]}]]
  ∧ join_step [pB; pA] = Some [[{["B"]}; {["A"]}]; [{["A"]}; {["B"]}]; [{["A"; "B"]}]].
Proof.
  split; [by apply (bool_decide_unpack _)|]. by vm_compute.
Qed.

(** Where two itemsets are comparable by inclusion the comparison agrees
    with nothing in particular either: it puts [<{B}>] before [<{A, B}>],
    which the order of the specification puts after it. *)
Example inclusion_order :
  let pB : list (gset string) := [{["B"]}] in
  let pAB : list (gset string) := [{["A"; "B"]}] in
  pattern_lt pB pAB = true ∧ spec_pattern_lt pB pAB = false
  ∧ spec_pattern_lt pAB pB = true.
Proof. by vm_compute. Qed.

(** * The support threshold *)

Lemma min_sup_count_nonpositive (p : spec_float) (n : Z) :
  Float64.le0 p = true → min_sup_count p n = Some 0.
Proof. unfold min_sup_count. by intros ->. Qed.

(** The filter of a level keeps exactly the entries of the support map
    whose count reaches the threshold. *)
Lemma elem_of_frequent sup_map msc p :
  p ∈ frequent sup_map msc ↔ ∃ sup, (p, sup) ∈ sup_map ∧ msc ≤ sup.
Proof.
  unfold frequent. rewrite list_elem_of_omap. split.
  - intros ([q sup] & Hin & Hq). destruct (decide (sup >= msc)); [|done].
    injection Hq as ->. exists sup. split; [done|lia].
  - intros (sup & Hin & Hle). exists (p, sup). split; [done|].
    by rewrite decide_True by lia.
Qed.

Lemma elem_of_F1_of item_support msc p :
  p ∈ F1_of item_support msc ↔
  ∃ item sup, (item, sup) ∈ item_support ∧ msc ≤ sup ∧ p = [{[item]}].
Proof.
  unfold F1_of. rewrite list_elem_of_omap. split.
  - intros ([item sup] & Hin & Hq). destruct (decide (sup >= msc)); [|done].
    injection Hq as <-. exists item, sup. split; [done|]. split; [lia|done].
  - intros (item & sup & Hin & Hle & ->). exists (item, sup). split; [done|].
    by rewrite decide_True by lia.
Qed.

(** For a positive percentage the threshold is the truncation of the
    floating-point product, plus one when the product exceeds it: the
    ceiling of the product as rounded, not of the exact one. *)
Lemma min_sup_count_positive (p : spec_float) (n : Z) :
  Float64.le0 p = false →
  min_sup_count p n =
  let raw := Float64.mul (Float64.div p Float64.f100) (Float64.of_int n) in
  c ← Float64.to_int raw; Some (if Float64.gt_int raw c then c + 1 else c).
Proof. unfold min_sup_count. by intros ->. Qed.

Lemma ceiling_by_truncation (m d : Z) :
  0 ≤ m → 0 < d →
  (if bool_decide (m / d * d < m) then m / d + 1 else m / d) = - ((- m) / d).
Proof.
  intros Hm Hd. pose proof (Z.div_mod m d ltac:(lia)) as Hdm.
  pose proof (Z.mod_pos_bound m d Hd) as Hmod.
  destruct (decide (m mod d = 0)) as [Hr|Hr].
  - rewrite bool_decide_eq_false_2 by lia.
    assert (- m = (- (m / d)) * d) as -> by lia. rewrite Z.div_mul by lia. lia.
  - rewrite bool_decide_eq_true_2 by lia.
    rewrite <- (Z.div_unique (- m) d (- (m / d + 1)) (d - m mod d)); lia.
Qed.

(** On a finite non-negative product [num / 2 ^ sh] the two steps of the
    driver, truncation and the test [raw > min_sup_count], compute the
    ceiling of that product. *)
Lemma to_int_ceiling raw num sh :
  Float64.exact raw = Some (num, sh) → 0 ≤ num →
  ∃ c, Float64.to_int raw = Some c ∧
       (if Float64.gt_int raw c then c + 1 else c) = - ((- num) / 2 ^ sh).
Proof.
  destruct raw as [s|s| |s m e]; try done; simpl.
  - intros [= <- <-] _. exists 0. split; [done|].
    by rewrite bool_decide_eq_false_2 by lia.
  - destruct s.
    { destruct (0 <=? e) eqn:He; intros [= <- <-] Hnum; [|lia].
      apply Z.leb_le in He.
      pose proof (Z.pow_pos_nonneg 2 e ltac:(lia) He). nia. }
    destruct (0 <=? e) eqn:He; intros [= <- <-] Hnum.
    + eexists. split; [done|]. rewrite bool_decide_eq_false_2 by lia.
      change (2 ^ 0) with 1. rewrite Z.div_1_r. lia.
    + eexists. split; [done|]. apply Z.leb_gt in He.
      apply ceiling_by_truncation; [lia|]. apply Z.pow_pos_nonneg; lia.
Qed.

(** C3.  With 100 windows and a support of 7 percent the threshold comes
    out as 8, whereas the ceiling of [7 / 100 * 100] is 7: the quotient
    [7 / 100.0] is rounded to a float slightly above 0.07, the product by
    100 is [7 + 2 ^ -50], and the driver rounds that up.  A pattern found
    in exactly 7 of the 100 windows is then not frequent. *)
Theorem threshold_7_percent_of_100 :
  Float64.mul (Float64.div (Float64.of_int 7) Float64.f100) (Float64.of_int 100)
  = S754_finite false 7881299347898369 (-50)
  ∧ min_sup_count (Float64.of_int 7) 100 = Some 8
  ∧ exact_threshold 7 100 = 7
  ∧ frequent [([{["A"]}], 7)] 8 = []
  ∧ frequent [([{["A"]}], 7)] (exact_threshold 7 100) = [[{["A"]}]].
Proof. by vm_compute. Qed.

(** Where the product is exact the threshold is the ceiling of the
    specification: the scenario with two windows and 50 percent. *)
Example threshold_scenario :
  min_sup_count (Float64.of_int 50) 2 = Some 1
  ∧ min_sup_count (Float64.of_int 0) 2 = Some 0
  ∧ min_sup_count (Float64.of_int 5) 30 = Some 2
  ∧ min_sup_count (Float64.of_int 100) 3 = Some 3.
Proof. by vm_compute. Qed.

(** * What the levels of the driver preserve *)

Lemma f100_is_100 : Float64.of_int 100 = Float64.f100.
Proof. by vm_compute. Qed.

Lemma last_removelast (a : list (gset string)) la :
  last a = Some la → a = removelast a ++ [la].
Proof. intros [l' ->]%last_Some. by rewrite removelast_last. Qed.

Lemma flat_app l1 l2 : flat (l1 ++ l2) = flat l1 ++ flat l2.
Proof. apply bind_app. Qed.

Lemma flat_cons s l : flat (s :: l) = elements s ++ flat l.
Proof. done. Qed.

Lemma flat_singleton s : flat [s] = elements s.
Proof. unfold flat. simpl. apply app_nil_r. Qed.

Lemma elem_of_flat x p : x ∈ flat p ↔ ∃ iset, iset ∈ p ∧ x ∈ iset.
Proof.
  unfold flat. rewrite list_elem_of_bind. split.
  - intros (iset & Hx%elem_of_elements & Hin). by exists iset.
  - intros (iset & Hin & Hx). exists iset. split; [|done].
    by apply elem_of_elements.
Qed.

(** A set with an item [x] and another size than one has a second item. *)
Lemma second_item (s : gset string) x :
  x ∈ s → size s ≠ 1%nat → ∃ y, y ∈ s ∧ y ≠ x.
Proof.
  intros Hx Hsize. destruct (decide (s ∖ {[x]} = ∅)) as [Hempty|Hne].
  - exfalso. apply Hsize. rewrite <- (size_singleton (C := gset string) x).
    f_equal. apply set_eq. intros z. rewrite elem_of_singleton. split.
    + intros Hz. destruct (decide (z = x)) as [|Hzx]; [done|].
      assert (z ∈ s ∖ {[x]}) as Hz'.
      { apply elem_of_difference. by rewrite elem_of_singleton. }
      rewrite Hempty in Hz'. by apply not_elem_of_empty in Hz'.
    + by intros ->.
  - apply set_choose_L in Hne as [y Hy].
    apply elem_of_difference in Hy as [Hy Hyx]. rewrite elem_of_singleton in Hyx.
    by exists y.
Qed.

Lemma elem_of_remove_other (s : gset string) x y : x ∈ s → y ≠ x → x ∈ s ∖ {[y]}.
Proof.
  intros Hx Hyx. apply elem_of_difference. rewrite elem_of_singleton.
  split; [done|]. congruence.
Qed.

Lemma size_gt_1 (s : gset string) : s ≠ ∅ → size s ≠ 1%nat → (1 < size s)%nat.
Proof.
  intros Hne H1. assert (size s ≠ 0%nat); [|lia].
  intros Hs%size_empty_iff. by apply leibniz_equiv in Hs.
Qed.

(** An item of both the first and the last itemset stands twice. *)
Lemma distinct_ends s1 l s2 x :
  distinct (s1 :: l ++ [s2]) → x ∈ s1 → x ∈ s2 → False.
Proof.
  unfold distinct. rewrite flat_cons, flat_app, flat_singleton.
  intros (_ & Hdisj & _)%NoDup_app Hx1 Hx2.
  apply (Hdisj x); [by apply elem_of_elements|].
  apply elem_of_app. right. by apply elem_of_elements.
Qed.

Lemma s_rule_shape a b c :
  a ≠ [] → s_rule a b c →
  ∃ a0 mid last_b, a = a0 :: mid ∧ b = mid ++ [last_b] ∧ c = a0 :: mid ++ [last_b].
Proof.
  intros Ha (Htail & last_b & Hlast & ->).
  destruct a as [|a0 mid]; [done|]. simpl in Htail.
  exists a0, mid, last_b. split; [done|]. split; [|done].
  rewrite Htail. by apply last_removelast.
Qed.

Lemma i_rule_shape a b c :
  i_rule a b c →
  ∃ l last_a x, a = l ++ [last_a] ∧ b = l ++ [{[x]}] ∧ (x ∉ last_a) ∧
                c = l ++ [last_a ∪ {[x]}].
Proof.
  intros (Heq & last_a & x & Ha & Hb & Hx & _ & ->).
  exists (removelast a), last_a, x. split; [by apply last_removelast|].
  split; [|done]. rewrite Heq. by apply last_removelast.
Qed.

Lemma elem_of_prune_step Ck F c :
  c ∈ prune_step Ck F ↔ c ∈ Ck ∧ rule_A c F ∧ rule_B c F.
Proof.
  unfold prune_step. rewrite prune_loop_filter. simpl.
  rewrite list_elem_of_In, filter_In, <- list_elem_of_In, andb_true_iff.
  by rewrite prune_A_rule, prune_B_rule.
Qed.

Section level.
Context (U : gset string) (n : nat) (F : list (list (gset string))).
Hypothesis Hinv : level_inv U n F.

(** The candidate of an I-step. *)
Lemma i_rule_inv a b c :
  a ∈ F → b ∈ F → i_rule a b c →
  well_formed c ∧ distinct c ∧ (S n ≤ total_items c)%nat ∧
  ∀ iset, iset ∈ c → iset ⊆ U.
Proof.
  intros Ha Hb (l & last_a & x & -> & -> & Hx & ->)%i_rule_shape.
  destruct (Hinv _ Ha) as ([_ Hne_a] & Hd_a & Hn_a & HU_a).
  destruct (Hinv _ Hb) as (_ & Hd_b & _ & HU_b).
  unfold distinct, total_items in *.
  rewrite flat_app, flat_singleton in *.
  assert (elements (last_a ∪ {[x]}) ≡ₚ x :: elements last_a) as Hperm.
  { rewrite (union_comm_L last_a). by apply elements_union_singleton. }
  split; [split|].
  - by destruct l.
  - intros iset [Hin| ->%list_elem_of_singleton]%elem_of_app.
    + apply Hne_a, elem_of_app. by left.
    + intros Hempty. apply (not_elem_of_empty (C := gset string) x).
      rewrite <- Hempty. apply elem_of_union. right. by apply elem_of_singleton.
  - split.
    + apply NoDup_app in Hd_a as (Hl & Hdisj_a & _).
      apply NoDup_app in Hd_b as (_ & Hdisj_b & _).
      apply NoDup_app. split; [done|]. split; [|apply NoDup_elements].
      intros y Hy [Hya| ->%elem_of_singleton]%elem_of_elements%elem_of_union.
      * apply (Hdisj_a y Hy). by apply elem_of_elements.
      * apply (Hdisj_b x Hy). rewrite elements_singleton. left.
    + split.
      * rewrite length_app in *. rewrite Hperm. simpl. lia.
      * intros iset [Hin| ->%list_elem_of_singleton]%elem_of_app.
        -- apply HU_a, elem_of_app. by left.
        -- apply union_subseteq. split.
           ++ apply HU_a, elem_of_app. right. left.
           ++ apply HU_b, elem_of_app. right. left.
Qed.

(** The candidate of an S-step that passes the pruner. *)
Lemma s_rule_inv a b c :
  a ∈ F → b ∈ F → a ≠ b → s_rule a b c →
  rule_A c (list_to_set F) → rule_B c (list_to_set F) →
  well_formed c ∧ distinct c ∧ (S n ≤ total_items c)%nat ∧
  ∀ iset, iset ∈ c → iset ⊆ U.
Proof.
  intros Ha Hb Hab Hs HA HB.
  destruct (Hinv _ Ha) as ([Hnil_a Hne_a] & Hd_a & Hn_a & HU_a).
  destruct (Hinv _ Hb) as ([_ Hne_b] & Hd_b & _ & HU_b).
  destruct (s_rule_shape a b c Hnil_a Hs) as (a0 & mid & last_b & -> & -> & ->).
  assert (last_b ≠ ∅) as Hlast by (apply Hne_b, elem_of_app; right; left).
  assert (∀ p, p ∈ (list_to_set F : gset (list (gset string))) → distinct p) as HF.
  { intros p Hp%elem_of_list_to_set. by destruct (Hinv _ Hp) as (_ & ? & _). }
  assert (∀ iset, iset ∈ a0 :: mid ++ [last_b] → iset ∈ a0 :: mid ∨ iset ∈ mid ++ [last_b])
    as Hsplit.
  { intros iset [->|Hin]%elem_of_cons; [left; left|].
    apply elem_of_app in Hin as [?|?]; [left; by right|].
    right. apply elem_of_app. by right. }
  split; [split; [done|]|].
  { intros iset [?|?]%Hsplit; [by apply Hne_a|by apply Hne_b]. }
  split; [|split].
  - (* no item twice: the two ends are disjoint *)
    assert (a0 ## last_b) as Hdisj.
    { intros x Hx0 Hxl.
      destruct mid as [|m mid].
      - (* two itemsets: one of them has a second item to delete *)
        simpl in *.
        assert (a0 ≠ last_b) as Hne by congruence.
        assert (a0 ≠ ∅) as Ha0 by (apply Hne_a; left).
        destruct (decide (size a0 = 1%nat)) as [H0|H0];
          [destruct (decide (size last_b = 1%nat)) as [Hl|Hl]|].
        + apply Hne.
          apply size_1_elem_of in H0 as [y0 ->%leibniz_equiv].
          apply size_1_elem_of in Hl as [yl ->%leibniz_equiv].
          apply elem_of_singleton in Hx0, Hxl. congruence.
        + destruct (second_item last_b x Hxl Hl) as (y & Hy & Hyx).
          pose proof (HB 1%nat last_b y eq_refl (size_gt_1 _ Hlast Hl) Hy) as Hsub.
          simpl in Hsub. apply HF in Hsub.
          apply (distinct_ends a0 [] (last_b ∖ {[y]}) x Hsub); [done|].
          by apply elem_of_remove_other.
        + destruct (second_item a0 x Hx0 H0) as (y & Hy & Hyx).
          pose proof (HB 0%nat a0 y eq_refl (size_gt_1 _ Ha0 H0) Hy) as Hsub.
          simpl in Hsub. apply HF in Hsub.
          apply (distinct_ends (a0 ∖ {[y]}) [] last_b x Hsub); [|done].
          by apply elem_of_remove_other.
      - (* a middle itemset: delete one of its items *)
        assert (m ≠ ∅) as Hm by (apply Hne_a; right; left).
        destruct (decide (size m = 1%nat)) as [H1|H1].
        + pose proof (HA 1%nat m eq_refl H1) as Hsub. simpl in Hsub.
          apply HF in Hsub. by apply (distinct_ends a0 mid last_b x Hsub).
        + destruct (set_choose_L m Hm) as [y Hy].
          pose proof (HB 1%nat m y eq_refl (size_gt_1 _ Hm H1) Hy) as Hsub.
          simpl in Hsub. apply HF in Hsub.
          by apply (distinct_ends a0 (m ∖ {[y]} :: mid) last_b x Hsub). }
    unfold distinct in *. rewrite flat_cons, flat_app, flat_singleton in *.
    apply NoDup_app in Hd_a as (H0 & Hd0 & _).
    apply NoDup_app. split; [done|]. split; [|done].
    intros x Hx0 [Hxm|Hxl]%elem_of_app; [by apply (Hd0 x)|].
    apply (Hdisj x); by apply elem_of_elements.
  - unfold total_items in *. rewrite app_comm_cons, flat_app, flat_singleton.
    rewrite length_app.
    assert (length (elements last_b) ≠ 0%nat); [|lia].
    intros Hlen. apply nil_length_inv, elements_empty_iff, leibniz_equiv in Hlen.
    done.
  - intros iset [?|?]%Hsplit; [by apply HU_a|by apply HU_b].
Qed.

(** Join then prune: the next level's candidates satisfy the invariant of
    the next level. *)
Lemma join_prune_inv Ck :
  join_step F = Some Ck →
  level_inv U (S n) (prune_step Ck (list_to_set F)).
Proof.
  intros Hjoin c (Hc & HA & HB)%elem_of_prune_step.
  destruct (join_step_spec F) as (emit & _ & out & Hout & _ & _ & Hmem).
  { intros p Hp. by destruct (Hinv p Hp). }
  assert (out = Ck) as -> by congruence.
  apply Hmem in Hc as (a & b & Ha & Hb & Hab & [Hs|Hi]).
  - by apply (s_rule_inv a b c).
  - by apply (i_rule_inv a b c).
Qed.

Lemma join_step_returns : ∃ Ck, join_step F = Some Ck.
Proof.
  destruct (join_step_spec F) as (emit & _ & out & Hout & _).
  { intros p Hp. by destruct (Hinv p Hp). }
  by exists out.
Qed.

(** A non-empty level has at most as many items per pattern as [U]. *)
Lemma level_bound p : p ∈ F → (n ≤ size U)%nat.
Proof.
  intros Hp. destruct (Hinv p Hp) as (_ & Hd & Hn & HU).
  etransitivity; [exact Hn|]. unfold total_items, size, set_size. simpl.
  apply submseteq_length, NoDup_submseteq; [done|].
  intros x (iset & Hin & Hx)%elem_of_flat.
  apply elem_of_elements. by apply (HU iset).
Qed.
End level.

(** * Termination of the level-wise loop *)

Lemma level_inv_subseteq U n F F' :
  level_inv U n F → (∀ p, p ∈ F' → p ∈ F) → level_inv U n F'.
Proof. intros Hinv Hsub p Hp. by apply Hinv, Hsub. Qed.

(** The frequent items, as patterns, start the invariant at level one. *)
Lemma F1_level_inv item_support msc :
  level_inv (items_of (F1_of item_support msc)) 1 (F1_of item_support msc).
Proof.
  intros p Hp. pose proof Hp as (item & sup & _ & _ & ->)%elem_of_F1_of.
  split; [split; [done|]|]; [|split; [|split]].
  - intros iset ->%list_elem_of_singleton Hempty.
    apply (not_elem_of_empty (C := gset string) item).
    rewrite <- Hempty. by apply elem_of_singleton.
  - unfold distinct. rewrite flat_singleton, elements_singleton.
    apply NoDup_singleton.
  - unfold total_items. by rewrite flat_singleton, elements_singleton.
  - intros iset ->%list_elem_of_singleton x Hx. unfold items_of.
    apply elem_of_union_list. exists {[item]}. split; [|done].
    apply list_elem_of_join. exists [{[item]}]. split; [left|done].
Qed.

Lemma frequent_keys sup_map msc p :
  p ∈ frequent sup_map msc → p ∈ PyDict.keys sup_map.
Proof.
  intros (sup & Hin & _)%elem_of_frequent. unfold PyDict.keys.
  apply list_elem_of_fmap. by exists (p, sup).
Qed.

(** Recording a level never fails: its patterns are keys of the support
    map. *)
Lemma level_k_returns sup_map db_size Fk acc :
  (∀ p, p ∈ Fk → p ∈ PyDict.keys sup_map) →
  ∃ lvl, level_k sup_map db_size Fk acc = Some lvl.
Proof.
  revert acc. induction Fk as [|p Fk IH]; intros acc Hkeys; simpl; [by eexists|].
  destruct (proj2 (get_Some_keys sup_map p)) as [cnt ->]; [apply Hkeys; left|].
  simpl. apply IH. intros q Hq. apply Hkeys. by right.
Qed.

Section loop.
Context (U : gset string) (DB : list (list (Z * gset string)))
        (db_size min_sup_count min_gap max_gap : Z) (win_size : option Z).

(** From a level that satisfies the invariant at [n], the loop returns
    within [size U + 1 - n] iterations. *)
Lemma level_loop_returns fuel :
  ∀ n F k results,
    level_inv U n F → (size U < n + fuel)%nat →
    ∃ r, level_loop fuel DB db_size min_sup_count min_gap max_gap win_size
           F k results = Returned r.
Proof.
  induction fuel as [|fuel IH]; intros n F k results Hinv Hfuel.
  - destruct F as [|p F]; [by eexists|].
    pose proof (level_bound U n _ Hinv p (list_elem_of_here _ _)). lia.
  - destruct F as [|p F]; [by eexists|].
    pose proof (level_bound U n _ Hinv p (list_elem_of_here _ _)) as Hn.
    remember (p :: F) as F_prev eqn:HF.
    assert (level_loop (S fuel) DB db_size min_sup_count min_gap max_gap
              win_size F_prev k results =
            match join_step F_prev with
            | None => Raised
            | Some Ck =>
              match prune_step Ck (list_to_set F_prev) with
              | [] => Returned results
              | _ :: _ =>
                match count_support_db_int DB
                        (prune_step Ck (list_to_set F_prev))
                        min_gap max_gap win_size with
                | None => Raised
                | Some sup_map =>
                  match frequent sup_map min_sup_count with
                  | [] => Returned results
                  | _ :: _ =>
                    match level_k sup_map db_size
                            (frequent sup_map min_sup_count) [] with
                    | None => Raised
                    | Some lvl =>
                      level_loop fuel DB db_size min_sup_count min_gap max_gap
                        win_size (frequent sup_map min_sup_count) (k + 1)
                        (PyDict.set k lvl results)
                    end
                  end
                end
              end
            end) as ->.
    { subst F_prev. simpl. destruct (join_step (p :: F)) as [Ck|]; [|done].
      destruct (prune_step Ck _) as [|c Ck'] eqn:HCk; [done|].
      destruct (count_support_db_int _ _ _ _ _) as [sup_map|]; [|done].
      destruct (frequent sup_map min_sup_count) as [|q Fk] eqn:HFk; [done|].
      done. }
    destruct (join_step_returns U n F_prev Hinv) as [Ck HCk]. rewrite HCk.
    pose proof (join_prune_inv U n F_prev Hinv Ck HCk) as Hinv'.
    destruct (prune_step Ck (list_to_set F_prev)) as [|c Ck'] eqn:Hpruned;
      [by eexists|].
    destruct (count_support_spec DB (c :: Ck') min_gap max_gap win_size)
      as (sup_map & -> & _ & Hkeys & _).
    destruct (frequent sup_map min_sup_count) as [|q Fk] eqn:HFk; [by eexists|].
    destruct (level_k_returns sup_map db_size (q :: Fk) []) as [lvl ->].
    { intros p' Hp'. rewrite <- HFk in Hp'. by apply frequent_keys in Hp'. }
    apply (IH (S n)); [|lia].
    apply (level_inv_subseteq U (S n) (c :: Ck')); [done|].
    intros p' Hp'. apply Hkeys. rewrite <- HFk in Hp'.
    by apply frequent_keys in Hp'.
Qed.
End loop.

(** The recording of level one never fails either. *)
Lemma level1_returns item_support db_size msc :
  ∃ lvl1, level1 item_support db_size (F1_of item_support msc) [] = Some lvl1.
Proof.
  assert (∀ F1 acc, (∀ p, p ∈ F1 → p ∈ F1_of item_support msc) →
            ∃ lvl1, level1 item_support db_size F1 acc = Some lvl1) as Hgen.
  { induction F1 as [|p F1 IH]; intros acc Hsub; simpl; [by eexists|].
    assert (p ∈ F1_of item_support msc) as Hp by (apply Hsub; left).
    apply elem_of_F1_of in Hp as (item & sup & Hin & _ & ->).
    simpl. rewrite elements_singleton. simpl.
    destruct (proj2 (get_Some_keys item_support item)) as [cnt ->].
    { unfold PyDict.keys. apply list_elem_of_fmap. by exists (item, sup). }
    simpl. apply IH. intros q Hq. apply Hsub. by right. }
  by apply Hgen.
Qed.

(** C6.  For every database, every threshold (zero included) and every
    gap and window configuration, the loop over the levels, started on the
    frequent items of the database, returns after finitely many
    iterations, without raising; hence so does [run] whenever the
    threshold itself can be computed from the percentage. *)
Theorem level_loop_terminates (DB : list (list (Z * gset string)))
    (min_gap max_gap : Z) (win_size : option Z) :
  (∀ db_size min_sup_count k results,
     ∃ fuel r,
       level_loop fuel DB db_size min_sup_count min_gap max_gap win_size
         (F1_of (scan_items DB) min_sup_count) k results = Returned r)
  ∧ (∀ min_sup_pct,
       is_Some (min_sup_count min_sup_pct (Z.of_nat (length DB))) →
       ∃ fuel r, run fuel DB min_sup_pct min_gap max_gap win_size = Returned r).
Proof.
  assert (∀ db_size msc k results,
     ∃ fuel r,
       level_loop fuel DB db_size msc min_gap max_gap win_size
         (F1_of (scan_items DB) msc) k results = Returned r) as Hloop.
  { intros db_size msc k results.
    exists (size (items_of (F1_of (scan_items DB) msc))).
    apply (level_loop_returns (items_of (F1_of (scan_items DB) msc)) DB
             db_size msc min_gap max_gap win_size _ 1%nat);
      [apply F1_level_inv|lia]. }
  split; [done|]. intros min_sup_pct [msc Hmsc]. unfold run.
  destruct (decide (Z.of_nat (length DB) = 0)); [by exists 0%nat; eexists|].
  rewrite Hmsc.
  destruct (level1_returns (scan_items DB) (Z.of_nat (length DB)) msc)
    as [lvl1 ->].
  apply Hloop.
Qed.

Lemma level_loop_terminates_witness :
  is_Some (min_sup_count (Float64.of_int 50)
             (Z.of_nat (length [scenario_window])))
  ∧ ∃ fuel r, run fuel [scenario_window] (Float64.of_int 50) 0 5 None
              = Returned r.
Proof.
  assert (is_Some (min_sup_count (Float64.of_int 50)
                     (Z.of_nat (length [scenario_window])))) as Hmsc.
  { exists 1. by vm_compute. }
  split; [done|].
  by apply (proj2 (level_loop_terminates [scenario_window] 0 5 None)).
Defined.

(** With the threshold zero every candidate is frequent, and the loop
    still ends: from the scenario window it records two levels. *)
Example scenario_run_threshold_zero :
  (λ r, match r with
        | Returned res => Some ((λ lv, (lv.1, length lv.2)) <$> res)
        | _ => None
        end) (run 3 [scenario_window] (Float64.of_int 0) 0 5 None)
  = Some [(1, 2%nat); (2, 3%nat)].
Proof. by vm_compute. Qed.

(** * The results of [run] on degenerate inputs *)

Lemma run_empty_db fuel min_sup_pct min_gap max_gap win_size :
  run fuel [] min_sup_pct min_gap max_gap win_size = Returned [].
Proof. done. Qed.

(** When no item reaches the threshold, [run] on a non-empty database
    returns a result that holds level one, with no pattern in it. *)
Lemma run_no_frequent_item fuel DB min_sup_pct msc min_gap max_gap win_size :
  DB ≠ [] →
  min_sup_count min_sup_pct (Z.of_nat (length DB)) = Some msc →
  F1_of (scan_items DB) msc = [] →
  run fuel DB min_sup_pct min_gap max_gap win_size = Returned [(1, [])].
Proof.
  intros HDB Hmsc HF1. unfold run.
  rewrite decide_False by (destruct DB; [done|simpl; lia]).
  rewrite Hmsc, HF1. simpl. by destruct fuel.
Qed.

(** C7.  On the empty database [run] returns the empty mapping.  On two
    windows that share no item, with a support of 100 percent, no item is
    frequent, and [run] returns the mapping [{1: {}}]: level one is
    recorded, empty, where the levels from two on are left out when they
    are empty. *)
Theorem run_records_empty_level_one :
  let DB : list (list (Z * gset string)) :=
    [[(0, {["A_1"]})]; [(0, {["B_1"]})]] in
  ∀ fuel,
    run fuel [] (Float64.of_int 100) 0 1 None = Returned []
    ∧ min_sup_count (Float64.of_int 100) 2 = Some 2
    ∧ (λ d, d.*2) (scan_items DB) = [1; 1]
    ∧ F1_of (scan_items DB) 2 = []
    ∧ run fuel DB (Float64.of_int 100) 0 1 None = Returned [(1, [])].
Proof.
  intros DB fuel. split; [done|]. split; [by vm_compute|].
  split; [by vm_compute|]. split; [by vm_compute|].
  apply (run_no_frequent_item fuel DB (Float64.of_int 100) 2);
    [done|by vm_compute|by vm_compute].
Qed.

(** A database whose only window has no event has no item at all. *)
Example run_no_item fuel :
  run fuel [[]] (Float64.of_int 50) 0 1 None = Returned [(1, [])].
Proof.
  apply (run_no_frequent_item fuel [[]] (Float64.of_int 50) 1);
    [done|by vm_compute|by vm_compute].
Qed.

(** * Patterns with an empty itemset *)

Lemma rule_well_formed a b c :
  well_formed a → well_formed b → s_rule a b c ∨ i_rule a b c → well_formed c.
Proof.
  intros [Hnil_a Hne_a] [Hnil_b Hne_b] [Hs|Hi].
  - destruct (s_rule_shape a b c Hnil_a Hs) as (a0 & mid & last_b & -> & -> & ->).
    split; [done|]. intros iset [->|Hin]%elem_of_cons.
    + apply Hne_a. left.
    + apply Hne_b. done.
  - apply i_rule_shape in Hi as (l & last_a & x & -> & -> & _ & ->).
    split; [by destruct l|].
    intros iset [Hin| ->%list_elem_of_singleton]%elem_of_app.
    + apply Hne_a, elem_of_app. by left.
    + intros Hempty. apply (not_elem_of_empty (C := gset string) x).
      rewrite <- Hempty. apply elem_of_union. right. by apply elem_of_singleton.
Qed.

(** The engine performs no validation: the pattern [(∅)] is contained in
    every window that has an event. *)
Lemma contains_empty_itemset seq min_gap max_gap win_size :
  contains_with_int_constraints seq [∅] min_gap max_gap win_size
  = Some (bool_decide (seq ≠ [])).
Proof.
  destruct (contains_spec seq min_gap max_gap win_size [∅]) as (b & -> & Hspec).
  f_equal. destruct seq as [|ev seq].
  - rewrite bool_decide_eq_false_2 by (intros H; by apply H).
    apply not_true_is_false. intros (i0 & ev & _ & Hev & _)%Hspec. done.
  - rewrite bool_decide_eq_true_2 by done. apply Hspec.
    exists 0%nat, ev, []. split; [done|]. split; [|done].
    apply empty_subseteq.
Qed.

(** C9, the counterexample: the engine accepts a pattern that holds an
    empty itemset. *)
Lemma empty_itemset_accepted :
  ¬ (∀ (seq : list (Z * gset string)) (pat : list (gset string))
       (min_gap max_gap : Z) (win_size : option Z),
       ∅ ∈ pat →
       contains_with_int_constraints seq pat min_gap max_gap win_size
       ≠ Some true).
Proof.
  intros H. apply (H [(0, {["A"]})] [∅] 0 0 None); [left|]. by vm_compute.
Qed.

(** C9, as amended.  Nothing validates a pattern, at its construction or
    in the engine: an empty itemset is included in every event, so the
    pattern [(∅)] is contained in exactly the windows that have an event.
    The patterns that the driver builds hold no empty itemset: the
    level-one patterns are single items, and every candidate joined from
    well-formed patterns is well formed. *)
Theorem empty_itemset_not_rejected (seq : list (Z * gset string))
    (min_gap max_gap : Z) (win_size : option Z)
    (item_support : list (string * Z)) (min_sup_count : Z)
    (F_prev Ck : list (list (gset string))) :
  (∀ p, p ∈ F_prev → well_formed p) →
  join_step F_prev = Some Ck →
  contains_with_int_constraints seq [∅] min_gap max_gap win_size
  = Some (bool_decide (seq ≠ []))
  ∧ (∀ p, p ∈ F1_of item_support min_sup_count → well_formed p)
  ∧ (∀ c, c ∈ Ck → well_formed c).
Proof.
  intros Hwf Hjoin. split; [apply contains_empty_itemset|]. split.
  - intros p Hp. by destruct (F1_level_inv item_support min_sup_count p Hp).
  - intros c Hc.
    destruct (join_step_spec F_prev Hwf) as (emit & _ & out & Hout & _ & _ & Hmem).
    assert (out = Ck) as -> by congruence.
    apply Hmem in Hc as (a & b & Ha & Hb & _ & Hrule).
    apply (rule_well_formed a b c); [by apply Hwf..|done].
Qed.

Lemma empty_itemset_not_rejected_witness :
  contains_with_int_constraints scenario_window [∅] 0 5 None
  = Some (bool_decide (scenario_window ≠ []))
  ∧ (∀ p, p ∈ F1_of (scan_items [scenario_window]) 1 → well_formed p)
  ∧ (∀ c, c ∈ [[{["A"]}; {["B"]}]; [{["A"; "B"]}]; [{["B"]}; {["A"]}]] →
          well_formed c).
Proof.
  apply (empty_itemset_not_rejected scenario_window 0 5 None
           (scan_items [scenario_window]) 1 items_A_B).
  - exact items_A_B_well_formed.
  - by vm_compute.
Defined.

(** * More on the containment engine *)

Section engine.
Context (seq : list (Z * gset string)) (min_gap max_gap : Z)
        (win_size : option Z).

(** When the engine answers [True]. *)
Lemma contains_true_iff pat :
  contains_with_int_constraints seq pat min_gap max_gap win_size = Some true ↔
  match pat with
  | [] => True
  | iset :: pat' =>
      ∃ i0 ev idxs, seq !! i0 = Some ev ∧ iset ⊆ ev.2 ∧
        chain seq min_gap max_gap win_size pat' i0 ev.1 ev.1 idxs
  end.
Proof.
  destruct (contains_spec seq min_gap max_gap win_size pat) as (b & -> & Hspec).
  rewrite <- Hspec. split; [by intros [= ->]|by intros ->].
Qed.

Lemma contains_false_iff pat :
  contains_with_int_constraints seq pat min_gap max_gap win_size = Some false ↔
  contains_with_int_constraints seq pat min_gap max_gap win_size ≠ Some true.
Proof.
  destruct (contains_spec seq min_gap max_gap win_size pat) as (b & -> & _).
  destruct b; split; congruence.
Qed.

(** A chain needs one position per itemset after [prev_idx]. *)
Lemma chain_length pat prev_idx first_t prev_t idxs :
  chain seq min_gap max_gap win_size pat prev_idx first_t prev_t idxs →
  pat ≠ [] → (prev_idx + length pat < length seq)%nat.
Proof.
  revert prev_idx prev_t idxs.
  induction pat as [|iset pat IH]; intros prev_idx prev_t idxs Hch Hne; [done|].
  destruct idxs as [|idx idxs]; [done|]. simpl in Hch.
  destruct Hch as (Hlt & ev & Hev & _ & _ & _ & Hch).
  apply lookup_lt_Some in Hev. destruct pat as [|iset' pat].
  - simpl. lia.
  - specialize (IH idx ev.1 idxs Hch ltac:(done)). simpl in *. lia.
Qed.

Lemma chain_idxs_length pat prev_idx first_t prev_t idxs :
  chain seq min_gap max_gap win_size pat prev_idx first_t prev_t idxs →
  length idxs = length pat.
Proof.
  revert prev_idx prev_t idxs.
  induction pat as [|iset pat IH]; intros prev_idx prev_t [|idx idxs] Hch;
    try done.
  simpl in Hch. destruct Hch as (_ & ev & _ & _ & _ & _ & Hch).
  simpl. f_equal. by eapply IH.
Qed.

(** The first itemsets of a chained pattern are chained by the first
    positions. *)
Lemma chain_prefix p q prev_idx first_t prev_t idxs :
  chain seq min_gap max_gap win_size (p ++ q) prev_idx first_t prev_t idxs →
  chain seq min_gap max_gap win_size p prev_idx first_t prev_t
    (take (length p) idxs).
Proof.
  revert prev_idx prev_t idxs.
  induction p as [|iset p IH]; intros prev_idx prev_t idxs Hch; [done|].
  destruct idxs as [|idx idxs]; [done|]. simpl in *.
  destruct Hch as (Hlt & ev & Hev & Hsub & Hgap & Hwin & Hch).
  split; [done|]. exists ev. do 4 (split; [done|]). by apply IH.
Qed.

(** Smaller itemsets are chained by the same positions. *)
Lemma chain_shrink p' p prev_idx first_t prev_t idxs :
  Forall2 (⊆) p' p →
  chain seq min_gap max_gap win_size p prev_idx first_t prev_t idxs →
  chain seq min_gap max_gap win_size p' prev_idx first_t prev_t idxs.
Proof.
  intros Hsub. revert prev_idx prev_t idxs.
  induction Hsub as [|iset' iset p' p Hi _ IH]; intros prev_idx prev_t idxs Hch;
    [done|].
  destruct idxs as [|idx idxs]; [done|]. simpl in *.
  destruct Hch as (Hlt & ev & Hev & Hsub' & Hgap & Hwin & Hch).
  split; [done|]. exists ev. split; [done|].
  split; [by etransitivity|]. do 2 (split; [done|]). by apply IH.
Qed.
End engine.

(** Looser constraints keep a chain. *)
Lemma chain_relax seq min_gap max_gap win_size min_gap' max_gap' win_size'
    pat prev_idx first_t prev_t idxs :
  min_gap' ≤ min_gap → max_gap ≤ max_gap' → window_le win_size win_size' →
  chain seq min_gap max_gap win_size pat prev_idx first_t prev_t idxs →
  chain seq min_gap' max_gap' win_size' pat prev_idx first_t prev_t idxs.
Proof.
  intros Hmin Hmax Hwin. revert prev_idx prev_t idxs.
  induction pat as [|iset pat IH]; intros prev_idx prev_t idxs Hch;
    destruct idxs as [|idx idxs]; try done.
  simpl in *. destruct Hch as (Hlt & ev & Hev & Hsub & Hgap & Hw & Hch).
  split; [done|]. exists ev. split; [done|]. split; [done|].
  split; [lia|]. split; [|by apply IH].
  intros w' Hw'. unfold window_le in Hwin. rewrite Hw' in Hwin.
  destruct Hwin as (w & Hws & Hle). specialize (Hw w Hws). lia.
Qed.

(** A chain survives events added before and after the window, at the
    positions shifted by the number of events added before. *)
Lemma chain_extend pre seq post min_gap max_gap win_size pat prev_idx
    first_t prev_t idxs :
  chain seq min_gap max_gap win_size pat prev_idx first_t prev_t idxs →
  chain (pre ++ seq ++ post) min_gap max_gap win_size pat
    (length pre + prev_idx) first_t prev_t ((λ i, length pre + i)%nat <$> idxs).
Proof.
  revert prev_idx prev_t idxs.
  induction pat as [|iset pat IH]; intros prev_idx prev_t idxs Hch;
    destruct idxs as [|idx idxs]; try done.
  simpl in *. destruct Hch as (Hlt & ev & Hev & Hsub & Hgap & Hw & Hch).
  split; [lia|]. exists ev. split.
  { rewrite lookup_app_r by lia.
    replace (length pre + idx - length pre)%nat with idx by lia.
    by apply lookup_app_l_Some. }
  do 3 (split; [done|]). by apply IH.
Qed.

(** X1.  A pattern with more itemsets than the window has events is not
    contained, whatever the constraints; in particular the empty window
    contains the empty pattern only. *)
Theorem contains_short_window (seq : list (Z * gset string))
    (pat : list (gset string)) (min_gap max_gap : Z) (win_size : option Z) :
  (length seq < length pat)%nat →
  contains_with_int_constraints seq pat min_gap max_gap win_size = Some false.
Proof.
  intros Hlen. apply contains_false_iff. rewrite contains_true_iff.
  destruct pat as [|iset pat]; [simpl in Hlen; lia|].
  intros (i0 & ev & idxs & Hev & _ & Hch). apply lookup_lt_Some in Hev.
  destruct pat as [|iset' pat]; [simpl in Hlen; lia|].
  apply chain_length in Hch; [|done]. simpl in *. lia.
Qed.

Lemma contains_short_window_witness :
  contains_with_int_constraints [(0, {["A"]})] [{["A"]}; {["A"]}] 0 5 None
  = Some false.
Proof. apply contains_short_window. simpl. lia. Defined.

(** The engine on one itemset. *)
Lemma contains_single_itemset_lemma (seq : list (Z * gset string))
    (iset : gset string) (min_gap max_gap : Z) (win_size : option Z) :
  contains_with_int_constraints seq [iset] min_gap max_gap win_size
  = Some (any_superset iset seq).
Proof.
  destruct (any_superset iset seq) eqn:Hany.
  - apply contains_true_iff. unfold any_superset in Hany.
    apply existsb_exists in Hany as (ev & Hin & Hsub).
    apply list_elem_of_In, list_elem_of_lookup in Hin as [i0 Hev].
    exists i0, ev, []. split; [done|]. split; [|done].
    by apply bool_decide_eq_true in Hsub.
  - apply contains_false_iff. rewrite contains_true_iff.
    intros (i0 & ev & idxs & Hev & Hsub & _).
    apply not_true_iff_false in Hany. apply Hany.
    unfold any_superset. apply existsb_exists. exists ev. split.
    + apply list_elem_of_In. by eapply list_elem_of_lookup_2.
    + by apply bool_decide_eq_true.
Qed.

(** X2.  On a pattern of one itemset the engine only looks for an event
    that includes the itemset: neither the gaps nor the window size are
    consulted, so even a negative window size does not reject it. *)
Theorem contains_single_itemset (seq : list (Z * gset string))
    (iset : gset string) (min_gap max_gap : Z) (win_size : option Z) :
  contains_with_int_constraints seq [iset] min_gap max_gap win_size
  = Some (any_superset iset seq).
Proof. apply contains_single_itemset_lemma. Qed.

(** X3.  Loosening the constraints never loses a match: with a smaller
    minimal gap, a larger maximal gap and a larger or absent window size,
    a contained pattern stays contained. *)
Theorem contains_relax (seq : list (Z * gset string))
    (pat : list (gset string)) (min_gap max_gap min_gap' max_gap' : Z)
    (win_size win_size' : option Z) :
  min_gap' ≤ min_gap → max_gap ≤ max_gap' → window_le win_size win_size' →
  contains_with_int_constraints seq pat min_gap max_gap win_size = Some true →
  contains_with_int_constraints seq pat min_gap' max_gap' win_size' = Some true.
Proof.
  intros Hmin Hmax Hwin. rewrite !contains_true_iff.
  destruct pat as [|iset pat]; [done|].
  intros (i0 & ev & idxs & Hev & Hsub & Hch).
  exists i0, ev, idxs. split; [done|]. split; [done|].
  by apply (chain_relax seq min_gap max_gap win_size).
Qed.

Lemma contains_relax_witness :
  contains_with_int_constraints scenario_window [{["A_1"]}; {["B_0"]}] 0 5 None
  = Some true.
Proof.
  apply (contains_relax scenario_window _ 1 2 0 5 (Some 3) None);
    [lia|lia|done|by vm_compute].
Defined.

(** The first itemsets of a contained pattern, reduced to subsets, are
    contained. *)
Lemma contains_anti_monotone_lemma (seq : list (Z * gset string))
    (p p' q : list (gset string)) (min_gap max_gap : Z) (win_size : option Z) :
  Forall2 (⊆) p' p →
  contains_with_int_constraints seq (p ++ q) min_gap max_gap win_size = Some true →
  contains_with_int_constraints seq p' min_gap max_gap win_size = Some true.
Proof.
  intros Hsub. rewrite !contains_true_iff.
  destruct Hsub as [|iset' iset p' p Hi Hsub]; [done|]. simpl.
  intros (i0 & ev & idxs & Hev & Hsub0 & Hch).
  exists i0, ev, (take (length p) idxs). split; [done|].
  split; [by etransitivity|].
  apply (chain_shrink seq min_gap max_gap win_size p' p); [done|].
  by apply chain_prefix with q.
Qed.

(** X4.  Containment is anti-monotone in the pattern: a window that
    contains a pattern contains every pattern made of its first itemsets,
    each possibly reduced to a subset. *)
Theorem contains_anti_monotone (seq : list (Z * gset string))
    (p p' q : list (gset string)) (min_gap max_gap : Z) (win_size : option Z) :
  Forall2 (⊆) p' p →
  contains_with_int_constraints seq (p ++ q) min_gap max_gap win_size = Some true →
  contains_with_int_constraints seq p' min_gap max_gap win_size = Some true.
Proof. apply contains_anti_monotone_lemma. Qed.

Lemma contains_anti_monotone_witness :
  contains_with_int_constraints scenario_window [{["A_1"]}] 0 5 None = Some true.
Proof.
  apply (contains_anti_monotone scenario_window [{["A_1"; "B_0"]}] [{["A_1"]}]
           [{["B_0"]}] 0 5 None).
  - constructor; [|constructor].
    apply (bool_decide_unpack _). by vm_compute.
  - by vm_compute.
Defined.

(** X5.  A match survives the extension of the window: a pattern
    contained in a window is contained in every window obtained by adding
    events before and after it. *)
Theorem contains_extend_window (pre seq post : list (Z * gset string))
    (pat : list (gset string)) (min_gap max_gap : Z) (win_size : option Z) :
  contains_with_int_constraints seq pat min_gap max_gap win_size = Some true →
  contains_with_int_constraints (pre ++ seq ++ post) pat min_gap max_gap win_size
  = Some true.
Proof.
  rewrite !contains_true_iff. destruct pat as [|iset pat]; [done|].
  intros (i0 & ev & idxs & Hev & Hsub & Hch).
  exists (length pre + i0)%nat, ev, ((λ i, length pre + i)%nat <$> idxs).
  split.
  { rewrite lookup_app_r by lia.
    replace (length pre + i0 - length pre)%nat with i0 by lia.
    by apply lookup_app_l_Some. }
  split; [done|]. by apply chain_extend.
Qed.

Lemma contains_extend_window_witness :
  contains_with_int_constraints
    ([(0, {["A_1"]})] ++ [(1, {["A_1"; "B_0"]}); (2, {["B_0"]})] ++ [(7, ∅)])
    [{["A_1"]}; {["B_0"]}] 0 5 None = Some true.
Proof. apply contains_extend_window. by vm_compute. Defined.


(** * More on the trie and the support counter *)

Lemma stored_at_init path : stored_at path TrieNode_init = [].
Proof. by destruct path. Qed.

(** One insertion adds the pattern at the end of its own path and
    nowhere else. *)
Lemma stored_at_descend pat rest node path :
  stored_at path (descend pat rest node) =
  stored_at path node ++ (if decide (path = rest) then [pat] else []).
Proof.
  revert node path. induction rest as [|iset rest IH]; intros node path.
  - destruct path as [|i path]; simpl.
    + done.
    + by rewrite app_nil_r.
  - destruct path as [|i path].
    + simpl. by rewrite app_nil_r.
    + unfold stored_at. simpl. destruct (decide (i = iset)) as [->|Hne].
      * rewrite get_set_eq. simpl.
        fold (stored_at path
                (descend pat rest
                   (default TrieNode_init (PyDict.get iset (children node))))).
        rewrite IH.
        assert (stored_at path
                  (default TrieNode_init (PyDict.get iset (children node)))
                = default [] (patterns <$>
                    PyDict.get iset (children node) ≫= walk path)) as ->.
        { destruct (PyDict.get iset (children node)); [done|].
          simpl. apply stored_at_init. }
        destruct (decide (path = rest)) as [->|Hp].
        -- by rewrite ?decide_True.
        -- by rewrite ?decide_False by congruence.
      * rewrite get_set_ne by done. rewrite ?decide_False by congruence.
        by rewrite app_nil_r.
Qed.

(** X6.  The trie built from a batch stores every pattern where its own
    itemsets lead: the node at the end of a path holds exactly the input
    patterns equal to that path, in input order and with their
    multiplicity, and the root holds none (empty patterns are not
    inserted). *)
Theorem trie_stores_patterns (pats : list (list (gset string)))
    (path : list (gset string)) :
  stored_at path (root (build pats)) =
  List.filter (λ q, bool_decide (q = path ∧ q ≠ [])) pats.
Proof.
  induction pats as [|p pats IH] using rev_ind; [by destruct path|].
  rewrite build_snoc, List.filter_app. simpl. destruct p as [|first p]; simpl.
  - rewrite bool_decide_eq_false_2 by (by intros [_ ?]). by rewrite app_nil_r.
  - change (stored_at path (descend (first :: p) (first :: p) (root (build pats)))
            = List.filter (λ q, bool_decide (q = path ∧ q ≠ [])) pats ++
              (if bool_decide (first :: p = path ∧ first :: p ≠ [])
               then [first :: p] else [])).
    rewrite stored_at_descend, IH. f_equal.
    destruct (decide (path = first :: p)) as [->|Hne].
    + by rewrite bool_decide_eq_true_2.
    + by rewrite bool_decide_eq_false_2 by (intros [? _]; congruence).
Qed.

Lemma keys_setdefault_append k p d k' :
  k' ∈ PyDict.keys (setdefault_append k p d) ↔ k' = k ∨ k' ∈ PyDict.keys d.
Proof.
  unfold setdefault_append. destruct (PyDict.get k d); apply elem_of_keys_set.
Qed.

Lemma NoDup_keys_setdefault_append k p d :
  NoDup (PyDict.keys d) → NoDup (PyDict.keys (setdefault_append k p d)).
Proof.
  unfold setdefault_append. destruct (PyDict.get k d); apply NoDup_keys_set.
Qed.

(** X7.  The first-itemset index of a batch has one entry per first
    itemset that occurs, and the entry of a key lists, in input order and
    with their multiplicity, the input patterns that start with that key;
    empty patterns are not indexed. *)
Theorem first_index_groups_by_first_itemset (pats : list (list (gset string))) :
  NoDup (PyDict.keys (first_index (build pats)))
  ∧ (∀ k, k ∈ PyDict.keys (first_index (build pats)) ↔
          ∃ p, p ∈ pats ∧ head p = Some k)
  ∧ (∀ k, default [] (PyDict.get k (first_index (build pats))) =
          List.filter (λ q, bool_decide (head q = Some k)) pats).
Proof.
  split; [|split; [|apply first_index_get]].
  - induction pats as [|p pats IH] using rev_ind; [constructor|].
    rewrite build_snoc. destruct p as [|first p]; [done|].
    by apply NoDup_keys_setdefault_append.
  - induction pats as [|p pats IH] using rev_ind.
    + intros k. split; [by intros ?%elem_of_nil|].
      by intros (p & ?%elem_of_nil & _).
    + intros k. rewrite build_snoc. destruct p as [|first p]; simpl.
      * rewrite IH. split.
        -- intros (q & Hq & Hk). exists q. split; [|done].
           apply elem_of_app. by left.
        -- intros (q & [Hq| ->%list_elem_of_singleton]%elem_of_app & Hk);
             [by exists q|done].
      * rewrite keys_setdefault_append, IH. split.
        -- intros [->|(q & Hq & Hk)].
           ++ exists (first :: p). split; [|done]. apply elem_of_app.
              right. left.
           ++ exists q. split; [|done]. apply elem_of_app. by left.
        -- intros (q & [Hq| ->%list_elem_of_singleton]%elem_of_app & Hk).
           ++ right. by exists q.
           ++ left. simpl in Hk. congruence.
Qed.

Lemma filter_length_le {A} (f g : A → bool) (l : list A) :
  (∀ x, f x = true → g x = true) →
  (length (List.filter f l) ≤ length (List.filter g l))%nat.
Proof.
  intros Hfg. induction l as [|x l IH]; simpl; [done|].
  destruct (f x) eqn:Hf.
  - rewrite (Hfg x Hf). simpl. lia.
  - destruct (g x); simpl; lia.
Qed.

Lemma windows_containing_bounds DB min_gap max_gap win_size p :
  0 ≤ windows_containing DB min_gap max_gap win_size p ≤ Z.of_nat (length DB).
Proof.
  unfold windows_containing.
  pose proof (filter_length_le (contained min_gap max_gap win_size p)
                (λ _, true) DB (λ _ _, eq_refl)) as Hle.
  assert (List.filter (λ _ : list (Z * gset string), true) DB = DB) as Hall.
  { induction DB as [|x l IH]; simpl; [done|]. f_equal. apply IH.
    pose proof (filter_length_le (contained min_gap max_gap win_size p)
                  (λ _, true) l (λ _ _, eq_refl)). done. }
  rewrite Hall in Hle. lia.
Qed.

(** X8.  Every count returned by the support counter lies between zero
    and the size of the database multiplied by the number of times the
    pattern stands in the batch; on the empty database all counts are
    zero. *)
Theorem count_support_bounds (DB : list (list (Z * gset string)))
    (pats : list (list (gset string))) (min_gap max_gap : Z)
    (win_size : option Z) :
  ∃ sup, count_support_db_int DB pats min_gap max_gap win_size = Some sup ∧
    ∀ p, p ∈ pats →
      ∃ c, PyDict.get p sup = Some c ∧
           0 ≤ c ≤ occurrences p pats * Z.of_nat (length DB).
Proof.
  destruct (count_support_spec DB pats min_gap max_gap win_size)
    as (sup & Hrun & _ & _ & Hget).
  exists sup. split; [done|]. intros p Hp. eexists. split; [by apply Hget|].
  pose proof (occurrences_nonneg p pats).
  pose proof (windows_containing_bounds DB min_gap max_gap win_size p).
  destruct (decide (p = [])); nia.
Qed.

(** X9.  An empty pattern placed in the batch keeps the count zero,
    although the containment engine reports it contained in every window
    of the database. *)
Theorem count_support_empty_pattern (DB : list (list (Z * gset string)))
    (pats : list (list (gset string))) (min_gap max_gap : Z)
    (win_size : option Z) :
  [] ∈ pats →
  (∃ sup, count_support_db_int DB pats min_gap max_gap win_size = Some sup ∧
          PyDict.get [] sup = Some 0)
  ∧ windows_containing DB min_gap max_gap win_size [] = Z.of_nat (length DB).
Proof.
  intros Hin. split.
  - destruct (count_support_spec DB pats min_gap max_gap win_size)
      as (sup & Hrun & _ & _ & Hget).
    exists sup. split; [done|]. by rewrite (Hget [] Hin).
  - unfold windows_containing. f_equal. f_equal.
    induction DB as [|seq DB IH]; simpl; [done|]. by rewrite IH.
Qed.

Lemma count_support_empty_pattern_witness :
  (∃ sup, count_support_db_int [scenario_window] [[{["A_1"]}]; []] 0 5 None
          = Some sup ∧ PyDict.get [] sup = Some 0)
  ∧ windows_containing [scenario_window] 0 5 None [] = 1.
Proof.
  apply (count_support_empty_pattern [scenario_window] [[{["A_1"]}]; []]).
  right. left.
Defined.

Lemma zero_map_keys pats : PyDict.keys (zero_map pats) = first_seen pats.
Proof.
  induction pats as [|p pats IH] using rev_ind; [done|].
  rewrite zero_map_snoc, first_seen_snoc.
  destruct (decide (p ∈ pats)) as [Hin|Hnin].
  - rewrite keys_set_present; [done|]. rewrite IH. by apply elem_of_first_seen.
  - rewrite keys_set_absent; [by rewrite IH|].
    rewrite IH. by rewrite elem_of_first_seen.
Qed.

(** X10.  The returned map lists the patterns in the order of their first
    occurrence in the batch, each once. *)
Theorem count_support_key_order (DB : list (list (Z * gset string)))
    (pats : list (list (gset string))) (min_gap max_gap : Z)
    (win_size : option Z) :
  ∃ sup, count_support_db_int DB pats min_gap max_gap win_size = Some sup ∧
         PyDict.keys sup = first_seen pats.
Proof.
  destruct (build_index pats) as (Hkeyed & Hin & _).
  destruct (zero_map_spec pats) as (_ & Hkeys & _).
  destruct (count_windows_spec min_gap max_gap win_size DB
              (first_index (build pats)) (zero_map pats) Hkeyed)
    as (sup & Hrun & Hk & _).
  { intros p Hp. by apply Hkeys, Hin. }
  exists sup. split; [done|]. by rewrite Hk, zero_map_keys.
Qed.

(** X11.  Support is anti-monotone: in a batch of distinct non-empty
    patterns, a pattern extended by further itemsets, or with larger
    itemsets, never has a larger count than the pattern it extends. *)
Theorem count_support_anti_monotone (DB : list (list (Z * gset string)))
    (pats : list (list (gset string))) (p p' q : list (gset string))
    (min_gap max_gap : Z) (win_size : option Z) :
  NoDup pats → [] ∉ pats → p' ∈ pats → p ++ q ∈ pats → Forall2 (⊆) p' p →
  ∃ sup c c',
    count_support_db_int DB pats min_gap max_gap win_size = Some sup ∧
    PyDict.get (p ++ q) sup = Some c ∧ PyDict.get p' sup = Some c' ∧ c ≤ c'.
Proof.
  intros Hnd Hne Hp' Hpq Hsub.
  destruct (count_support_spec DB pats min_gap max_gap win_size)
    as (sup & Hrun & _ & _ & Hget).
  exists sup. eexists. eexists. split; [done|].
  split; [by apply Hget|]. split; [by apply Hget|].
  rewrite !decide_False by (intros Heq; by rewrite Heq in *).
  rewrite !occurrences_NoDup by done.
  unfold windows_containing.
  pose proof (filter_length_le (contained min_gap max_gap win_size (p ++ q))
                (contained min_gap max_gap win_size p') DB) as Hle.
  assert (∀ x, contained min_gap max_gap win_size (p ++ q) x = true →
               contained min_gap max_gap win_size p' x = true) as Himp.
  { intros seq. unfold contained. rewrite !bool_decide_eq_true.
    by apply contains_anti_monotone_lemma. }
  specialize (Hle Himp). lia.
Qed.

Lemma count_support_anti_monotone_witness :
  ∃ sup c c',
    count_support_db_int [scenario_window] scenario_patterns 0 5 None = Some sup ∧
    PyDict.get ([{["A_1"]}] ++ [{["B_0"]}]) sup = Some c ∧
    PyDict.get [{["A_1"]}] sup = Some c' ∧ c ≤ c'.
Proof.
  apply count_support_anti_monotone.
  - apply (bool_decide_unpack (NoDup scenario_patterns)). by vm_compute.
  - apply (bool_decide_unpack ([] ∉ scenario_patterns)). by vm_compute.
  - right. right. left.
  - left.
  - constructor; [done|constructor].
Defined.


(** * More on the join *)

Lemma join_inner_same a bs cands :
  (∀ b, b ∈ bs → a = b) → join_inner a bs cands = Some cands.
Proof.
  induction bs as [|b bs IH]; intros Hsame; simpl; [done|].
  rewrite decide_True by (apply Hsame; left).
  apply IH. intros b' Hb'. apply Hsame. by right.
Qed.

Lemma join_outer_same as_ bs cands :
  (∀ a b, a ∈ as_ → b ∈ bs → a = b) → join_outer as_ bs cands = Some cands.
Proof.
  induction as_ as [|a as_ IH]; intros Hsame; simpl; [done|].
  rewrite join_inner_same by (intros b Hb; apply Hsame; [left|done]). simpl.
  apply IH. intros a' b Ha' Hb. apply Hsame; [by right|done].
Qed.

(** X12.  Without two different patterns there is nothing to join: when
    all the patterns of [F_prev] are equal (in particular when there is
    none, or one), the join returns the empty list, and it does so even on
    patterns outside the data model, since no pair is examined. *)
Theorem join_step_no_pair (F_prev : list (list (gset string))) :
  (∀ p q, p ∈ F_prev → q ∈ F_prev → p = q) →
  join_step F_prev = Some [].
Proof.
  intros Hsame. unfold join_step, join_sorted.
  rewrite join_outer_same; [done|].
  intros a b Ha Hb. rewrite elem_of_sorted in Ha, Hb. by apply Hsame.
Qed.

Lemma join_step_no_pair_witness :
  join_step [[∅]; [∅]] = Some [].
Proof.
  apply join_step_no_pair.
  intros p q [->|[->|?%elem_of_nil]%elem_of_cons]%elem_of_cons
             [->|[->|?%elem_of_nil]%elem_of_cons]%elem_of_cons; done.
Defined.

(** X13.  The set of candidates does not depend on the order of
    [F_prev], nor on repetitions in it: two lists with the same patterns
    give results with the same candidates. *)
Theorem join_step_order_independent (F F' : list (list (gset string))) :
  (∀ p, p ∈ F → well_formed p) →
  (∀ p, p ∈ F ↔ p ∈ F') →
  ∃ out out', join_step F = Some out ∧ join_step F' = Some out' ∧
    ∀ c, c ∈ out ↔ c ∈ out'.
Proof.
  intros Hwf Hsame.
  destruct (join_step_spec F Hwf) as (_ & _ & out & Hout & _ & _ & Hmem).
  destruct (join_step_spec F') as (_ & _ & out' & Hout' & _ & _ & Hmem').
  { intros p Hp. by apply Hwf, Hsame. }
  exists out, out'. split; [done|]. split; [done|].
  intros c. rewrite Hmem, Hmem'. split.
  - intros (a & b & Ha & Hb & ?). exists a, b.
    split; [by apply Hsame|]. split; [by apply Hsame|done].
  - intros (a & b & Ha & Hb & ?). exists a, b.
    split; [by apply Hsame|]. split; [by apply Hsame|done].
Qed.

Lemma join_step_order_independent_witness :
  ∃ out out', join_step items_A_B = Some out ∧
    join_step [[{["B"]}]; [{["A"]}]; [{["B"]}]] = Some out' ∧
    ∀ c, c ∈ out ↔ c ∈ out'.
Proof.
  apply join_step_order_independent; [exact items_A_B_well_formed|].
  intros p. unfold items_A_B. rewrite !elem_of_cons. tauto.
Defined.

Lemma item_lt_asym x y : item_lt x y → item_lt y x → False.
Proof.
  intros Hxy Hyx. apply (item_lt_irrefl x).
  apply (item_le_lt_trans x y x); [by apply item_lt_le|done].
Qed.

(** X14.  A candidate comes from at most one ordered pair by each step:
    two pairs that give the same candidate by the S-step are the same
    pair, and likewise by the I-step, where the merged item is always the
    largest of the merged itemset. *)
Theorem join_pair_unique (a b a' b' c : list (gset string)) :
  (s_rule a b c → s_rule a' b' c → a = a' ∧ b = b')
  ∧ (i_rule a b c → i_rule a' b' c → a = a' ∧ b = b').
Proof.
  split.
  - intros (Htail & last_b & Hlast & ->) (Htail' & last_b' & Hlast' & Heq).
    apply app_inj_tail in Heq as [Heqa Heql]. split; [done|].
    rewrite (last_removelast b last_b Hlast), (last_removelast b' last_b' Hlast').
    by rewrite <- Htail, <- Htail', Heqa, Heql.
  - intros (Hrl & last_a & x & Ha & Hb & Hx & Habove & ->)
           (Hrl' & last_a' & x' & Ha' & Hb' & Hx' & Habove' & Heq).
    apply app_inj_tail in Heq as [Hl Hset].
    assert (x = x') as <-.
    { assert (x ∈ last_a' ∪ {[x']}) as [Hin|Hin%elem_of_singleton]%elem_of_union;
        [rewrite <- Hset; apply elem_of_union; right; by apply elem_of_singleton
        | |done].
      assert (x' ∈ last_a ∪ {[x]}) as [Hin'|Hin'%elem_of_singleton]%elem_of_union;
        [rewrite Hset; apply elem_of_union; right; by apply elem_of_singleton
        | |done].
      exfalso. apply (item_lt_asym x x'); [by apply Habove'|by apply Habove]. }
    assert (last_a = last_a') as <-.
    { apply set_eq. intros y. split; intros Hy.
      - assert (y ∈ last_a' ∪ {[x]}) as [?| ->%elem_of_singleton]%elem_of_union;
          [rewrite <- Hset; apply elem_of_union; by left|done|done].
      - assert (y ∈ last_a ∪ {[x]}) as [?| ->%elem_of_singleton]%elem_of_union;
          [rewrite Hset; apply elem_of_union; by left|done|done]. }
    rewrite (last_removelast a last_a Ha), (last_removelast a' last_a Ha').
    rewrite (last_removelast b {[x]} Hb), (last_removelast b' {[x]} Hb').
    rewrite <- Hrl, <- Hrl', Hl. done.
Qed.

Lemma join_pair_unique_witness :
  let pA : list (gset string) := [{["A"]}] in
  let pB : list (gset string) := [{["B"]}] in
  s_rule pA pB [{["A"]}; {["B"]}] ∧ i_rule pA pB [{["A"; "B"]}]
  ∧ (pA = pA ∧ pB = pB).
Proof.
  intros pA pB.
  assert (s_rule pA pB [{["A"]}; {["B"]}]) as Hs.
  { split; [done|]. by exists {["B"]}. }
  assert (i_rule pA pB [{["A"; "B"]}]) as Hi.
  { split; [done|]. exists {["A"]}, "B". split; [done|]. split; [done|].
    split; [by apply (bool_decide_unpack _)|]. split; [|done].
    intros y ->%elem_of_singleton. done. }
  split; [done|]. split; [done|].
  exact (proj1 (join_pair_unique pA pB pA pB _) Hs Hs).
Defined.

Lemma total_items_snoc p s : total_items (p ++ [s]) = (total_items p + size s)%nat.
Proof. unfold total_items. by rewrite flat_app, flat_singleton, length_app. Qed.

(** The item count of the pruned candidates. *)
Lemma join_prune_item_count_lemma (F_prev Ck : list (list (gset string)))
    (n : nat) :
  (∀ p, p ∈ F_prev → well_formed p ∧ total_items p = n) →
  join_step F_prev = Some Ck →
  ∀ c, c ∈ prune_step Ck (list_to_set F_prev) → total_items c = S n.
Proof.
  intros HF Hjoin c (Hc & _ & HB)%elem_of_prune_step.
  destruct (join_step_spec F_prev) as (_ & _ & out & Hout & _ & _ & Hmem).
  { intros p Hp. by destruct (HF p Hp). }
  assert (out = Ck) as -> by congruence.
  apply Hmem in Hc as (a & b & Ha & Hb & _ & [Hs|Hi]).
  - destruct Hs as (_ & last_b & Hlast & ->).
    destruct (HF a Ha) as [_ Hna]. destruct (HF b Hb) as [[_ Hne_b] _].
    assert (last_b ≠ ∅) as Hne by (by apply Hne_b, last_Some_elem_of).
    rewrite total_items_snoc, Hna.
    destruct (decide (size last_b = 1%nat)) as [->|H1]; [lia|].
    exfalso. destruct (set_choose_L last_b Hne) as [y Hy].
    pose proof (HB (length a) last_b y) as Hsub.
    rewrite list_lookup_middle in Hsub by done.
    specialize (Hsub eq_refl (size_gt_1 _ Hne H1) Hy).
    rewrite insert_app_r_alt, Nat.sub_diag in Hsub by lia. simpl in Hsub.
    apply elem_of_list_to_set in Hsub. destruct (HF _ Hsub) as [_ Hn].
    rewrite total_items_snoc, Hna in Hn.
    assert (size (last_b ∖ {[y]}) = (size last_b - 1)%nat) as Hsize.
    { rewrite size_difference by (by apply singleton_subseteq_l).
      by rewrite size_singleton. }
    pose proof (size_gt_1 _ Hne H1). lia.
  - apply i_rule_shape in Hi as (l & last_a & x & -> & _ & Hx & ->).
    destruct (HF _ Ha) as [_ Hna]. rewrite total_items_snoc in *.
    rewrite size_union by (by apply disjoint_singleton_r).
    rewrite size_singleton. lia.
Qed.

(** X15.  Join followed by prune raises the number of items by exactly
    one: when every pattern of [F_prev] is well formed and has [n] items,
    every candidate that survives the pruner has [n + 1] items. *)
Theorem join_prune_item_count (F_prev Ck : list (list (gset string)))
    (n : nat) :
  (∀ p, p ∈ F_prev → well_formed p ∧ total_items p = n) →
  join_step F_prev = Some Ck →
  ∀ c, c ∈ prune_step Ck (list_to_set F_prev) → total_items c = S n.
Proof. apply join_prune_item_count_lemma. Qed.

Lemma join_prune_item_count_witness :
  total_items [{["A"]}; {["B"]}] = 2%nat.
Proof.
  apply (join_prune_item_count items_A_B
           [[{["A"]}; {["B"]}]; [{["A"; "B"]}]; [{["B"]}; {["A"]}]] 1).
  - intros p Hp. split; [by apply items_A_B_well_formed|].
    unfold items_A_B in Hp.
    apply elem_of_cons in Hp as [->|[->|?%elem_of_nil]%elem_of_cons]; try done;
      by vm_compute.
  - by vm_compute.
  - apply (bool_decide_unpack _). by vm_compute.
Defined.


(** * More on the pruner *)

Lemma prune_step_filter Ck F :
  prune_step Ck F = List.filter (λ c, prune_A c F 0 c && prune_B c F 0 c) Ck.
Proof. unfold prune_step. by rewrite prune_loop_filter. Qed.

Lemma list_filter_sublist {A} (f : A → bool) (l : list A) :
  List.filter f l `sublist_of` l.
Proof.
  induction l as [|x l IH]; simpl; [constructor|].
  destruct (f x); by constructor.
Qed.

Lemma list_filter_sublist_mono {A} (f g : A → bool) (l : list A) :
  (∀ x, f x = true → g x = true) →
  List.filter f l `sublist_of` List.filter g l.
Proof.
  intros Hfg. induction l as [|x l IH]; simpl; [constructor|].
  destruct (f x) eqn:Hf.
  - rewrite (Hfg x Hf). by constructor.
  - destruct (g x); [by constructor|done].
Qed.

Lemma list_filter_idemp {A} (f : A → bool) (l : list A) :
  List.filter f (List.filter f l) = List.filter f l.
Proof.
  induction l as [|x l IH]; simpl; [done|].
  destruct (f x) eqn:Hf; simpl; [|done]. by rewrite Hf, IH.
Qed.

(** X16.  The pruner only removes candidates, treats each candidate on
    its own, and has nothing left to remove from its own result: the
    result is a sublist of the input, the result on a concatenation is the
    concatenation of the results, and pruning twice is pruning once. *)
Theorem prune_step_algebra (Ck Ck' : list (list (gset string)))
    (F_prev : gset (list (gset string))) :
  prune_step Ck F_prev `sublist_of` Ck
  ∧ prune_step (Ck ++ Ck') F_prev = prune_step Ck F_prev ++ prune_step Ck' F_prev
  ∧ prune_step (prune_step Ck F_prev) F_prev = prune_step Ck F_prev.
Proof.
  rewrite !prune_step_filter. split; [apply list_filter_sublist|].
  split; [apply List.filter_app|apply list_filter_idemp].
Qed.

(** X17.  A larger previous frequent set prunes less: every candidate
    kept against [F] is kept against any [F'] that includes [F]. *)
Theorem prune_step_monotone (Ck : list (list (gset string)))
    (F F' : gset (list (gset string))) :
  F ⊆ F' → prune_step Ck F `sublist_of` prune_step Ck F'.
Proof.
  intros Hsub. rewrite !prune_step_filter. apply list_filter_sublist_mono.
  intros c. rewrite !andb_true_iff, !prune_A_rule, !prune_B_rule.
  intros [HA HB]. split.
  - intros i iset Hi Hs. by apply Hsub, (HA i iset).
  - intros i iset x Hi Hs Hx. by apply Hsub, (HB i iset x).
Qed.

Lemma prune_step_monotone_witness :
  prune_step [[{["A"]}; {["B"]}]] {[ [{["A"]}] ]}
  `sublist_of` prune_step [[{["A"]}; {["B"]}]] {[ [{["A"]}]; [{["B"]}] ]}.
Proof.
  apply prune_step_monotone.
  intros p ->%elem_of_singleton. apply elem_of_union. left.
  by apply elem_of_singleton.
Defined.

(** X18.  Against an empty previous frequent set the pruner keeps
    exactly the candidates that give it nothing to check, those made of
    empty itemsets only (the empty tuple among them); every candidate
    with an item is removed. *)
Theorem prune_step_empty_set (Ck : list (list (gset string)))
    (c : list (gset string)) :
  c ∈ prune_step Ck ∅ ↔ c ∈ Ck ∧ Forall (λ iset, iset = ∅) c.
Proof.
  rewrite elem_of_prune_step. split.
  - intros (Hc & HA & HB). split; [done|].
    apply Forall_lookup. intros i iset Hi.
    destruct (decide (iset = ∅)) as [|Hne]; [done|]. exfalso.
    destruct (decide (size iset = 1%nat)) as [H1|H1].
    + by apply (not_elem_of_empty (C := gset (list (gset string))) (delete i c)),
                (HA i iset).
    + destruct (set_choose_L iset Hne) as [x Hx].
      by apply (not_elem_of_empty (C := gset (list (gset string)))
                  (<[i := iset ∖ {[x]}]> c)),
               (HB i iset x Hi (size_gt_1 _ Hne H1)).
  - intros (Hc & Hall). split; [done|]. rewrite Forall_lookup in Hall. split.
    + intros i iset Hi Hs. rewrite (Hall i iset Hi) in Hs.
      by rewrite size_empty in Hs.
    + intros i iset x Hi Hs. rewrite (Hall i iset Hi) in Hs.
      rewrite size_empty in Hs. lia.
Qed.


(** * The scan of the frequent items *)

Lemma elem_of_seen_items item seq :
  item ∈ seen_items seq ↔ occurs_in item seq = true.
Proof.
  unfold seen_items, occurs_in.
  assert (∀ acc : gset string,
    item ∈ foldl (λ seen ev, seen ∪ ev.2) acc seq ↔
    item ∈ acc ∨ existsb (λ ev, bool_decide (item ∈ ev.2)) seq = true) as Hgen.
  { induction seq as [|ev seq IH]; intros acc; simpl.
    - split; [by left|]. by intros [?|?].
    - rewrite IH, elem_of_union, orb_true_iff, bool_decide_eq_true. tauto. }
  rewrite Hgen. split; [|by right]. intros [?%not_elem_of_empty|?]; done.
Qed.

Section count_seen.
Context (item : string).

(** Counting the items seen in one window: every item of the list gains
    one, where it is listed once. *)
Lemma count_seen_get d seen :
  NoDup seen →
  PyDict.get item (count_seen d seen) =
  if decide (item ∈ seen) then Some (default 0 (PyDict.get item d) + 1)
  else PyDict.get item d.
Proof.
  unfold count_seen. intros Hnd. revert d.
  induction Hnd as [|x seen Hx Hnd IH]; intros d; simpl; [done|].
  rewrite IH. destruct (decide (item ∈ seen)) as [Hin|Hnin].
  - rewrite decide_True by (by right).
    rewrite get_set_ne by (intros ->; done). done.
  - destruct (decide (x = item)) as [->|Hne].
    + rewrite decide_True by left. by rewrite get_set_eq.
    + rewrite decide_False by (intros [?|?]%elem_of_cons; done).
      by rewrite get_set_ne.
Qed.
End count_seen.

Lemma count_seen_keys d seen :
  NoDup (PyDict.keys d) → NoDup (PyDict.keys (count_seen d seen)).
Proof.
  unfold count_seen. revert d. induction seen as [|x seen IH]; intros d Hd;
    simpl; [done|].
  by apply IH, NoDup_keys_set.
Qed.

Lemma scan_items_snoc DB seq :
  scan_items (DB ++ [seq]) =
  count_seen (scan_items DB) (elements (seen_items seq)).
Proof. unfold scan_items. by rewrite foldl_snoc. Qed.

Lemma windows_with_item_snoc DB seq item :
  windows_with_item (DB ++ [seq]) item =
  windows_with_item DB item + (if occurs_in item seq then 1 else 0).
Proof.
  unfold windows_with_item. rewrite List.filter_app, length_app. simpl.
  destruct (occurs_in item seq); simpl; lia.
Qed.

Lemma windows_with_item_nonneg DB item : 0 ≤ windows_with_item DB item.
Proof. unfold windows_with_item. lia. Qed.

(** The counter of an item is the number of windows in which it occurs;
    an item that occurs nowhere has no counter. *)
Lemma scan_items_get DB item :
  PyDict.get item (scan_items DB) =
  if decide (windows_with_item DB item = 0) then None
  else Some (windows_with_item DB item).
Proof.
  induction DB as [|seq DB IH] using rev_ind; [done|].
  rewrite scan_items_snoc, windows_with_item_snoc.
  rewrite count_seen_get by apply NoDup_elements. rewrite IH.
  pose proof (windows_with_item_nonneg DB item).
  destruct (decide (item ∈ elements (seen_items seq))) as [Hin|Hnin].
  - apply elem_of_elements, elem_of_seen_items in Hin. rewrite Hin.
    rewrite (decide_False (P := windows_with_item DB item + 1 = 0)) by lia.
    destruct (decide (windows_with_item DB item = 0)) as [->|?]; done.
  - rewrite elem_of_elements, elem_of_seen_items in Hnin.
    apply not_true_is_false in Hnin. rewrite Hnin.
    by rewrite Z.add_0_r.
Qed.

Lemma scan_items_keys DB : NoDup (PyDict.keys (scan_items DB)).
Proof.
  induction DB as [|seq DB IH] using rev_ind; [constructor|].
  rewrite scan_items_snoc. by apply count_seen_keys.
Qed.

(** X19.  The scan counts every item once per window in which it occurs,
    however many events of the window hold it: the counter of an item is
    the number of windows in which it occurs, an item that occurs in no
    window has no counter, and no item has two. *)
Theorem scan_items_counts_windows (DB : list (list (Z * gset string)))
    (item : string) :
  NoDup (PyDict.keys (scan_items DB))
  ∧ PyDict.get item (scan_items DB) =
    if decide (windows_with_item DB item = 0) then None
    else Some (windows_with_item DB item).
Proof. split; [apply scan_items_keys|apply scan_items_get]. Qed.

Lemma occurs_in_superset item seq :
  any_superset {[item]} seq = occurs_in item seq.
Proof.
  unfold any_superset, occurs_in. induction seq as [|ev seq IH]; simpl; [done|].
  rewrite IH. f_equal. apply bool_decide_ext. apply singleton_subseteq_l.
Qed.

Lemma windows_containing_item DB min_gap max_gap win_size item :
  windows_containing DB min_gap max_gap win_size [{[item]}]
  = windows_with_item DB item.
Proof.
  unfold windows_containing, windows_with_item. f_equal. f_equal.
  induction DB as [|seq DB IH]; simpl; [done|].
  assert (contained min_gap max_gap win_size [{[item]}] seq = occurs_in item seq)
    as ->; [|by rewrite IH].
  unfold contained. rewrite contains_single_itemset_lemma, occurs_in_superset.
  destruct (occurs_in item seq).
  - by rewrite bool_decide_eq_true_2.
  - by rewrite bool_decide_eq_false_2.
Qed.

(** X20.  The two ways of counting agree on single items: for an item
    that occurs in the database, the support counter run on the one-item
    pattern returns the counter that the scan of the driver gives the
    item, whatever the gap and window configuration. *)
Theorem scan_agrees_with_support_counter (DB : list (list (Z * gset string)))
    (item : string) (cnt min_gap max_gap : Z) (win_size : option Z) :
  PyDict.get item (scan_items DB) = Some cnt →
  ∃ sup, count_support_db_int DB [[{[item]}]] min_gap max_gap win_size = Some sup ∧
         PyDict.get [{[item]}] sup = Some cnt.
Proof.
  rewrite scan_items_get.
  destruct (decide (windows_with_item DB item = 0)); [done|]. intros [= <-].
  destruct (count_support_spec DB [[{[item]}]] min_gap max_gap win_size)
    as (sup & Hrun & _ & _ & Hget).
  exists sup. split; [done|]. rewrite Hget by left.
  rewrite decide_False by done. rewrite occurrences_cons, occurrences_nil.
  rewrite decide_True by done. rewrite windows_containing_item.
  f_equal. lia.
Qed.

Lemma scan_agrees_with_support_counter_witness :
  ∃ sup, count_support_db_int [scenario_window] [[{["A_1"]}]] 0 5 None = Some sup ∧
         PyDict.get [{["A_1"]}] sup = Some 1.
Proof. apply scan_agrees_with_support_counter. by vm_compute. Defined.

Lemma get_Some_elem_of {K V} `{EqDecision K} (d : list (K * V)) k v :
  PyDict.get k d = Some v → (k, v) ∈ d.
Proof.
  induction d as [|[k' v'] d IH]; simpl; [done|].
  destruct (decide (k' = k)) as [->|Hne].
  - intros [= ->]. left.
  - intros Hget. right. by apply IH.
Qed.

Lemma elem_of_get_Some {K V} `{EqDecision K} (d : list (K * V)) k v :
  NoDup (PyDict.keys d) → (k, v) ∈ d → PyDict.get k d = Some v.
Proof.
  unfold PyDict.keys. induction d as [|[k' v'] d IH]; simpl.
  - by intros _ ?%elem_of_nil.
  - intros [Hk' Hnd]%NoDup_cons [[= -> ->]|Hin]%elem_of_cons.
    + by rewrite decide_True.
    + rewrite decide_False; [by apply IH|]. intros ->. apply Hk'.
      apply list_elem_of_fmap. by exists (k, v).
Qed.

(** The patterns of [F1]. *)
Lemma F1_of_spec (DB : list (list (Z * gset string)))
    (min_sup_count : Z) (p : list (gset string)) :
  NoDup (F1_of (scan_items DB) min_sup_count)
  ∧ (p ∈ F1_of (scan_items DB) min_sup_count ↔
     ∃ item, p = [{[item]}] ∧ 1 ≤ windows_with_item DB item ∧
             min_sup_count ≤ windows_with_item DB item).
Proof.
  split.
  - unfold F1_of. pose proof (scan_items_keys DB) as Hnd.
    unfold PyDict.keys in Hnd.
    induction (scan_items DB) as [|[item sup] d IH]; simpl; [constructor|].
    apply NoDup_cons in Hnd as [Hitem Hnd].
    destruct (decide (sup >= min_sup_count)); [|by apply IH].
    simpl. constructor; [|by apply IH].
    intros ([item' sup'] & Hin & Heq)%list_elem_of_omap.
    destruct (decide (sup' >= min_sup_count)); [|done].
    assert (({[item']} : gset string) = {[item]}) as Heq' by congruence.
    apply singleton_inj in Heq' as ->.
    apply Hitem. apply list_elem_of_fmap. by exists (item, sup').
  - rewrite elem_of_F1_of. pose proof (windows_with_item_nonneg DB).
    split.
    + intros (item & sup & Hin & Hle & ->). exists item. split; [done|].
      apply elem_of_get_Some in Hin; [|apply scan_items_keys].
      rewrite scan_items_get in Hin. specialize (H item).
      destruct (decide (windows_with_item DB item = 0)); [done|].
      injection Hin as <-. lia.
    + intros (item & -> & H1 & Hle). exists item, (windows_with_item DB item).
      split; [|done]. apply get_Some_elem_of. rewrite scan_items_get.
      by rewrite decide_False by lia.
Qed.

(** X21.  The frequent items: a pattern enters [F1] exactly when it is a
    single item that occurs in the database and whose number of windows
    reaches the threshold; each such pattern enters once.  With a
    threshold of zero or one these are all the items that occur. *)
Theorem F1_frequent_items (DB : list (list (Z * gset string)))
    (min_sup_count : Z) (p : list (gset string)) :
  NoDup (F1_of (scan_items DB) min_sup_count)
  ∧ (p ∈ F1_of (scan_items DB) min_sup_count ↔
     ∃ item, p = [{[item]}] ∧ 1 ≤ windows_with_item DB item ∧
             min_sup_count ≤ windows_with_item DB item).
Proof. apply F1_of_spec. Qed.


(** * The result of [run] *)

Lemma set_absent {K V} `{EqDecision K} (d : list (K * V)) k v :
  k ∉ PyDict.keys d → PyDict.set k v d = d ++ [(k, v)].
Proof.
  unfold PyDict.keys. induction d as [|[k' v'] d IH]; simpl; [done|].
  intros [Hne Hk]%not_elem_of_cons.
  rewrite decide_False by done. by rewrite IH.
Qed.

Lemma keys_app {K V} (d1 d2 : list (K * V)) :
  PyDict.keys (d1 ++ d2) = PyDict.keys d1 ++ PyDict.keys d2.
Proof. unfold PyDict.keys. apply fmap_app. Qed.

(** The recording of a level lists its patterns in order, each with the
    information built from its count. *)
Lemma level_k_entries sup_map db_size Fk acc :
  NoDup Fk → (∀ p, p ∈ Fk → p ∉ PyDict.keys acc) →
  (∀ p, p ∈ Fk → p ∈ PyDict.keys sup_map) →
  level_k sup_map db_size Fk acc =
  Some (acc ++ ((λ p, (p, mk_info (default 0 (PyDict.get p sup_map)) db_size))
                <$> Fk)).
Proof.
  intros Hnd. revert acc.
  induction Hnd as [|p Fk Hp Hnd IH]; intros acc Hacc Hkeys; simpl.
  - by rewrite app_nil_r.
  - destruct (proj2 (get_Some_keys sup_map p)) as [cnt Hcnt]; [apply Hkeys; left|].
    rewrite Hcnt. simpl. rewrite set_absent by (apply Hacc; left).
    rewrite IH.
    + by rewrite <- app_assoc.
    + intros q Hq. rewrite keys_app, elem_of_app.
      intros [Hin|Hin]; [by apply (Hacc q); [right|]|].
      apply list_elem_of_singleton in Hin as ->. done.
    + intros q Hq. apply Hkeys. by right.
Qed.

Lemma level1_entries item_support db_size F1 acc :
  NoDup F1 → (∀ p, p ∈ F1 → p ∉ PyDict.keys acc) →
  (∀ p, p ∈ F1 → ∃ item, p = [{[item]}] ∧ item ∈ PyDict.keys item_support) →
  ∃ lvl, level1 item_support db_size F1 acc = Some (acc ++ lvl) ∧
    PyDict.keys lvl = F1 ∧
    ∀ p inf, (p, inf) ∈ lvl →
      ∃ item cnt, p = [{[item]}] ∧ PyDict.get item item_support = Some cnt ∧
                  inf = mk_info cnt db_size.
Proof.
  intros Hnd. revert acc.
  induction Hnd as [|p F1 Hp Hnd IH]; intros acc Hacc Hitems; simpl.
  - exists []. split; [by rewrite app_nil_r|]. split; [done|].
    by intros p inf ?%elem_of_nil.
  - destruct (Hitems p) as (item & -> & Hitem); [left|]. simpl.
    rewrite elements_singleton. simpl.
    destruct (proj2 (get_Some_keys item_support item) Hitem) as [cnt Hcnt].
    rewrite Hcnt. simpl. rewrite set_absent by (apply Hacc; left).
    destruct (IH (acc ++ [([{[item]}], mk_info cnt db_size)]))
      as (lvl & Hrun & Hkeys & Hent).
    + intros q Hq. rewrite keys_app, elem_of_app.
      intros [Hin|Hin]; [by apply (Hacc q); [right|]|].
      apply list_elem_of_singleton in Hin as ->. done.
    + intros q Hq. apply Hitems. by right.
    + exists (([{[item]}], mk_info cnt db_size) :: lvl).
      split; [by rewrite Hrun, <- app_assoc|].
      split; [unfold PyDict.keys in *; simpl; by f_equal|].
      intros q inf [[= -> ->]|Hin]%elem_of_cons; [by exists item, cnt|].
      by apply Hent.
Qed.

Lemma NoDup_frequent sup_map msc :
  NoDup (PyDict.keys sup_map) → NoDup (frequent sup_map msc).
Proof.
  unfold frequent, PyDict.keys.
  induction sup_map as [|[p sup] d IH]; simpl; [constructor|].
  intros [Hp Hnd]%NoDup_cons.
  destruct (decide (sup >= msc)); [|by apply IH].
  simpl. constructor; [|by apply IH].
  intros ([p' sup'] & Hin & Heq)%list_elem_of_omap.
  destruct (decide (sup' >= msc)); [|done]. injection Heq as ->.
  apply Hp. apply list_elem_of_fmap. by exists (p, sup').
Qed.

Lemma NoDup_prune_step Ck F : NoDup Ck → NoDup (prune_step Ck F).
Proof. rewrite prune_step_filter. apply NoDup_list_filter. Qed.

Lemma join_step_nil : join_step [] = Some [].
Proof. done. Qed.

(** One iteration of the loop, unfolded. *)
Lemma level_loop_unfold fuel DB db_size msc min_gap max_gap win_size
    p F k results :
  level_loop (S fuel) DB db_size msc min_gap max_gap win_size (p :: F) k results =
  match join_step (p :: F) with
  | None => Raised
  | Some Ck =>
    match prune_step Ck (list_to_set (p :: F)) with
    | [] => Returned results
    | _ :: _ =>
      match count_support_db_int DB (prune_step Ck (list_to_set (p :: F)))
              min_gap max_gap win_size with
      | None => Raised
      | Some sup_map =>
        match frequent sup_map msc with
        | [] => Returned results
        | _ :: _ =>
          match level_k sup_map db_size (frequent sup_map msc) [] with
          | None => Raised
          | Some lvl =>
            level_loop fuel DB db_size msc min_gap max_gap win_size
              (frequent sup_map msc) (k + 1) (PyDict.set k lvl results)
          end
        end
      end
    end
  end.
Proof.
  simpl. destruct (join_step (p :: F)) as [Ck|]; [|done].
  destruct (prune_step Ck _) as [|c Ck'] eqn:HCk; [done|].
  destruct (count_support_db_int _ _ _ _ _) as [sup_map|]; [|done].
  destruct (frequent sup_map msc) as [|q Fk] eqn:HFk; [done|].
  done.
Qed.

Section results.
Context (DB : list (list (Z * gset string))) (db_size min_sup_count : Z)
        (min_gap max_gap : Z) (win_size : option Z).

Local Notation "'wc'" := (windows_containing DB min_gap max_gap win_size).

(** The candidates that pass the pruner, when the level before is
    uniform. *)
Lemma pruned_candidates F n Ck :
  (∀ p, p ∈ F → well_formed p ∧ total_items p = n) →
  join_step F = Some Ck →
  NoDup (prune_step Ck (list_to_set F))
  ∧ ∀ c, c ∈ prune_step Ck (list_to_set F) →
         well_formed c ∧ total_items c = S n.
Proof.
  intros HF Hjoin.
  destruct (join_step_spec F) as (_ & _ & out & Hout & _ & Hnd & Hmem).
  { intros p Hp. by destruct (HF p Hp). }
  assert (out = Ck) as -> by congruence.
  split; [by apply NoDup_prune_step|]. intros c Hc. split.
  - apply elem_of_prune_step in Hc as (Hc & _).
    apply Hmem in Hc as (a & b & Ha & Hb & _ & Hrule).
    apply (rule_well_formed a b c); [by apply HF..|done].
  - by apply (join_prune_item_count_lemma F Ck n).
Qed.

(** The support map of the pruned candidates and its frequent part. *)
Lemma frequent_candidates F n Ck sup_map :
  (∀ p, p ∈ F → well_formed p ∧ total_items p = n) →
  join_step F = Some Ck →
  count_support_db_int DB (prune_step Ck (list_to_set F))
    min_gap max_gap win_size = Some sup_map →
  NoDup (frequent sup_map min_sup_count)
  ∧ (∀ c, c ∈ frequent sup_map min_sup_count ↔ next_frequent DB min_sup_count
            min_gap max_gap win_size F c)
  ∧ (∀ c, c ∈ frequent sup_map min_sup_count →
          PyDict.get c sup_map = Some (wc c) ∧ min_sup_count ≤ wc c ∧
          well_formed c ∧ total_items c = S n).
Proof.
  intros HF Hjoin Hcount.
  destruct (pruned_candidates F n Ck HF Hjoin) as [Hnd Hpruned].
  destruct (count_support_spec DB (prune_step Ck (list_to_set F))
              min_gap max_gap win_size) as (sup & Hsup & HndK & Hkeys & Hget).
  assert (sup = sup_map) as -> by congruence.
  assert (∀ c, c ∈ prune_step Ck (list_to_set F) →
               PyDict.get c sup_map = Some (wc c)) as Hwc.
  { intros c Hc. rewrite (Hget c Hc).
    destruct (Hpruned c Hc) as [[Hne _] _]. rewrite decide_False by done.
    rewrite occurrences_NoDup by done. f_equal. lia. }
  assert (∀ c, c ∈ frequent sup_map min_sup_count ↔
               c ∈ prune_step Ck (list_to_set F) ∧ min_sup_count ≤ wc c) as Hfreq.
  { intros c. rewrite elem_of_frequent. split.
    - intros (s & Hin & Hle).
      assert (c ∈ prune_step Ck (list_to_set F)) as Hc.
      { apply Hkeys. unfold PyDict.keys. apply list_elem_of_fmap.
        by exists (c, s). }
      split; [done|]. apply elem_of_get_Some in Hin; [|done].
      rewrite (Hwc c Hc) in Hin. by injection Hin as ->.
    - intros [Hc Hle]. exists (wc c). split; [|done].
      by apply get_Some_elem_of, Hwc. }
  split; [by apply NoDup_frequent|]. split.
  - intros c. rewrite Hfreq. unfold next_frequent. split.
    + intros [? ?]. by exists Ck.
    + intros (Ck' & HCk' & ? & ?). assert (Ck' = Ck) as -> by congruence. done.
  - intros c [Hc Hle]%Hfreq. split; [by apply Hwc|]. split; [done|].
    by apply Hpruned.
Qed.

(** The loop appends to the result the levels after the one it starts
    from. *)
Lemma level_loop_levels fuel :
  ∀ F n k results r,
    level_loop fuel DB db_size min_sup_count min_gap max_gap win_size
      F k results = Returned r →
    (∀ p, p ∈ F → well_formed p ∧ total_items p = n) →
    k = Z.of_nat (S n) →
    (∀ k', k' ∈ PyDict.keys results → k' < k) →
    ∃ new, r = results ++ new ∧
           levels_ok DB db_size min_sup_count min_gap max_gap win_size F n new.
Proof.
  induction fuel as [|fuel IH]; intros F n k results r Hrun HF Hk Hkeys.
  - destruct F as [|p F]; [|done]. injection Hrun as <-.
    exists []. split; [by rewrite app_nil_r|].
    intros c (Ck & [= <-] & Hc & _). by apply elem_of_nil in Hc.
  - destruct F as [|p F].
    { injection Hrun as <-. exists []. split; [by rewrite app_nil_r|].
      intros c (Ck & [= <-] & Hc & _). by apply elem_of_nil in Hc. }
    rewrite level_loop_unfold in Hrun.
    destruct (join_step (p :: F)) as [Ck|] eqn:Hjoin; [|done].
    destruct (prune_step Ck (list_to_set (p :: F))) as [|c0 Ck'] eqn:Hpruned.
    { injection Hrun as <-. exists []. split; [by rewrite app_nil_r|].
      intros c (Ck2 & HCk2 & Hc & _). assert (Ck2 = Ck) as -> by congruence.
      rewrite Hpruned in Hc. by apply elem_of_nil in Hc. }
    destruct (count_support_db_int DB (c0 :: Ck') min_gap max_gap win_size)
      as [sup_map|] eqn:Hcount; [|done].
    rewrite <- Hpruned in Hcount.
    destruct (frequent_candidates (p :: F) n Ck sup_map HF Hjoin Hcount)
      as (HndF & Hnext & Hfacts).
    destruct (frequent sup_map min_sup_count) as [|q Fk] eqn:HFk.
    { injection Hrun as <-. exists []. split; [by rewrite app_nil_r|].
      intros c Hc%Hnext. by apply elem_of_nil in Hc. }
    pose (lvl := (λ p0, (p0, mk_info (default 0 (PyDict.get p0 sup_map)) db_size))
                 <$> q :: Fk).
    assert (level_k sup_map db_size (q :: Fk) [] = Some lvl) as Hlvl.
    { apply (level_k_entries sup_map db_size (q :: Fk) []);
        [done|by intros ? _ ?%elem_of_nil|].
      intros c Hc. apply get_Some_keys. destruct (Hfacts c Hc) as [-> _].
      by eexists. }
    assert (PyDict.keys lvl = q :: Fk) as Hkeys_lvl.
    { unfold PyDict.keys, lvl. rewrite <- list_fmap_compose.
      apply (list_fmap_id (q :: Fk)). }
    assert (Forall (entry_ok DB db_size min_sup_count min_gap max_gap win_size
                      (S n)) lvl) as Hent.
    { apply Forall_forall. intros [c inf] Hin.
      apply list_elem_of_fmap in Hin as (c' & [= -> ->] & Hc).
      destruct (Hfacts c' Hc) as (Hget & Hle & Hwf & Htot).
      rewrite Hget. done. }
    assert (lvl ≠ []) as Hne by done.
    clearbody lvl. rewrite Hlvl in Hrun.
    rewrite set_absent in Hrun
      by (intros Hin; specialize (Hkeys k Hin); lia).
    apply (IH _ (S n)) in Hrun as (new & -> & Hnew).
    + exists ((k, lvl) :: new). split; [by rewrite <- app_assoc|]. simpl.
      rewrite Hkeys_lvl.
      split; [done|]. split; [done|]. split; [done|].
      split; [done|]. split; [done|]. done.
    + intros c Hc. destruct (Hfacts c Hc) as (_ & _ & ? & ?). done.
    + lia.
    + intros k'. rewrite keys_app, elem_of_app.
      intros [Hin|Hin%list_elem_of_singleton]; [specialize (Hkeys k' Hin)|];
        simpl in *; lia.
Qed.
End results.


Section run_results.
Context (DB : list (list (Z * gset string))) (min_sup_count : Z)
        (min_gap max_gap : Z) (win_size : option Z).

Local Notation "'wc'" := (windows_containing DB min_gap max_gap win_size).
Local Notation "'db_size'" := (Z.of_nat (length DB)).

(** The result of [run] on a non-empty database: level one, made of the
    frequent items, then the levels of the loop. *)
Lemma run_result fuel min_sup_pct r :
  run fuel DB min_sup_pct min_gap max_gap win_size = Returned r →
  DB ≠ [] →
  GSP.min_sup_count min_sup_pct db_size = Some min_sup_count →
  ∃ lvl1 new,
    r = (1, lvl1) :: new ∧
    PyDict.keys lvl1 = F1_of (scan_items DB) min_sup_count ∧
    NoDup (PyDict.keys lvl1) ∧
    Forall (entry_ok DB db_size min_sup_count min_gap max_gap win_size 1) lvl1 ∧
    levels_ok DB db_size min_sup_count min_gap max_gap win_size
      (PyDict.keys lvl1) 1 new.
Proof.
  intros Hrun HDB Hmsc. unfold run in Hrun.
  rewrite decide_False in Hrun by (destruct DB; [done|simpl; lia]).
  rewrite Hmsc in Hrun.
  assert (∀ p, p ∈ F1_of (scan_items DB) min_sup_count →
            ∃ item, p = [{[item]}] ∧ 1 ≤ windows_with_item DB item ∧
                    min_sup_count ≤ windows_with_item DB item) as HF1.
  { intros p Hp. by apply (F1_of_spec DB min_sup_count p). }
  destruct (level1_entries (scan_items DB) db_size
              (F1_of (scan_items DB) min_sup_count) [])
    as (lvl1 & Hlvl1 & Hkeys & Hent).
  { apply (F1_of_spec DB min_sup_count []). }
  { by intros ? _ ?%elem_of_nil. }
  { intros p (item & -> & H1 & _)%HF1. exists item. split; [done|].
    apply get_Some_keys. rewrite scan_items_get.
    rewrite decide_False by lia. by eexists. }
  rewrite Hlvl1 in Hrun. simpl in Hrun.
  assert (∀ p, p ∈ PyDict.keys lvl1 → well_formed p ∧ total_items p = 1%nat)
    as Hwf.
  { intros p Hp. rewrite Hkeys in Hp. split.
    - by destruct (F1_level_inv (scan_items DB) min_sup_count p Hp).
    - apply HF1 in Hp as (item & -> & _). unfold total_items.
      by rewrite flat_singleton, elements_singleton. }
  rewrite <- Hkeys in Hrun.
  apply (level_loop_levels DB db_size min_sup_count min_gap max_gap win_size
           fuel _ 1%nat) in Hrun as (new & -> & Hnew); [|done|done|].
  2:{ intros k' ->%list_elem_of_singleton. done. }
  exists lvl1, new. split; [done|]. split; [done|].
  split; [rewrite Hkeys; apply (F1_of_spec DB min_sup_count [])|].
  split; [|done].
  apply Forall_forall. intros [p inf] Hin.
  destruct (Hent p inf Hin) as (item & cnt & -> & Hcnt & ->).
  assert ([{[item]}] ∈ PyDict.keys lvl1) as Hp.
  { unfold PyDict.keys. apply list_elem_of_fmap. by exists ([{[item]}], mk_info cnt db_size). }
  destruct (Hwf _ Hp) as [? ?].
  rewrite Hkeys in Hp. apply HF1 in Hp as (item' & Heq & H1 & Hle).
  assert (({[item']} : gset string) = {[item]}) as Heq' by congruence.
  apply singleton_inj in Heq' as ->.
  rewrite scan_items_get in Hcnt. rewrite decide_False in Hcnt by lia.
  injection Hcnt as <-.
  unfold entry_ok. simpl. rewrite windows_containing_item. done.
Qed.

Lemma levels_ok_lookup F n new j k lvl :
  levels_ok DB db_size min_sup_count min_gap max_gap win_size F n new →
  new !! j = Some (k, lvl) →
  k = Z.of_nat (S n + j) ∧ lvl ≠ [] ∧ NoDup (PyDict.keys lvl) ∧
  Forall (entry_ok DB db_size min_sup_count min_gap max_gap win_size (S n + j))
    lvl.
Proof.
  revert F n j. induction new as [|[k0 lvl0] new IH]; intros F n j Hok Hj;
    [done|].
  simpl in Hok. destruct Hok as (Hk0 & Hne & Hnd & Hent & _ & Hrest).
  destruct j as [|j].
  - injection Hj as <- <-. by rewrite Nat.add_0_r.
  - simpl in Hj. destruct (IH _ _ _ Hrest Hj) as (? & ? & ? & ?).
    by replace (S n + S j)%nat with (S (S n) + j)%nat by lia.
Qed.

Lemma levels_ok_next k0 lvl0 n new i k lvl c :
  levels_ok DB db_size min_sup_count min_gap max_gap win_size
    (PyDict.keys lvl0) n new →
  ((k0, lvl0) :: new) !! i = Some (k, lvl) →
  (∃ k' lvl', ((k0, lvl0) :: new) !! S i = Some (k', lvl') ∧
              c ∈ PyDict.keys lvl') ↔
  next_frequent DB min_sup_count min_gap max_gap win_size (PyDict.keys lvl) c.
Proof.
  revert k0 lvl0 n i. induction new as [|[k1 lvl1] new IH];
    intros k0 lvl0 n i Hok Hi.
  - destruct i as [|i]; [|done]. injection Hi as <- <-. simpl in *. split.
    + by intros (? & ? & ? & _).
    + intros Hc. by apply Hok in Hc.
  - simpl in Hok. destruct Hok as (_ & _ & _ & _ & Hnext & Hrest).
    destruct i as [|i].
    + injection Hi as <- <-. simpl. rewrite <- Hnext. split.
      * by intros (? & ? & [= <- <-] & ?).
      * intros Hc. by exists k1, lvl1.
    + apply (IH k1 lvl1 (S n) i Hrest Hi).
Qed.
End run_results.

(** X22.  The shape of the result on a non-empty database: the levels
    are numbered 1, 2, 3, ... in the order they are stored, no pattern is
    listed twice in a level, and every level after the first holds at
    least one pattern. *)
Theorem run_result_shape (fuel : nat) (DB : list (list (Z * gset string)))
    (min_sup_pct : spec_float) (min_gap max_gap : Z) (win_size : option Z)
    (r : list (Z * list (list (gset string) * info))) :
  run fuel DB min_sup_pct min_gap max_gap win_size = Returned r →
  DB ≠ [] →
  r ≠ [] ∧
  ∀ i k lvl, r !! i = Some (k, lvl) →
    k = Z.of_nat (S i) ∧ NoDup (PyDict.keys lvl) ∧ (i ≠ 0%nat → lvl ≠ []).
Proof.
  intros Hrun HDB.
  destruct (min_sup_count min_sup_pct (Z.of_nat (length DB))) as [msc|] eqn:Hmsc.
  2:{ unfold run in Hrun.
      rewrite decide_False in Hrun by (destruct DB; [done|simpl; lia]).
      by rewrite Hmsc in Hrun. }
  destruct (run_result DB msc min_gap max_gap win_size fuel min_sup_pct r
              Hrun HDB Hmsc) as (lvl1 & new & -> & _ & Hnd & _ & Hnew).
  split; [done|]. intros [|j] k lvl Hi.
  - by injection Hi as <- <-.
  - simpl in Hi.
    destruct (levels_ok_lookup DB msc min_gap max_gap win_size _ _ _ _ _ _
                Hnew Hi) as (-> & Hne & Hnd' & _).
    done.
Qed.

Lemma run_result_shape_witness :
  scenario_result ≠ [] ∧
  ∀ i k lvl, scenario_result !! i = Some (k, lvl) →
    k = Z.of_nat (S i) ∧ NoDup (PyDict.keys lvl) ∧ (i ≠ 0%nat → lvl ≠ []).
Proof.
  apply (run_result_shape 3 [scenario_window] (Float64.of_int 50) 0 5 None);
    [by vm_compute|done].
Defined.

(** X23.  Every entry of the result is sound: a pattern stored at the
    level numbered [i + 1] is well formed and has exactly [i + 1] items,
    the number of windows that contain it reaches the threshold, and the
    stored information is built from that number and the size of the
    database. *)
Theorem run_result_sound (fuel : nat) (DB : list (list (Z * gset string)))
    (min_sup_pct : spec_float) (msc min_gap max_gap : Z) (win_size : option Z)
    (r : list (Z * list (list (gset string) * info))) :
  run fuel DB min_sup_pct min_gap max_gap win_size = Returned r →
  DB ≠ [] →
  min_sup_count min_sup_pct (Z.of_nat (length DB)) = Some msc →
  ∀ i k lvl p inf, r !! i = Some (k, lvl) → (p, inf) ∈ lvl →
    well_formed p ∧ total_items p = S i
    ∧ msc ≤ windows_containing DB min_gap max_gap win_size p
    ∧ inf = mk_info (windows_containing DB min_gap max_gap win_size p)
                    (Z.of_nat (length DB)).
Proof.
  intros Hrun HDB Hmsc i k lvl p inf Hi Hin.
  destruct (run_result DB msc min_gap max_gap win_size fuel min_sup_pct r
              Hrun HDB Hmsc) as (lvl1 & new & -> & _ & _ & Hent & Hnew).
  assert (entry_ok DB (Z.of_nat (length DB)) msc min_gap max_gap win_size
            (S i) (p, inf)) as (? & ? & ? & ?); [|done].
  destruct i as [|j].
  - injection Hi as <- <-. rewrite Forall_forall in Hent. by apply Hent.
  - simpl in Hi.
    destruct (levels_ok_lookup DB msc min_gap max_gap win_size _ _ _ _ _ _
                Hnew Hi) as (_ & _ & _ & Hent').
    rewrite Forall_forall in Hent'. by apply Hent'.
Qed.

Lemma run_result_sound_witness :
  well_formed [{["A_1"]}] ∧ total_items [{["A_1"]}] = 1%nat
  ∧ 1 ≤ windows_containing [scenario_window] 0 5 None [{["A_1"]}]
  ∧ mk_info 1 1
    = mk_info (windows_containing [scenario_window] 0 5 None [{["A_1"]}])
              (Z.of_nat (length [scenario_window])).
Proof.
  apply (run_result_sound 3 [scenario_window] (Float64.of_int 50) 1 0 5 None
           scenario_result ltac:(by vm_compute) ltac:(done)
           ltac:(by vm_compute) 0%nat 1 scenario_level_one).
  - by vm_compute.
  - vm_compute. left.
Defined.

(** X24.  The levels are complete and anti-monotone: the patterns stored
    at the level after a stored level are exactly the candidates joined
    from the patterns of that level that pass rule A and rule B of the
    pruner against them and whose number of containing windows reaches the
    threshold; when no level follows, there is no such candidate. *)
Theorem run_result_next_level (fuel : nat) (DB : list (list (Z * gset string)))
    (min_sup_pct : spec_float) (msc min_gap max_gap : Z) (win_size : option Z)
    (r : list (Z * list (list (gset string) * info))) :
  run fuel DB min_sup_pct min_gap max_gap win_size = Returned r →
  DB ≠ [] →
  min_sup_count min_sup_pct (Z.of_nat (length DB)) = Some msc →
  ∀ i k lvl c, r !! i = Some (k, lvl) →
    (∃ k' lvl', r !! S i = Some (k', lvl') ∧ c ∈ PyDict.keys lvl') ↔
    (∃ Ck, join_step (PyDict.keys lvl) = Some Ck ∧ c ∈ Ck ∧
           rule_A c (list_to_set (PyDict.keys lvl)) ∧
           rule_B c (list_to_set (PyDict.keys lvl)) ∧
           msc ≤ windows_containing DB min_gap max_gap win_size c).
Proof.
  intros Hrun HDB Hmsc i k lvl c Hi.
  destruct (run_result DB msc min_gap max_gap win_size fuel min_sup_pct r
              Hrun HDB Hmsc) as (lvl1 & new & -> & _ & _ & _ & Hnew).
  rewrite (levels_ok_next DB msc min_gap max_gap win_size 1 lvl1 1 new i k lvl c
             Hnew Hi).
  unfold next_frequent. split.
  - intros (Ck & HCk & (? & ? & ?)%elem_of_prune_step & ?). by exists Ck.
  - intros (Ck & HCk & ? & ? & ? & ?). exists Ck. split; [done|].
    split; [|done]. by apply elem_of_prune_step.
Qed.

Lemma run_result_next_level_witness :
  (∃ k' lvl', scenario_result !! 1%nat = Some (k', lvl') ∧
              [{["A_1"]}; {["B_0"]}] ∈ PyDict.keys lvl') ↔
  (∃ Ck, join_step (PyDict.keys scenario_level_one) = Some Ck ∧
         [{["A_1"]}; {["B_0"]}] ∈ Ck ∧
         rule_A [{["A_1"]}; {["B_0"]}]
                (list_to_set (PyDict.keys scenario_level_one)) ∧
         rule_B [{["A_1"]}; {["B_0"]}]
                (list_to_set (PyDict.keys scenario_level_one)) ∧
         1 ≤ windows_containing [scenario_window] 0 5 None
               [{["A_1"]}; {["B_0"]}]).
Proof.
  apply (run_result_next_level 3 [scenario_window] (Float64.of_int 50) 1 0 5
           None scenario_result ltac:(by vm_compute) ltac:(done)
           ltac:(by vm_compute) 0%nat 1 scenario_level_one).
  by vm_compute.
Defined.

(** X25.  Level one of the result holds exactly the frequent items: the
    one-item patterns whose item occurs in the database, in a number of
    windows that reaches the threshold. *)
Theorem run_result_level_one (fuel : nat) (DB : list (list (Z * gset string)))
    (min_sup_pct : spec_float) (msc min_gap max_gap : Z) (win_size : option Z)
    (r : list (Z * list (list (gset string) * info))) :
  run fuel DB min_sup_pct min_gap max_gap win_size = Returned r →
  DB ≠ [] →
  min_sup_count min_sup_pct (Z.of_nat (length DB)) = Some msc →
  ∃ lvl1, r !! 0%nat = Some (1, lvl1) ∧
    ∀ p, p ∈ PyDict.keys lvl1 ↔
         ∃ item, p = [{[item]}] ∧ 1 ≤ windows_with_item DB item ∧
                 msc ≤ windows_with_item DB item.
Proof.
  intros Hrun HDB Hmsc.
  destruct (run_result DB msc min_gap max_gap win_size fuel min_sup_pct r
              Hrun HDB Hmsc) as (lvl1 & new & -> & Hkeys & _).
  exists lvl1. split; [done|]. intros p. rewrite Hkeys.
  apply (F1_of_spec DB msc p).
Qed.

Lemma run_result_level_one_witness :
  ∃ lvl1, scenario_result !! 0%nat = Some (1, lvl1) ∧
    ∀ p, p ∈ PyDict.keys lvl1 ↔
         ∃ item, p = [{[item]}] ∧ 1 ≤ windows_with_item [scenario_window] item ∧
                 1 ≤ windows_with_item [scenario_window] item.
Proof.
  apply (run_result_level_one 3 [scenario_window] (Float64.of_int 50) 1 0 5 None);
    [by vm_compute|done|by vm_compute].
Defined.


(** * The window loop of [prepare_db] *)

Lemma window_from_prefix end_t rows : window_from end_t rows `prefix_of` rows.
Proof.
  induction rows as [|ev rows IH]; simpl; [done|].
  destruct (decide (ev.1 < end_t)); [by apply prefix_cons|apply prefix_nil].
Qed.

Lemma window_from_times end_t rows ev :
  ev ∈ window_from end_t rows → ev.1 < end_t.
Proof.
  induction rows as [|ev' rows IH]; simpl; [by intros ?%elem_of_nil|].
  destruct (decide (ev'.1 < end_t)); [|by intros ?%elem_of_nil].
  intros [->|?]%elem_of_cons; [done|by apply IH].
Qed.

Lemma advance_bounds target rows i :
  (i ≤ advance target rows i ≤ i + length rows)%nat.
Proof.
  revert i. induction rows as [|ev rows IH]; intros i; simpl; [lia|].
  destruct (decide (ev.1 < target)); [|lia]. specialize (IH (S i)). lia.
Qed.

Lemma advance_progress target ev rows i :
  ev.1 < target → (i < advance target (ev :: rows) i)%nat.
Proof.
  intros Hlt. simpl. rewrite decide_True by done.
  pose proof (advance_bounds target rows (S i)). lia.
Qed.

Lemma advance_stuck target ev rows i :
  ¬ ev.1 < target → advance target (ev :: rows) i = i.
Proof. intros Hlt. simpl. by rewrite decide_False. Qed.

Section window_loop.
Context (rows : list (Z * gset string)) (seq_len seq_step : Z).

Lemma window_loop_returns fuel :
  1 ≤ seq_step →
  ∀ i DB, (length rows - i ≤ fuel)%nat → Forall (window_ok rows seq_len) DB →
    ∃ DB', window_loop fuel rows seq_len seq_step i DB = Returned DB' ∧
           Forall (window_ok rows seq_len) DB' ∧
           (length DB' ≤ length DB + (length rows - i))%nat.
Proof.
  intros Hstep. induction fuel as [|fuel IH]; intros i DB Hfuel HDB.
  - simpl. rewrite lookup_ge_None_2 by lia. exists DB. split; [done|].
    split; [done|lia].
  - simpl. destruct (rows !! i) as [ev|] eqn:Hev; cycle 1.
    { exists DB. split; [done|]. split; [done|lia]. }
    pose proof (lookup_lt_Some _ _ _ Hev) as Hi.
    assert (drop i rows = ev :: drop (S i) rows) as Hdrop
      by (by apply drop_S).
    pose proof (advance_progress (ev.1 + seq_step) ev (drop (S i) rows) i
                  ltac:(lia)) as Hadv.
    pose proof (advance_bounds (ev.1 + seq_step) (drop i rows) i) as Hbound.
    rewrite length_drop in Hbound. rewrite <- Hdrop in Hadv.
    set (i' := advance (ev.1 + seq_step) (drop i rows) i) in *.
    set (seq := window_from (ev.1 + seq_len) (drop i rows)).
    destruct (IH i' (match seq with [] => DB | _ :: _ => DB ++ [seq] end))
      as (DB' & Hrun & HDB' & Hlen); [lia| |].
    { destruct seq as [|ev0 seq0] eqn:Hseq; [done|].
      apply Forall_app. split; [done|]. constructor; [|done].
      exists i, ev. split; [done|]. split; [done|]. symmetry. exact Hseq. }
    exists DB'. split; [done|]. split; [done|].
    destruct seq; [lia|]. rewrite length_app in Hlen. simpl in Hlen. lia.
Qed.

Lemma window_loop_stuck fuel i DB ev :
  seq_step ≤ 0 → rows !! i = Some ev →
  window_loop fuel rows seq_len seq_step i DB = OutOfFuel.
Proof.
  intros Hstep Hev. revert DB. induction fuel as [|fuel IH]; intros DB; simpl.
  - by rewrite Hev.
  - rewrite Hev. rewrite (drop_S _ _ _ Hev).
    rewrite advance_stuck by lia. apply IH.
Qed.
End window_loop.

(** X26.  With a step of at least one the window loop ends, within as
    many iterations as there are rows and whatever the order of the times.
    Its result has at most one window per row; every window is not empty,
    starts at a row, is a run of consecutive rows from there on, and holds
    only times below its first time plus [seq_len]. *)
Theorem prepare_windows_returns (rows : list (Z * gset string))
    (seq_len seq_step : Z) :
  1 ≤ seq_step →
  ∃ DB, prepare_windows (length rows) rows seq_len seq_step = Returned DB ∧
    (length DB ≤ length rows)%nat ∧
    ∀ w, w ∈ DB →
      ∃ i ev, rows !! i = Some ev ∧ head w = Some ev ∧
              w `prefix_of` drop i rows ∧
              ∀ ev', ev' ∈ w → ev'.1 < ev.1 + seq_len.
Proof.
  intros Hstep. unfold prepare_windows.
  destruct (window_loop_returns rows seq_len seq_step (length rows) Hstep 0 [])
    as (DB & Hrun & HDB & Hlen); [lia|done|].
  destruct rows as [|ev rows']; [exists []; split; [done|]; split; [done|];
    by intros w ?%elem_of_nil|].
  exists DB. split; [done|]. split; [simpl in *; lia|].
  intros w Hw. rewrite Forall_forall in HDB.
  destruct (HDB w Hw) as (i & ev0 & Hev0 & Hne & ->).
  exists i, ev0. split; [done|]. split.
  - rewrite (drop_S _ _ _ Hev0) in *. simpl in *.
    by destruct (decide (ev0.1 < ev0.1 + seq_len)).
  - split; [apply window_from_prefix|]. apply window_from_times.
Qed.

Lemma prepare_windows_returns_witness :
  ∃ DB, prepare_windows (length scenario_rows) scenario_rows 3 2 = Returned DB ∧
    (length DB ≤ length scenario_rows)%nat ∧
    ∀ w, w ∈ DB →
      ∃ i ev, scenario_rows !! i = Some ev ∧ head w = Some ev ∧
              w `prefix_of` drop i scenario_rows ∧
              ∀ ev', ev' ∈ w → ev'.1 < ev.1 + 3.
Proof. apply prepare_windows_returns. lia. Defined.

Example scenario_prepare :
  (λ r, match r with
        | Returned DB => Some (map (map fst) DB)
        | _ => None
        end) (prepare_windows 4 scenario_rows 3 2)
  = Some [[0; 1; 2]; [2]; [5]].
Proof. by vm_compute. Qed.

(** X27.  With a step of zero or less the window loop never ends on a
    non-empty table: the position [i] does not move, so no number of
    iterations is enough. *)
Theorem prepare_windows_diverges (fuel : nat) (rows : list (Z * gset string))
    (seq_len seq_step : Z) :
  seq_step ≤ 0 → rows ≠ [] →
  prepare_windows fuel rows seq_len seq_step = OutOfFuel.
Proof.
  intros Hstep Hrows. unfold prepare_windows.
  destruct rows as [|ev rows']; [done|].
  by apply (window_loop_stuck _ seq_len seq_step fuel 0 [] ev).
Qed.

Lemma prepare_windows_diverges_witness :
  prepare_windows 1000 scenario_rows 3 0 = OutOfFuel.
Proof. apply prepare_windows_diverges; [lia|done]. Defined.

Lemma StronglySorted_list_filter {A} (R : relation A) (f : A → bool) l :
  StronglySorted R l → StronglySorted R (List.filter f l).
Proof.
  induction 1 as [|x l Hl IH Hx]; simpl; [constructor|].
  destruct (f x); [|done]. constructor; [done|].
  rewrite Forall_forall in *. intros y Hy.
  apply list_elem_of_In, filter_In in Hy as [Hy _]. by apply Hx, list_elem_of_In.
Qed.

(** On rows in time order the loop [while ... times_int[j] < end_t] stops
    at the first row that is too late, and no later row is in time. *)
Lemma window_from_filter end_t rows :
  increasing_times rows →
  window_from end_t rows = List.filter (λ e, bool_decide (e.1 < end_t)) rows.
Proof.
  induction 1 as [|ev rows Hs IH Hev]; simpl; [done|].
  destruct (decide (ev.1 < end_t)) as [Hlt|Hge].
  - rewrite bool_decide_eq_true_2 by done. by rewrite IH.
  - rewrite bool_decide_eq_false_2 by done. symmetry.
    clear IH Hs. induction rows as [|ev' rows IH]; simpl; [done|].
    apply Forall_cons in Hev as [Hlt Hev].
    rewrite bool_decide_eq_false_2 by lia. by apply IH.
Qed.

Lemma window_from_range rows i ev len :
  increasing_times rows → rows !! i = Some ev →
  window_from (ev.1 + len) (drop i rows) =
  List.filter (λ e, bool_decide (ev.1 ≤ e.1 < ev.1 + len)) rows.
Proof.
  intros Hs Hev. rewrite <- (take_drop i rows) at 2.
  unfold increasing_times in Hs. rewrite <- (take_drop i rows) in Hs.
  apply StronglySorted_app in Hs as (Hcross & _ & Hdrop).
  rewrite List.filter_app, window_from_filter by done.
  assert (ev ∈ drop i rows) as Hin.
  { rewrite (drop_S _ _ _ Hev). left. }
  assert (List.filter (λ e, bool_decide (ev.1 ≤ e.1 < ev.1 + len)) (take i rows)
          = []) as ->.
  { assert (∀ e, e ∈ take i rows → e.1 < ev.1) as Hbefore
      by (intros e He; by apply Hcross).
    clear Hcross. induction (take i rows) as [|e l IH]; simpl; [done|].
    rewrite bool_decide_eq_false_2.
    - apply IH. intros e' He'. apply Hbefore. by right.
    - specialize (Hbefore e ltac:(left)). lia. }
  simpl. apply List.filter_ext_in. intros e He. apply bool_decide_ext.
  assert (ev.1 ≤ e.1); [|lia].
  rewrite (drop_S _ _ _ Hev) in Hdrop, He.
  apply StronglySorted_cons in Hdrop as [Hafter _].
  apply list_elem_of_In, elem_of_cons in He as [->|He]; [lia|].
  rewrite Forall_forall in Hafter. specialize (Hafter _ He). lia.
Qed.

(** X28.  On rows whose times increase strictly, and with a step of at
    least one, every window of the database is exactly the rows whose time
    lies in [[start, start + seq_len)] for the time [start] of some row,
    in their order; its times increase strictly, as the mining core
    expects of a window. *)
Theorem prepare_windows_time_ranges (rows : list (Z * gset string))
    (seq_len seq_step : Z) :
  increasing_times rows → 1 ≤ seq_step →
  ∃ DB, prepare_windows (length rows) rows seq_len seq_step = Returned DB ∧
    ∀ w, w ∈ DB →
      increasing_times w ∧
      ∃ i ev, rows !! i = Some ev ∧
        w = List.filter (λ e, bool_decide (ev.1 ≤ e.1 < ev.1 + seq_len)) rows.
Proof.
  intros Hs Hstep. unfold prepare_windows.
  destruct (window_loop_returns rows seq_len seq_step (length rows) Hstep 0 [])
    as (DB & Hrun & HDB & _); [lia|done|].
  destruct rows as [|ev0 rows']; [exists []; split; [done|];
    by intros w ?%elem_of_nil|].
  exists DB. split; [done|]. intros w Hw. rewrite Forall_forall in HDB.
  destruct (HDB w Hw) as (i & ev & Hev & _ & ->).
  rewrite (window_from_range _ i ev seq_len Hs Hev).
  split; [by apply StronglySorted_list_filter|]. by exists i, ev.
Qed.

Lemma prepare_windows_time_ranges_witness :
  ∃ DB, prepare_windows (length scenario_rows) scenario_rows 3 2 = Returned DB ∧
    ∀ w, w ∈ DB →
      increasing_times w ∧
      ∃ i ev, scenario_rows !! i = Some ev ∧
        w = List.filter (λ e, bool_decide (ev.1 ≤ e.1 < ev.1 + 3)) scenario_rows.
Proof.
  apply prepare_windows_time_ranges; [|lia].
  apply (bool_decide_unpack _). by vm_compute.
Defined.

(** * The discretisation and the input loop *)

(** The three-way test against a bound and its opposite. *)
Lemma three_way_odd (M : positive) (E : Z) (x : spec_float) :
  x ≠ S754_nan →
  (if SFleb (S754_finite true M E) (SFopp x)
      && SFleb (SFopp x) (S754_finite false M E) then "0"
   else if SFltb (S754_finite false M E) (SFopp x) then "1" else "-1")
  = opposite_code
      (if SFleb (S754_finite true M E) x
          && SFleb x (S754_finite false M E) then "0"
       else if SFltb (S754_finite false M E) x then "1" else "-1").
Proof.
  intros Hx. destruct x as [s|s| |s m e]; [by destruct s..|done|].
  unfold SFleb, SFltb, SFopp, SFcompare.
  assert ((E ?= e) = CompOpp (e ?= E)) as -> by apply Z.compare_antisym.
  assert (PosDef.Pos.compare_cont Eq M m
          = CompOpp (PosDef.Pos.compare_cont Eq m M)) as ->
    by (symmetry; apply (Pos.compare_cont_antisym m M Eq)).
  generalize (e ?= E) (PosDef.Pos.compare_cont Eq m M).
  by intros [] []; destruct s.
Qed.

(** X29.  The discretisation is odd: a return and its opposite get
    opposite codes, ["1"] against ["-1"] and ["0"] against ["0"], for
    every value that is a number (zeros of either sign and infinities
    included). *)
Theorem discretize_return_odd (x : spec_float) :
  x ≠ S754_nan →
  discretize_return (SFopp x) = opposite_code (discretize_return x).
Proof. exact (three_way_odd 4611686018427388 (-62) x). Qed.

Lemma discretize_return_odd_witness :
  discretize_return (SFopp (Float64.of_int 5))
  = opposite_code (discretize_return (Float64.of_int 5)).
Proof. apply discretize_return_odd. by vm_compute. Defined.

Section ask_number.
Context {T : Type} (strip : string → string) (cast : string → option T)
        (lt : T → T → bool).

(** A value returned by [ask_number] is the default, returned unchecked on
    an empty line, or a value that passed every configured test; the
    lines left are a suffix of the lines given. *)
Lemma ask_number_checked inputs default min_value max_value allow_empty
    predicate v rest :
  Main.ask_number strip cast lt inputs default min_value max_value allow_empty
    predicate = Some (v, rest) →
  rest `suffix_of` inputs ∧
  ((allow_empty = true ∧ v = default) ∨
   ((∃ raw, raw ≠ "" ∧ cast raw = Some v) ∧
    (∀ m, min_value = Some m → lt v m = false) ∧
    (∀ m, max_value = Some m → lt m v = false) ∧
    (∀ f, predicate = Some f → f v = true))).
Proof.
  induction inputs as [|line inputs IH]; simpl; [done|].
  assert (∀ r, r `suffix_of` inputs → r `suffix_of` line :: inputs) as Hsuf
    by (intros r; apply suffix_cons_r).
  intros Hrun.
  assert (Main.ask_number strip cast lt inputs default min_value max_value
            allow_empty predicate = Some (v, rest) →
          rest `suffix_of` line :: inputs ∧
          ((allow_empty = true ∧ v = default) ∨
           ((∃ raw, raw ≠ "" ∧ cast raw = Some v) ∧
            (∀ m, min_value = Some m → lt v m = false) ∧
            (∀ m, max_value = Some m → lt m v = false) ∧
            (∀ f, predicate = Some f → f v = true)))) as Hagain.
  { intros [? ?]%IH. split; [by apply Hsuf|done]. }
  destruct (decide (strip line = "")) as [Hraw|Hraw].
  { destruct allow_empty; [|by apply Hagain].
    injection Hrun as <- <-. split; [by apply Hsuf|]. by left. }
  destruct (cast (strip line)) as [value|] eqn:Hcast; [|by apply Hagain].
  destruct (match min_value with Some m => lt value m | None => false end)
    eqn:Hmin; [by apply Hagain|].
  destruct (match max_value with Some m => lt m value | None => false end)
    eqn:Hmax; [by apply Hagain|].
  destruct (match predicate with Some f => negb (f value) | None => false end)
    eqn:Hpred; [by apply Hagain|].
  injection Hrun as <- <-. split; [by apply Hsuf|]. right.
  split; [by exists (strip line)|].
  split; [by intros m ->|]. split; [by intros m ->|].
  intros f ->. by apply negb_false_iff.
Qed.
End ask_number.

(** X30.  The step that [main.py] hands to the miner makes the window
    loop end: whatever the user types, when the question for [seq_step]
    (an integer, default 1, minimum 1) returns a value, the window loop of
    [prepare_db] run with that step returns a database on every table. *)
Theorem asked_seq_step_terminates (strip : string → string)
    (cast : string → option Z) (inputs rest : list string) (seq_step : Z)
    (rows : list (Z * gset string)) (seq_len : Z) :
  Main.ask_number strip cast Z.ltb inputs 1 (Some 1) None true None
    = Some (seq_step, rest) →
  ∃ DB, prepare_windows (length rows) rows seq_len seq_step = Returned DB.
Proof.
  intros [_ Hv]%ask_number_checked.
  assert (1 ≤ seq_step) as Hstep.
  { destruct Hv as [[_ ->]|(_ & Hmin & _)]; [done|].
    specialize (Hmin 1 eq_refl). by apply Z.ltb_ge in Hmin. }
  destruct (window_loop_returns rows seq_len seq_step (length rows) Hstep 0 [])
    as (DB & Hrun & _); [lia|done|].
  unfold prepare_windows. destruct rows; [by exists []|by exists DB].
Qed.

Lemma asked_seq_step_terminates_witness :
  ∃ DB, prepare_windows (length scenario_rows) scenario_rows 3 2 = Returned DB.
Proof.
  apply (asked_seq_step_terminates
           (λ s, s) (λ s, if decide (s = "2") then Some 2 else Some 0)
           ["0"; "2"; ""] [""] 2 scenario_rows 3).
  by vm_compute.
Defined.

